(** * Bifrost colour layer: UnitigColors, its iterator, and ColoredCDBG

    A shallow embedding of [src/ColorSet.hpp], [src/UnitigMap.tpp] and
    [src/ColoredCDBG.cpp].  Machine words ([size_t], [uintptr_t], [uint64_t])
    are integers of [Z] in [0, 2^64) with the wrap-around written out. *)

From Stdlib Require Import ZArith List Lia Bool Sorted.
From stdpp Require Import base numbers option list gmap strings.
Import ListNotations.

Local Open Scope Z_scope.

(** ** Machine words *)

Definition wrap64 (z : Z) : Z := z mod 2 ^ 64.

(** [0xffffffffffffffff], the value of a default-constructed [ColorKmer_ID]
    and the start value of [it_setBits]. *)
Definition all_ones : Z := 0xffffffffffffffff.

(** ** Roaring bitmaps

    [Roaring] is the third-party compressed bitmap ([roaring/roaring.hh]): a
    set of 32-bit unsigned integers whose iterators walk the members in
    increasing order.  The model is the increasing list of members; an
    iterator is a position in that list. *)
Module Roaring.

Definition t : Type := list Z.

Definition const_iterator : Type := nat.

Fixpoint add (x : Z) (r : t) : t :=
  match r with
  | [] => [x]
  | y :: r' =>
      if x <? y then x :: y :: r'
      else if x =? y then y :: r'
      else y :: add x r'
  end.

Definition cardinality (r : t) : Z := Z.of_nat (length r).

Definition begin (r : t) : const_iterator := 0%nat.
Definition end_ (r : t) : const_iterator := length r.
Definition next (i : const_iterator) : const_iterator := S i.
Definition deref (r : t) (i : const_iterator) : Z := nth i r 0.
Definition iter_eqb (i j : const_iterator) : bool := Nat.eqb i j.

(** The members are 32-bit and strictly increasing. *)
Definition wf (r : t) : Prop :=
  StronglySorted Z.lt r /\ Forall (fun x => 0 <= x < 2 ^ 32) r.

End Roaring.

(** ** UnitigColors: the tagged word *)

Definition maxBitVectorIDs : Z := 62.

Definition ptrCompressedBitmap : Z := 0x0.
Definition localBitVectorColor : Z := 0x1.
Definition localSingleColor : Z := 0x2.
Definition unoccupied : Z := 0x3.

Definition flagMask : Z := 0x3.
Definition pointerMask : Z := 0xfffffffffffffffc.

(** [setBits] is the union word.  [bitmap] is the Roaring object found at the
    address [setBits & pointerMask]; it is read only when the flag is
    [ptrCompressedBitmap]. *)
Record UnitigColors : Type := mkUnitigColors {
  setBits : Z;
  bitmap : Roaring.t
}.

Definition UnitigColors_eqb (a b : UnitigColors) : bool :=
  (setBits a =? setBits b) && bool_decide (bitmap a = bitmap b).

(** The default constructor: "The UnitigColors is initialized as unoccupied". *)
Definition UnitigColors_new : UnitigColors :=
  {| setBits := unoccupied; bitmap := [] |}.

Definition isUnoccupied (cs : UnitigColors) : bool :=
  Z.land (setBits cs) flagMask =? unoccupied.

Definition isOccupied (cs : UnitigColors) : bool :=
  negb (Z.land (setBits cs) flagMask =? unoccupied).

Definition setOccupied (cs : UnitigColors) : UnitigColors :=
  if isUnoccupied cs then {| setBits := localBitVectorColor; bitmap := bitmap cs |}
  else cs.

Definition getConstPtrBitmap (cs : UnitigColors) : Roaring.t := bitmap cs.

(** The ids below 62 whose bit is set in the word [w], from [p], over [n]
    positions, in increasing order. *)
Definition set_bits (w : Z) (p n : nat) : list Z :=
  List.filter (fun i => Z.testbit w (i + 2)) (map Z.of_nat (seq p n)).

(** Modelled from the spec: [UnitigColors::size] is declared in
    [ColorSet.hpp] and defined in the absent [ColorSet.tcc]; "count of
    distinct ColorKmerIds". *)
Definition UnitigColors_size (cs : UnitigColors) : Z :=
  let flag := Z.land (setBits cs) flagMask in
  if flag =? ptrCompressedBitmap then Roaring.cardinality (getConstPtrBitmap cs)
  else if flag =? localBitVectorColor then
    Z.of_nat (length (set_bits (setBits cs) 0 62))
  else if flag =? localSingleColor then 1
  else 0.

(** ** ColorKmer_ID *)

Module ColorKmer_ID.

(** The text sent to [cerr]. *)
Definition err_getColorID : string :=
  "ColorKmer_ID:getColorID(): Invalid ColorKmer_ID".
Definition err_getKmerPosition : string :=
  "ColorKmer_ID:getKmerPosition(): Invalid ColorKmer_ID".

(** Default constructor. *)
Definition new : Z := all_ones.

(** Both accessors return the value and the lines written to [cerr].
    Division by a zero [length_unitig_km] is undefined in the source. *)
Definition getColorID (ck_id length_unitig_km : Z) : Z * list string :=
  if ck_id =? 0xffffffffffffffff then (ck_id, [err_getColorID])
  else (ck_id / length_unitig_km, []).

Definition getKmerPosition (ck_id length_unitig_km : Z) : Z * list string :=
  if ck_id =? 0xffffffffffffffff then (ck_id, [err_getKmerPosition])
  else (ck_id mod length_unitig_km, []).

End ColorKmer_ID.

(** ** UnitigColors_const_iterator *)

Record const_iterator : Type := mkIter {
  cs : UnitigColors;
  flag : Z;
  it_setBits : Z;
  cs_sz : Z;
  ck_id : Z;
  it_roar : Roaring.const_iterator
}.

(** The private constructor [UnitigColors_const_iterator(cs_, beg)]. *)
Definition const_iterator_new (cs_ : UnitigColors) (beg : bool) : const_iterator :=
  let flag_ := Z.land (setBits cs_) flagMask in
  let it_roar_ :=
    if flag_ =? ptrCompressedBitmap then
      if beg then Roaring.begin (getConstPtrBitmap cs_)
      else Roaring.end_ (getConstPtrBitmap cs_)
    else Roaring.end_ [] in
  let cs_sz_ :=
    if flag_ =? ptrCompressedBitmap then UnitigColors_size cs_
    else if flag_ =? localSingleColor then 1 else maxBitVectorIDs in
  {| cs := cs_;
     flag := flag_;
     it_setBits := if beg then 0xffffffffffffffff else cs_sz_;
     cs_sz := cs_sz_;
     ck_id := 0;
     it_roar := it_roar_ |}.

(** The [while] loop of the bit-vector branch of [operator++]; it runs at
    most [maxBitVectorIDs] times, which is the fuel given by the caller. *)
Fixpoint scan_setBits (fuel : nat) (bits i ck : Z) : Z * Z :=
  match fuel with
  | O => (i, ck)
  | S fuel' =>
      if i <? maxBitVectorIDs then
        if negb (Z.land (Z.shiftr bits (i + 2)) 0x1 =? 0) then (i, i)
        else scan_setBits fuel' bits (wrap64 (i + 1)) ck
      else (i, ck)
  end.

(** Prefix [operator++]. *)
Definition incr (it : const_iterator) : const_iterator :=
  if it_setBits it =? cs_sz it then it
  else
    let i1 := wrap64 (it_setBits it + 1) in
    if flag it =? ptrCompressedBitmap then
      let r1 := if negb (i1 =? 0) then Roaring.next (it_roar it) else it_roar it in
      let ck1 :=
        if negb (Roaring.iter_eqb r1 (Roaring.end_ (getConstPtrBitmap (cs it))))
        then Roaring.deref (getConstPtrBitmap (cs it)) r1
        else ck_id it in
      {| cs := cs it; flag := flag it; it_setBits := i1; cs_sz := cs_sz it;
         ck_id := ck1; it_roar := r1 |}
    else if flag it =? localBitVectorColor then
      let '(i2, ck2) := scan_setBits 62 (setBits (cs it)) i1 (ck_id it) in
      {| cs := cs it; flag := flag it; it_setBits := i2; cs_sz := cs_sz it;
         ck_id := ck2; it_roar := it_roar it |}
    else if flag it =? localSingleColor then
      {| cs := cs it; flag := flag it; it_setBits := i1; cs_sz := cs_sz it;
         ck_id := Z.shiftr (setBits (cs it)) 2; it_roar := it_roar it |}
    else
      {| cs := cs it; flag := flag it; it_setBits := i1; cs_sz := cs_sz it;
         ck_id := ck_id it; it_roar := it_roar it |}.

(** [operator==] on two iterators over one container, where the pointer
    comparison [cs == o.cs] is true, as the comparison of the contents made
    here is; [iter_eqb_at] below compares the addresses of two
    containers. *)
Definition iter_eqb (a b : const_iterator) : bool :=
  UnitigColors_eqb (cs a) (cs b) && (flag a =? flag b) && (cs_sz a =? cs_sz b) &&
  (if flag a =? ptrCompressedBitmap then Roaring.iter_eqb (it_roar a) (it_roar b)
   else it_setBits a =? it_setBits b).

Definition begin (c : UnitigColors) : const_iterator :=
  incr (const_iterator_new c true).

Definition end_ (c : UnitigColors) : const_iterator :=
  const_iterator_new c false.

(** The loop [for (it = begin(); it != end(); ++it)], collecting the
    [ColorKmer_ID] the iterator points at in each round.  [None] when the fuel runs out before [it]
    reaches [it_end]. *)
Fixpoint iterate (fuel : nat) (it it_end : const_iterator) : option (list Z) :=
  if iter_eqb it it_end then Some []
  else
    match fuel with
    | O => None
    | S fuel' =>
        match iterate fuel' (incr it) it_end with
        | Some l => Some (ck_id it :: l)
        | None => None
        end
    end.

(** [it_setBits] moves from 0 to [cs_sz], so [cs_sz] steps are enough. *)
Definition colors (c : UnitigColors) : option (list Z) :=
  iterate (Z.to_nat (cs_sz (end_ c))) (begin c) (end_ c).

(** The ids a [UnitigColors] stands for, read off its representation. *)
Definition ids (c : UnitigColors) : list Z :=
  let flag := Z.land (setBits c) flagMask in
  if flag =? ptrCompressedBitmap then getConstPtrBitmap c
  else if flag =? localBitVectorColor then
    set_bits (setBits c) 0 62
  else if flag =? localSingleColor then [Z.shiftr (setBits c) 2]
  else [].

(** ** UnitigMap *)

Module UnitigMap.

Record t : Type := mk {
  pos_unitig : Z;
  dist : Z;
  len : Z;
  size : Z;
  strand : bool;
  isShort : bool;
  isAbundant : bool;
  selfLoop : bool;
  isEmpty : bool;
  isTip : bool;
  isIsolated : bool
}.

(** [UnitigMap(p_unitig, i, l, sz, short_, abundance, strd, cdbg_)] *)
Definition new (p_unitig i l sz : Z) (short_ abundance strd : bool) : t :=
  {| pos_unitig := p_unitig; dist := i; len := l; size := sz; strand := strd;
     isShort := short_; isAbundant := abundance; selfLoop := false;
     isEmpty := false; isTip := false; isIsolated := false |}.

(** [UnitigMap(l)], the empty mapping. *)
Definition empty (l : Z) : t :=
  {| pos_unitig := 0; dist := 0; len := l; size := 0; strand := true;
     isShort := false; isAbundant := false; selfLoop := false;
     isEmpty := true; isTip := false; isIsolated := false |}.

Definition set_dist (um : t) (d : Z) : t :=
  {| pos_unitig := pos_unitig um; dist := d; len := len um; size := size um;
     strand := strand um; isShort := isShort um; isAbundant := isAbundant um;
     selfLoop := selfLoop um; isEmpty := isEmpty um; isTip := isTip um;
     isIsolated := isIsolated um |}.

Definition set_len (um : t) (l : Z) : t :=
  {| pos_unitig := pos_unitig um; dist := dist um; len := l; size := size um;
     strand := strand um; isShort := isShort um; isAbundant := isAbundant um;
     selfLoop := selfLoop um; isEmpty := isEmpty um; isTip := isTip um;
     isIsolated := isIsolated um |}.

End UnitigMap.

(** ** UnitigColors::add and UnitigColors::reverse *)

(** Modelled from the spec: the private [UnitigColors::add(color_id)] of the
    absent [ColorSet.tcc], with the promotion rules of the spec: Unoccupied
    becomes an empty BitVec62; a BitVec62 takes ids below 62 as bits and is
    otherwise moved to a Bitmap with its bits transferred; Single(x) is kept
    when the id is x and otherwise becomes the Bitmap of both; a Bitmap
    inserts.  [Roaring::add] takes a [uint32_t], hence the truncation.  The
    address of an allocated bitmap is not modelled: the word of a Bitmap
    keeps only the flag bits. *)
Definition add_id (c : UnitigColors) (id : Z) : UnitigColors :=
  let c := setOccupied c in
  let flag := Z.land (setBits c) flagMask in
  if flag =? localBitVectorColor then
    if id <? maxBitVectorIDs then
      {| setBits := Z.lor (setBits c) (Z.shiftl 1 (id + 2)); bitmap := bitmap c |}
    else
      {| setBits := ptrCompressedBitmap;
         bitmap := Roaring.add (id mod 2 ^ 32) (fold_right Roaring.add [] (ids c)) |}
  else if flag =? localSingleColor then
    if id =? Z.shiftr (setBits c) 2 then c
    else
      {| setBits := ptrCompressedBitmap;
         bitmap := Roaring.add (id mod 2 ^ 32)
                     (Roaring.add (Z.shiftr (setBits c) 2 mod 2 ^ 32) []) |}
  else
    {| setBits := setBits c; bitmap := Roaring.add (id mod 2 ^ 32) (bitmap c) |}.

(** The k-mer positions [um.dist .. um.dist + um.len - 1]. *)
Definition positions (um : UnitigMap.t) : list Z :=
  map (fun i => wrap64 (UnitigMap.dist um + Z.of_nat i))
      (seq 0 (Z.to_nat (UnitigMap.len um))).

(** Modelled from the spec: [UnitigColors::add(um, color_id)] of the absent
    [ColorSet.tcc]: "for each k-mer position p in [mapping.dist,
    mapping.dist+mapping.len), insert ColorKmerId = color_id * K + p
    (forward) or the reverse-complement equivalent if mapping.strand=false",
    with "K = L - k + 1" for the mapping's unitig of length L = [um.size];
    the reverse-complement equivalent of p is taken to be K - 1 - p, as in
    [reverse]. *)
Definition UnitigColors_add (k : Z) (c : UnitigColors) (um : UnitigMap.t)
    (color_id : Z) : UnitigColors :=
  let um_km_sz := wrap64 (UnitigMap.size um - k + 1) in
  fold_left
    (fun c p =>
       add_id c (wrap64 (color_id * um_km_sz +
                         (if UnitigMap.strand um then p else um_km_sz - 1 - p))))
    (positions um) (setOccupied c).

(** Modelled from the spec: [UnitigColors::reverse] of the absent
    [ColorSet.tcc], called with the length L of the unitig: "returns a new
    UnitigColors whose ColorKmerIds are remapped as color*K + (K-1-pos)". *)
Definition UnitigColors_reverse (k : Z) (c : UnitigColors) (L : Z) : UnitigColors :=
  let um_km_sz := wrap64 (L - k + 1) in
  fold_left
    (fun r id =>
       add_id r (wrap64 (id / um_km_sz * um_km_sz + (um_km_sz - 1 - id mod um_km_sz))))
    (ids c) UnitigColors_new.

(** ** The graph and its colour storage *)

Abbreviation Kmer := string (only parsing).

(** Modelled from the spec: the class [HashID] (the DataAccessor) is not
    among the sources; it is "a single integer selecting one of N hash
    functions (or 0 = in overflow table)".  The model keeps the byte that
    [get()] returns; [lock()] and [unlock()] only serialise threads. *)
Abbreviation HashID := Z (only parsing).

(** What the colour layer reads of a unitig: its first k-mer, the length of
    its sequence and its data slot. *)
Record Unitig : Type := mkUnitig {
  head_kmer : Kmer;
  seq_size : Z;
  data : HashID
}.

Definition Unitig_setData (u : Unitig) (hid : HashID) : Unitig :=
  {| head_kmer := head_kmer u; seq_size := seq_size u; data := hid |}.

(** [ColoredCDBG] with the members of [CompactedDBG] that [UnitigMap.tpp]
    reads.  [color_sets = None] is the null pointer. *)
Record ColoredCDBG : Type := mkColoredCDBG {
  k_ : Z;
  v_unitigs : list Unitig;
  v_kmers : list Unitig;
  h_kmers_ccov : list Unitig;
  color_sets : option (list UnitigColors);
  nb_color_sets : Z;
  seeds : list Z;
  km_overflow : gmap Kmer UnitigColors
}.

Definition getK (g : ColoredCDBG) : Z := k_ g.

(** [CompactedDBG::size] *)
Definition CompactedDBG_size (g : ColoredCDBG) : Z :=
  Z.of_nat (length (v_unitigs g)) + Z.of_nat (length (v_kmers g))
  + Z.of_nat (length (h_kmers_ccov g)).

(** The container entry a mapping designates, following the dispatch of
    [UnitigMap.tpp] on [isShort] and [isAbundant].  [None] stands for an
    index outside the container, which the source does not check. *)
Definition unitig_at (g : ColoredCDBG) (um : UnitigMap.t) : option Unitig :=
  if UnitigMap.isShort um then v_kmers g !! Z.to_nat (UnitigMap.pos_unitig um)
  else if UnitigMap.isAbundant um then h_kmers_ccov g !! Z.to_nat (UnitigMap.pos_unitig um)
  else v_unitigs g !! Z.to_nat (UnitigMap.pos_unitig um).

(** The k-mer made by [set_empty()]. *)
Definition empty_kmer : Kmer := EmptyString.

(** [UnitigMap::getHead] *)
Definition getHead (g : ColoredCDBG) (um : UnitigMap.t) : Kmer :=
  if negb (UnitigMap.isEmpty um) then
    match unitig_at g um with Some u => head_kmer u | None => empty_kmer end
  else empty_kmer.

(** [UnitigMap::getData], followed by [HashID::get]; the graph of a
    [ColoredCDBG] always has data.  The null pointer of an empty mapping is
    read as 0. *)
Definition getData (g : ColoredCDBG) (um : UnitigMap.t) : HashID :=
  if UnitigMap.isEmpty um then 0
  else match unitig_at g um with Some u => data u | None => 0 end.

(** [UnitigMap::setData] *)
Definition setData (g : ColoredCDBG) (um : UnitigMap.t) (hid : HashID) : ColoredCDBG :=
  let p := Z.to_nat (UnitigMap.pos_unitig um) in
  if UnitigMap.isEmpty um then g
  else if UnitigMap.isShort um then
    {| k_ := k_ g; v_unitigs := v_unitigs g;
       v_kmers := alter (fun u => Unitig_setData u hid) p (v_kmers g);
       h_kmers_ccov := h_kmers_ccov g; color_sets := color_sets g;
       nb_color_sets := nb_color_sets g; seeds := seeds g;
       km_overflow := km_overflow g |}
  else if UnitigMap.isAbundant um then
    {| k_ := k_ g; v_unitigs := v_unitigs g; v_kmers := v_kmers g;
       h_kmers_ccov := alter (fun u => Unitig_setData u hid) p (h_kmers_ccov g);
       color_sets := color_sets g; nb_color_sets := nb_color_sets g;
       seeds := seeds g; km_overflow := km_overflow g |}
  else
    {| k_ := k_ g;
       v_unitigs := alter (fun u => Unitig_setData u hid) p (v_unitigs g);
       v_kmers := v_kmers g; h_kmers_ccov := h_kmers_ccov g;
       color_sets := color_sets g; nb_color_sets := nb_color_sets g;
       seeds := seeds g; km_overflow := km_overflow g |}.

(** Addresses of [ColorSet] objects: a slot of the array, an entry of the
    overflow table, or one of the locals [csd_rev] and [css_rev] of
    [joinColors]. *)
Inductive ColorSetPtr : Type :=
| color_sets_at (i : nat)
| km_overflow_at (km : Kmer)
| addr_csd_rev
| addr_css_rev.

Definition with_color_sets (g : ColoredCDBG) (a : option (list UnitigColors)) : ColoredCDBG :=
  {| k_ := k_ g; v_unitigs := v_unitigs g; v_kmers := v_kmers g;
     h_kmers_ccov := h_kmers_ccov g; color_sets := a;
     nb_color_sets := nb_color_sets g; seeds := seeds g;
     km_overflow := km_overflow g |}.

Definition with_km_overflow (g : ColoredCDBG) (m : gmap Kmer UnitigColors) : ColoredCDBG :=
  {| k_ := k_ g; v_unitigs := v_unitigs g; v_kmers := v_kmers g;
     h_kmers_ccov := h_kmers_ccov g; color_sets := color_sets g;
     nb_color_sets := nb_color_sets g; seeds := seeds g;
     km_overflow := m |}.

(** Reading and writing a [ColorSet] of the storage through its address. *)
Definition load (g : ColoredCDBG) (p : ColorSetPtr) : UnitigColors :=
  match p with
  | color_sets_at i =>
      match color_sets g with
      | Some a => default UnitigColors_new (a !! i)
      | None => UnitigColors_new
      end
  | km_overflow_at km => default UnitigColors_new (km_overflow g !! km)
  | _ => UnitigColors_new
  end.

Definition store (g : ColoredCDBG) (p : ColorSetPtr) (c : UnitigColors) : ColoredCDBG :=
  match p with
  | color_sets_at i =>
      match color_sets g with
      | Some a => with_color_sets g (Some (<[i := c]> a))
      | None => g
      end
  | km_overflow_at km => with_km_overflow g (<[km := c]> (km_overflow g))
  | _ => g
  end.

Section ColoredCDBG_methods.

(** [Kmer::hash(seed)], a 64-bit value; [Kmer.hpp] is not among the
    sources. *)
Variable hash : Kmer -> Z -> Z.

(** [UnitigColors::add(um, color_id)] and [UnitigColors::reverse], whose
    definitions ([ColorSet.tcc]) are not among the sources. *)
Variable add : UnitigColors -> UnitigMap.t -> Z -> UnitigColors.
Variable reverse : UnitigColors -> Z -> UnitigColors.

Definition seed_at (g : ColoredCDBG) (i : Z) : Z := nth (Z.to_nat i) (seeds g) 0.

(** [ColoredCDBG::getColorSet], both overloads. *)
Definition getColorSet (g : ColoredCDBG) (um : UnitigMap.t) : option ColorSetPtr :=
  if negb (UnitigMap.isEmpty um) && bool_decide (color_sets g <> None) then
    let head := getHead g um in
    let hash_id := getData g um in
    if hash_id =? 0 then
      match km_overflow g !! head with
      | Some _ => Some (km_overflow_at head)
      | None => None
      end
    else
      Some (color_sets_at
              (Z.to_nat (hash head (seed_at g (hash_id - 1)) mod nb_color_sets g)))
  else None.

(** [ColoredCDBG::setColor] *)
Definition setColor (g : ColoredCDBG) (um : UnitigMap.t) (color_id : Z)
    : bool * ColoredCDBG :=
  if negb (UnitigMap.isEmpty um) && bool_decide (color_sets g <> None) then
    match getColorSet g um with
    | Some color_set => (true, store g color_set (add (load g color_set) um color_id))
    | None => (false, g)
    end
  else (false, g).

(** The sequence of values [*it] met by a loop from [begin()] to [end()]. *)
Definition to_list (c : UnitigColors) : list Z := default [] (colors c).

(** The locals of [joinColors] that can be pointed at, next to the graph. *)
Record joinColors_frame : Type := mkFrame {
  this : ColoredCDBG;
  csd_rev : UnitigColors;
  css_rev : UnitigColors
}.

Definition frame_load (f : joinColors_frame) (p : ColorSetPtr) : UnitigColors :=
  match p with
  | addr_csd_rev => csd_rev f
  | addr_css_rev => css_rev f
  | _ => load (this f) p
  end.

Definition frame_store (f : joinColors_frame) (p : ColorSetPtr) (c : UnitigColors)
    : joinColors_frame :=
  match p with
  | addr_csd_rev => {| this := this f; csd_rev := c; css_rev := css_rev f |}
  | addr_css_rev => {| this := this f; csd_rev := csd_rev f; css_rev := c |}
  | _ => {| this := store (this f) p c; csd_rev := csd_rev f; css_rev := css_rev f |}
  end.

(** The first [for] loop of [joinColors] ("Insert colors layer by layer")
    over the remaining values of the iterator. *)
Fixpoint joinColors_loop_dest (um_dest_km_sz : Z) (its : list Z)
    (new_cs : UnitigColors) (new_um_dest : UnitigMap.t)
    (prev_color_id prev_km_dist : Z) : UnitigColors * UnitigMap.t * Z * Z :=
  match its with
  | [] => (new_cs, new_um_dest, prev_color_id, prev_km_dist)
  | it :: its' =>
      let color_id := it / um_dest_km_sz in
      let km_dist := wrap64 (it - wrap64 (color_id * um_dest_km_sz)) in
      if negb (color_id =? prev_color_id) || negb (km_dist =? wrap64 (prev_km_dist + 1))
      then
        joinColors_loop_dest um_dest_km_sz its'
          (add new_cs new_um_dest color_id)
          (UnitigMap.set_len (UnitigMap.set_dist new_um_dest km_dist) 1)
          color_id km_dist
      else
        joinColors_loop_dest um_dest_km_sz its' new_cs
          (UnitigMap.set_len new_um_dest (wrap64 (UnitigMap.len new_um_dest + 1)))
          color_id km_dist
  end.

(** The second [for] loop, which shifts by [um_dest.size]. *)
Fixpoint joinColors_loop_src (um_src_km_sz um_dest_size : Z) (its : list Z)
    (new_cs : UnitigColors) (new_um_src : UnitigMap.t)
    (prev_color_id prev_km_dist : Z) : UnitigColors * UnitigMap.t * Z * Z :=
  match its with
  | [] => (new_cs, new_um_src, prev_color_id, prev_km_dist)
  | it :: its' =>
      let color_id := it / um_src_km_sz in
      let km_dist := wrap64 (it - wrap64 (color_id * um_src_km_sz)) in
      if negb (color_id =? prev_color_id) || negb (km_dist =? wrap64 (prev_km_dist + 1))
      then
        joinColors_loop_src um_src_km_sz um_dest_size its'
          (add new_cs new_um_src color_id)
          (UnitigMap.set_len
             (UnitigMap.set_dist new_um_src (wrap64 (km_dist + um_dest_size))) 1)
          color_id km_dist
      else
        joinColors_loop_src um_src_km_sz um_dest_size its' new_cs
          (UnitigMap.set_len new_um_src (wrap64 (UnitigMap.len new_um_src + 1)))
          color_id km_dist
  end.

(** [ColoredCDBG::joinColors] *)
Definition joinColors (g : ColoredCDBG) (um_dest um_src : UnitigMap.t)
    : bool * ColoredCDBG :=
  if negb (UnitigMap.isEmpty um_dest) && negb (UnitigMap.isEmpty um_src)
     && bool_decide (color_sets g <> None) then
    match getColorSet g um_dest, getColorSet g um_src with
    | Some color_set_dest, Some color_set_src =>
        let f := {| this := g; csd_rev := UnitigColors_new;
                    css_rev := UnitigColors_new |} in
        let new_cs := UnitigColors_new in
        let prev_color_id := 0xffffffffffffffff in
        let prev_km_dist := 0xffffffffffffffff in
        let um_dest_km_sz := wrap64 (UnitigMap.size um_dest - getK g + 1) in
        let um_src_km_sz := wrap64 (UnitigMap.size um_src - getK g + 1) in
        let new_um_dest :=
          UnitigMap.new (UnitigMap.pos_unitig um_dest) 0 0
            (wrap64 (UnitigMap.size um_dest + UnitigMap.size um_src))
            (UnitigMap.isShort um_dest) (UnitigMap.isAbundant um_dest)
            (UnitigMap.strand um_dest) in
        let '(f, color_set_dest) :=
          if negb (UnitigMap.strand um_dest) then
            (frame_store f addr_csd_rev
               (reverse (frame_load f color_set_dest) (UnitigMap.size um_dest)),
             addr_csd_rev)
          else (f, color_set_dest) in
        let '(new_cs, new_um_dest, prev_color_id, prev_km_dist) :=
          match to_list (frame_load f color_set_dest) with
          | [] => (new_cs, new_um_dest, prev_color_id, prev_km_dist)
          | it :: its =>
              let prev_color_id := it / um_dest_km_sz in
              let prev_km_dist := wrap64 (it - wrap64 (prev_color_id * um_dest_km_sz)) in
              joinColors_loop_dest um_dest_km_sz its new_cs
                (UnitigMap.set_len (UnitigMap.set_dist new_um_dest prev_km_dist) 1)
                prev_color_id prev_km_dist
          end in
        let new_cs :=
          if negb (wrap64 (UnitigMap.dist new_um_dest + UnitigMap.len new_um_dest) =? 0)
          then add new_cs new_um_dest prev_color_id else new_cs in
        let new_um_src :=
          UnitigMap.new (UnitigMap.pos_unitig um_src) 0 0
            (wrap64 (UnitigMap.size um_dest + UnitigMap.size um_src))
            (UnitigMap.isShort um_src) (UnitigMap.isAbundant um_src)
            (UnitigMap.strand um_src) in
        let '(f, color_set_src) :=
          if negb (UnitigMap.strand um_src) then
            (frame_store f addr_css_rev
               (reverse (frame_load f color_set_src) (UnitigMap.size um_src)),
             addr_css_rev)
          else (f, color_set_src) in
        let '(new_cs, new_um_src, prev_color_id, prev_km_dist) :=
          match to_list (frame_load f color_set_src) with
          | [] => (new_cs, new_um_src, prev_color_id, prev_km_dist)
          | it :: its =>
              let prev_color_id := it / um_src_km_sz in
              let prev_km_dist := wrap64 (it - wrap64 (prev_color_id * um_src_km_sz)) in
              joinColors_loop_src um_src_km_sz (UnitigMap.size um_dest) its new_cs
                (UnitigMap.set_len
                   (UnitigMap.set_dist new_um_src
                      (wrap64 (prev_km_dist + UnitigMap.size um_dest))) 1)
                prev_color_id prev_km_dist
          end in
        let new_cs :=
          if negb (wrap64 (UnitigMap.dist new_um_src + UnitigMap.len new_um_src) =? 0)
          then add new_cs new_um_src prev_color_id else new_cs in
        let f := frame_store f color_set_dest new_cs in
        (true, this f)
    | _, _ => (false, g)
    end
  else (false, g).

(** [ColoredCDBG::extractColors].  The iterator pair declared before the
    [for] statement is shadowed by the pair the statement declares, so
    there is one loop. *)
Definition extractColors (g : ColoredCDBG) (um : UnitigMap.t) : UnitigColors :=
  let new_cs := UnitigColors_new in
  if negb (UnitigMap.isEmpty um) && bool_decide (color_sets g <> None) then
    match getColorSet g um with
    | Some cs =>
        let end_ := wrap64 (UnitigMap.dist um + UnitigMap.len um) in
        let um_km_sz := wrap64 (UnitigMap.size um - getK g + 1) in
        let fake_um := UnitigMap.new 0 0 1 (UnitigMap.len um) false false
                         (UnitigMap.strand um) in
        fold_left
          (fun new_cs it =>
             let color_id := it / um_km_sz in
             let km_dist := wrap64 (it - wrap64 (color_id * um_km_sz)) in
             if (UnitigMap.dist um <=? km_dist) && (km_dist <? end_) then
               add new_cs
                 (UnitigMap.set_dist fake_um (wrap64 (km_dist - UnitigMap.dist um)))
                 color_id
             else new_cs)
          (to_list (load g cs)) new_cs
    | None => new_cs
    end
  else new_cs.

(** *** initColorSets *)

(** Modelled from the spec: the unitigs met by [for (auto& unitig : *this)]
    ("for each unitig u iterated in graph order"); [UnitigIterator.hpp] is
    not among the sources.  Every unitig is visited once, the entries of
    [v_unitigs] first, then those of [v_kmers] and of [h_kmers_ccov]. *)
Definition unitigs (g : ColoredCDBG) : list UnitigMap.t :=
  imap (fun i u => UnitigMap.new (Z.of_nat i) 0 (seq_size u - getK g + 1)
                     (seq_size u) false false true) (v_unitigs g)
  ++ imap (fun i u => UnitigMap.new (Z.of_nat i) 0 1 (getK g) true false true)
       (v_kmers g)
  ++ imap (fun i u => UnitigMap.new (Z.of_nat i) 0 1 (getK g) false true true)
       (h_kmers_ccov g).

(** [color_sets[h_v]] *)
Definition color_sets_get (g : ColoredCDBG) (h_v : Z) : UnitigColors :=
  load g (color_sets_at (Z.to_nat h_v)).

(** The inner [for (i = 0; i < max_nb_hash; ++i)] loop, from the value [i];
    [fuel] is the number of rounds left.  It returns [i] and [h_v]. *)
Fixpoint initColorSets_probe (g : ColoredCDBG) (head : Kmer) (fuel : nat)
    (i h_v : Z) : Z * Z :=
  match fuel with
  | O => (i, h_v)
  | S fuel' =>
      let h_v := hash head (seed_at g i) mod nb_color_sets g in
      if isUnoccupied (color_sets_get g h_v) then (i, h_v)
      else initColorSets_probe g head fuel' (i + 1) h_v
  end.

(** Modelled from the spec: [KmerHashTable::insert] ([KmerHashTable.h] is
    not among the sources), the "open hash table" of the overflow entries;
    the entry of a key already there is kept. *)
Definition KmerHashTable_insert (m : gmap Kmer UnitigColors) (km : Kmer)
    (c : UnitigColors) : gmap Kmer UnitigColors :=
  match m !! km with
  | Some _ => m
  | None => <[km := c]> m
  end.

(** The body of the loop over the unitigs. *)
Definition initColorSets_unitig (max_nb_hash : Z) (g : ColoredCDBG)
    (unitig : UnitigMap.t) : ColoredCDBG :=
  let head := getHead g unitig in
  let '(i, h_v) := initColorSets_probe g head (Z.to_nat max_nb_hash) 0 0 in
  let hid := (if i =? max_nb_hash then 0 else i + 1) mod 2 ^ 8 in
  let g := setData g unitig hid in
  if i =? max_nb_hash then
    with_km_overflow g (KmerHashTable_insert (km_overflow g) head UnitigColors_new)
  else
    store g (color_sets_at (Z.to_nat h_v)) (setOccupied (color_sets_get g h_v)).

(** [ColoredCDBG::initColorSets] *)
Definition initColorSets (max_nb_hash : Z) (g : ColoredCDBG) : ColoredCDBG :=
  let n := CompactedDBG_size g in
  let g :=
    {| k_ := k_ g; v_unitigs := v_unitigs g; v_kmers := v_kmers g;
       h_kmers_ccov := h_kmers_ccov g;
       color_sets := Some (replicate (Z.to_nat n) UnitigColors_new);
       nb_color_sets := n; seeds := seeds g; km_overflow := km_overflow g |} in
  fold_left (initColorSets_unitig max_nb_hash) (unitigs g) g.

(** *** mapColors *)

(** [CompactedDBG::find], [UnitigMap::lcp] and the k-mers with their
    positions that a [KmerIterator] yields for a sequence; none of the
    three is among the sources. *)
Variable find : ColoredCDBG -> Kmer -> UnitigMap.t.
Variable lcp : ColoredCDBG -> UnitigMap.t -> string -> Z -> Z -> bool -> Z.
Variable KmerIterator : string -> list (Kmer * Z).

(** One call [setColor(um, file_id)] made while the read [x] is scanned. *)
Record setColor_call : Type := mkCall {
  call_read : string;
  call_um : UnitigMap.t;
  call_color_id : Z
}.

(** The loop over the k-mers of one read [x] in [worker_function];
    [skip] k-mers are passed over first ([it_km += um.len - 1]).  The
    variable [file_id] is captured by reference: the worker reads the value
    it has while the workers run. *)
Fixpoint worker_read (x : string) (file_id : Z) (skip : nat)
    (its : list (Kmer * Z)) (g : ColoredCDBG) (calls : list setColor_call)
    : ColoredCDBG * list setColor_call :=
  match its with
  | [] => (g, calls)
  | it_km :: its' =>
      match skip with
      | S skip' => worker_read x file_id skip' its' g calls
      | O =>
          let um := find g (fst it_km) in
          if negb (UnitigMap.isEmpty um) then
            let '(um, skip') :=
              if UnitigMap.strand um || negb (UnitigMap.dist um =? 0) then
                let um' :=
                  UnitigMap.set_len um
                    (wrap64 (UnitigMap.len um +
                             lcp g um x (snd it_km + getK g)
                               (if UnitigMap.strand um
                                then UnitigMap.dist um + getK g
                                else UnitigMap.dist um - 1)
                               (UnitigMap.strand um))) in
                (um', Z.to_nat (wrap64 (UnitigMap.len um' - 1)))
              else (um, O) in
            let g := snd (setColor g um file_id) in
            worker_read x file_id skip' its' g (calls ++ [mkCall x um file_id])
          else worker_read x file_id O its' g calls
      end
  end.

(** [worker_function(a, b)] on the reads between [a] and [b]. *)
Definition worker_function (file_id : Z) (reads : list string)
    (g : ColoredCDBG) (calls : list setColor_call)
    : ColoredCDBG * list setColor_call :=
  fold_left
    (fun st x => worker_read x file_id O (KmerIterator x) (fst st) (snd st))
    reads (g, calls).

(** The inner [while (reads_now < opt.read_chunksize)] loop.
    Modelled from the spec: [FastqFile::read_next] ([fastq.hpp] is not among
    the sources) hands out the input sequences in file order, each with "its
    source file id"; the stream [FQ] is the list of the sequences still to be
    read, each with the index of its file, which [read_next] stores in
    [file_id]. *)
Fixpoint read_chunk (n : nat) (FQ : list (string * Z)) (readv : list string)
    (file_id : Z) : list (string * Z) * list string * Z * bool :=
  match n with
  | O => (FQ, readv, file_id, false)
  | S n' =>
      match FQ with
      | (s, id) :: FQ' => read_chunk n' FQ' (readv ++ [s]) id
      | [] => (FQ, readv, file_id, true)
      end
  end.

(** The loop that hands [readv] to the threads.  The threads work on
    disjoint parts of [readv]; the model runs them one after the other. *)
Fixpoint run_workers (threads : nat) (i batch_size leftover : Z)
    (rit : list string) (file_id : Z) (g : ColoredCDBG)
    (calls : list setColor_call) : ColoredCDBG * list setColor_call :=
  match threads with
  | O => (g, calls)
  | S threads' =>
      let jump := Z.to_nat (batch_size + (if i <? leftover then 1 else 0)) in
      let '(g, calls) := worker_function file_id (take jump rit) g calls in
      run_workers threads' (i + 1) batch_size leftover (drop jump rit) file_id g calls
  end.

(** The outer [while (!done)] loop of [ColoredCDBG::mapColors], at most
    [fuel] rounds; [None] when the rounds do not suffice. *)
Fixpoint mapColors_loop (fuel : nat) (read_chunksize nb_threads : Z)
    (FQ : list (string * Z)) (file_id : Z) (g : ColoredCDBG)
    (calls : list setColor_call) : option (ColoredCDBG * list setColor_call) :=
  match fuel with
  | O => None
  | S fuel' =>
      let '(FQ, readv, file_id, done) :=
        read_chunk (Z.to_nat read_chunksize) FQ [] file_id in
      let n := Z.of_nat (length readv) in
      let '(g, calls) :=
        run_workers (Z.to_nat nb_threads) 0 (n / nb_threads) (n mod nb_threads)
          readv file_id g calls in
      if done then Some (g, calls)
      else mapColors_loop fuel' read_chunksize nb_threads FQ file_id g calls
  end.

(** [ColoredCDBG::mapColors]: the graph after the mapping and the calls of
    [setColor] in the order the model makes them.  Each round but the last
    reads [read_chunksize] sequences. *)
Definition mapColors (read_chunksize nb_threads : Z) (FQ : list (string * Z))
    (g : ColoredCDBG) : option (ColoredCDBG * list setColor_call) :=
  mapColors_loop (S (length FQ)) read_chunksize nb_threads FQ 0 g [].

(** The default argument of [initColorSets] in [ColoredCDBG.hpp]. *)
Definition default_max_nb_hash : Z := 31.

(** [ColoredCDBG::build] from the graph [g] that [CompactedDBG::build],
    which is not among the sources, has made: [initColorSets()] with its
    default argument, then [mapColors], then [return true]. *)
Definition build (read_chunksize nb_threads : Z) (FQ : list (string * Z))
    (g : ColoredCDBG) : option (bool * ColoredCDBG * list setColor_call) :=
  match mapColors read_chunksize nb_threads FQ
          (initColorSets default_max_nb_hash g) with
  | Some (g', calls) => Some (true, g', calls)
  | None => None
  end.

End ColoredCDBG_methods.

(** ** Concrete graphs and mappings used by the examples below *)

Module Examples.

(** A stand-in for [Kmer::hash]: the seed itself. *)
Definition hash_seed (km : Kmer) (seed : Z) : Z := seed.

(** Scenario "join" of the specification: a destination unitig with 4
    k-mers that has colour 0 on all of them, and a source unitig with 3
    k-mers that has colour 1 on all of them; [k] is the k-mer length. *)
Definition join_graph (k : Z) : ColoredCDBG :=
  {| k_ := k;
     v_unitigs := [ {| head_kmer := "ACGTA"; seq_size := k + 3; data := 1 |};
                    {| head_kmer := "CCGTA"; seq_size := k + 2; data := 2 |} ];
     v_kmers := []; h_kmers_ccov := [];
     color_sets := Some [ {| setBits := 0x3d; bitmap := [] |};
                          {| setBits := 0xe1; bitmap := [] |} ];
     nb_color_sets := 2; seeds := [0; 1]; km_overflow := ∅ |}.

Definition join_dest (k : Z) (strand : bool) : UnitigMap.t :=
  UnitigMap.new 0 0 4 (k + 3) false false strand.

Definition join_src (k : Z) (strand : bool) : UnitigMap.t :=
  UnitigMap.new 1 0 3 (k + 2) false false strand.

(** As [join_graph], but the destination has colours 0 and 1 on all of
    its 4 k-mers. *)
Definition join_graph2 (k : Z) : ColoredCDBG :=
  with_color_sets (join_graph k)
    (Some [ {| setBits := 0x3fd; bitmap := [] |};
            {| setBits := 0xe1; bitmap := [] |} ]).

(** Scenarios 1 and 3 of the specification: one unitig with 4 k-mers,
    colour 0 on positions 0..3 and colour 1 on positions 2 and 3, that is
    the ids 0, 1, 2, 3, 6, 7; the mapping extracts 2 k-mers from
    position 1. *)
Definition extract_graph (k : Z) : ColoredCDBG :=
  {| k_ := k;
     v_unitigs := [ {| head_kmer := "ACGTA"; seq_size := k + 3; data := 1 |} ];
     v_kmers := []; h_kmers_ccov := [];
     color_sets := Some [ {| setBits := 0x33d; bitmap := [] |} ];
     nb_color_sets := 1; seeds := [0]; km_overflow := ∅ |}.

Definition extract_um (k : Z) : UnitigMap.t :=
  UnitigMap.new 0 1 2 (k + 3) false false true.

(** A graph whose colour-set array is not allocated, with one unitig whose
    data byte is 1. *)
Definition unallocated_graph : ColoredCDBG :=
  {| k_ := 5;
     v_unitigs := [ {| head_kmer := "ACGTA"; seq_size := 5; data := 1 |} ];
     v_kmers := []; h_kmers_ccov := [];
     color_sets := None; nb_color_sets := 0; seeds := [0]; km_overflow := ∅ |}.

Definition first_unitig : UnitigMap.t := UnitigMap.new 0 0 1 5 false false true.

(** Two input files of one sequence each, both sequences being unitigs of
    the graph (k = 5). *)
Definition two_kmers_graph : ColoredCDBG :=
  {| k_ := 5;
     v_unitigs := [ {| head_kmer := "ACGTA"; seq_size := 5; data := 1 |};
                    {| head_kmer := "CCGTA"; seq_size := 5; data := 2 |} ];
     v_kmers := []; h_kmers_ccov := [];
     color_sets := Some [ {| setBits := 0x1; bitmap := [] |};
                          {| setBits := 0x1; bitmap := [] |} ];
     nb_color_sets := 2; seeds := [0; 1]; km_overflow := ∅ |}.

Definition two_files : list (string * Z) := [("ACGTA", 0); ("CCGTA", 1)].

Definition find_head (g : ColoredCDBG) (km : Kmer) : UnitigMap.t :=
  if bool_decide (km = "ACGTA") then UnitigMap.new 0 0 1 5 false false true
  else if bool_decide (km = "CCGTA") then UnitigMap.new 1 0 1 5 false false true
  else UnitigMap.empty 1.

Definition lcp_none (g : ColoredCDBG) (um : UnitigMap.t) (s : string)
    (pos_s pos_um : Z) (strand : bool) : Z := 0.

Definition one_kmer (s : string) : list (Kmer * Z) := [(s, 0)].

(** A graph of three unitigs before [initColorSets]. *)
Definition three_unitigs : ColoredCDBG :=
  {| k_ := 5;
     v_unitigs := [ {| head_kmer := "ACGTA"; seq_size := 8; data := 0 |} ];
     v_kmers := [ {| head_kmer := "CCGTA"; seq_size := 5; data := 0 |} ];
     h_kmers_ccov := [ {| head_kmer := "GGGTA"; seq_size := 5; data := 0 |} ];
     color_sets := None; nb_color_sets := 0; seeds := [0; 0; 1];
     km_overflow := ∅ |}.

(** A graph of two unitigs of one k-mer each as [CompactedDBG::build]
    leaves it, with its 256 seeds; [find_head] maps the two k-mers to
    them. *)
Definition two_unitigs : ColoredCDBG :=
  {| k_ := 5;
     v_unitigs := [ {| head_kmer := "ACGTA"; seq_size := 5; data := 0 |};
                    {| head_kmer := "CCGTA"; seq_size := 5; data := 0 |} ];
     v_kmers := []; h_kmers_ccov := [];
     color_sets := None; nb_color_sets := 0;
     seeds := map Z.of_nat (seq 0 256); km_overflow := ∅ |}.

End Examples.

(** The reading of claim C6 as it is worded: for a mapping that is not
    empty the result is the overflow entry when the byte is 0 and the array
    slot otherwise. *)
Definition getColorSet_as_claimed (hash : Kmer -> Z -> Z) (g : ColoredCDBG)
    (um : UnitigMap.t) : Prop :=
  UnitigMap.isEmpty um = false ->
  getColorSet hash g um =
    if getData g um =? 0 then
      match km_overflow g !! getHead g um with
      | Some _ => Some (km_overflow_at (getHead g um))
      | None => None
      end
    else
      Some (color_sets_at
              (Z.to_nat (hash (getHead g um) (seed_at g (getData g um - 1))
                         mod nb_color_sets g))).

(** A UnitigColors is well formed when its word fits 64 bits and, in the
    Bitmap state, its bitmap is one a [Roaring] object can hold. *)
Definition wf_UnitigColors (c : UnitigColors) : Prop :=
  0 <= setBits c < 2 ^ 64 /\
  (Z.land (setBits c) flagMask = ptrCompressedBitmap -> Roaring.wf (bitmap c)).

(** The id [x] is stored in [c]: a member of the bitmap, a set bit of the
    bit vector, or the single id. *)
Definition contains_id (c : UnitigColors) (x : Z) : Prop :=
  let flag := Z.land (setBits c) flagMask in
  if flag =? ptrCompressedBitmap then In x (bitmap c)
  else if flag =? localBitVectorColor then
    0 <= x < maxBitVectorIDs /\ Z.testbit (setBits c) (x + 2) = true
  else if flag =? localSingleColor then x = Z.shiftr (setBits c) 2
  else False.

(** The iterator of a bit vector that stands at the first id of [l], or at
    the end when [l] is empty. *)
Definition bv_cursor (c : UnitigColors) (l : list Z) (ck : Z) : const_iterator :=
  match l with
  | [] => mkIter c localBitVectorColor 62 62 ck 0%nat
  | q :: _ => mkIter c localBitVectorColor q 62 q 0%nat
  end.

(** The container and the index a mapping designates. *)
Definition um_kind (um : UnitigMap.t) : nat :=
  if UnitigMap.isShort um then 1%nat else if UnitigMap.isAbundant um then 2%nat else 0%nat.

Definition um_index (um : UnitigMap.t) : nat := Z.to_nat (UnitigMap.pos_unitig um).

Definition slot_of (hash : Kmer -> Z -> Z) (g : ColoredCDBG) (um : UnitigMap.t) : nat :=
  Z.to_nat (hash (getHead g um) (seed_at g (getData g um - 1)) mod nb_color_sets g).

(** What [initColorSets] leaves alone in the graph. *)
Definition shape (g : ColoredCDBG) :=
  (k_ g, seeds g, nb_color_sets g,
   map (fun u => (head_kmer u, seq_size u)) (v_unitigs g),
   map (fun u => (head_kmer u, seq_size u)) (v_kmers g),
   map (fun u => (head_kmer u, seq_size u)) (h_kmers_ccov g)).

(** The state of [initColorSets] after [done] unitigs of [ums]. *)
Definition init_inv (hash : Kmer -> Z -> Z) (H : Z) (g1 : ColoredCDBG) (ums : list UnitigMap.t)
    (g : ColoredCDBG) (done : nat) : Prop :=
  shape g = shape g1 /\
  (exists a, color_sets g = Some a /\ length a = length ums) /\
  (forall i um, (i < done)%nat -> ums !! i = Some um -> getData g um <> 0 ->
     1 <= getData g um <= H /\
     isOccupied (load g (color_sets_at (slot_of hash g um))) = true) /\
  (forall i j u v, (i < done)%nat -> (j < done)%nat ->
     ums !! i = Some u -> ums !! j = Some v ->
     getData g u <> 0 -> getData g v <> 0 ->
     slot_of hash g u = slot_of hash g v -> i = j) /\
  (forall km, is_Some (km_overflow g !! km) <->
     exists i um, (i < done)%nat /\ ums !! i = Some um /\
                  getData g um = 0 /\ getHead g um = km).

(** A UnitigColors in the Bitmap state. *)
Definition bitmap_example : UnitigColors :=
  {| setBits := 0x55d0c0; bitmap := [0; 62; 1000] |}.

(** Every id stored in [c] fits the 32 bits of a [Roaring] member. *)
Definition ids_small (c : UnitigColors) : Prop :=
  forall y, contains_id c y -> 0 <= y < 2 ^ 32.

(** ** Definitions for the further properties *)

#[global] Instance ColorSetPtr_eq_dec : EqDecision ColorSetPtr.
Proof. solve_decision. Defined.

(** [operator==] on an iterator over the container at the address [pa] and
    one over the container at [pb]: [cs == o.cs] compares the two
    addresses, whatever the containers hold. *)
Definition iter_eqb_at (pa : ColorSetPtr) (a : const_iterator)
    (pb : ColorSetPtr) (b : const_iterator) : bool :=
  bool_decide (pa = pb) && (flag a =? flag b) && (cs_sz a =? cs_sz b) &&
  (if flag a =? ptrCompressedBitmap then Roaring.iter_eqb (it_roar a) (it_roar b)
   else it_setBits a =? it_setBits b).

(** [operator!=] *)
Definition iter_neb_at (pa : ColorSetPtr) (a : const_iterator)
    (pb : ColorSetPtr) (b : const_iterator) : bool :=
  negb (iter_eqb_at pa a pb b).

(** [releasePointer] followed by [setBits = unoccupied]: the bitmap, if any,
    is deleted. *)
Definition setUnoccupied (c : UnitigColors) : UnitigColors :=
  {| setBits := unoccupied; bitmap := [] |}.

(** The values [initColorSets] leaves in the storage: array slots are
    unoccupied or empty bit vectors, overflow entries are unoccupied. *)
Definition init_values (g : ColoredCDBG) : Prop :=
  (forall a, color_sets g = Some a ->
     Forall (fun c => c = UnitigColors_new \/
                      c = {| setBits := localBitVectorColor; bitmap := [] |}) a) /\
  (forall km c, km_overflow g !! km = Some c -> c = UnitigColors_new).

(** The number of reads handed to the threads [i], [i + 1], ... by the loop
    of [run_workers]. *)
Fixpoint jumps (threads : nat) (i batch_size leftover : Z) : nat :=
  match threads with
  | O => O
  | S threads' =>
      Nat.add (Z.to_nat (batch_size + (if i <? leftover then 1 else 0)))
              (jumps threads' (i + 1) batch_size leftover)
  end.

(** The ranges from [rit] to [rit_end] that the loop over the threads of
    [mapColors] hands to the workers, thread by thread: [advance] moves
    [rit_end] by [jump] reads. *)
Fixpoint batches (threads : nat) (i batch_size leftover : Z) (rit : list string)
    : list (list string) :=
  match threads with
  | O => []
  | S threads' =>
      let jump := Z.to_nat (batch_size + (if i <? leftover then 1 else 0)) in
      take jump rit :: batches threads' (i + 1) batch_size leftover (drop jump rit)
  end.

(** The mapping [um] designates a unitig of [g]: it is not empty and its
    index lies inside the container that [isShort] and [isAbundant]
    select. *)
Definition designates (g : ColoredCDBG) (um : UnitigMap.t) : Prop :=
  UnitigMap.isEmpty um = false /\ is_Some (unitig_at g um).

(** The graph [g'] resolves every mapping as [g] does. *)
Definition same_lookup (hash : Kmer -> Z -> Z) (g g' : ColoredCDBG) : Prop :=
  (forall u, getColorSet hash g' u = getColorSet hash g u) /\
  (forall u, getData g' u = getData g u) /\
  (forall u, getHead g' u = getHead g u) /\
  nb_color_sets g' = nb_color_sets g /\
  length <$> color_sets g' = length <$> color_sets g.

(** The slot that the hash function number [j] gives to the k-mer [head]. *)
Definition candidate_slot (hash : Kmer -> Z -> Z) (g : ColoredCDBG) (head : Kmer)
    (j : Z) : nat :=
  Z.to_nat (hash head (seed_at g j) mod nb_color_sets g).

(** The number of hash functions that were tried in vain for a unitig whose
    byte is [a]: all of them when it went to the overflow table. *)
Definition failed_probes (max_nb_hash a : Z) : Z :=
  if a =? 0 then max_nb_hash else a - 1.

(** After [done] unitigs, the slots tried in vain for them are occupied. *)
Definition probes_inv (hash : Kmer -> Z -> Z) (H : Z) (ums : list UnitigMap.t)
    (g : ColoredCDBG) (done : nat) : Prop :=
  forall i um j, (i < done)%nat -> ums !! i = Some um ->
    0 <= j < failed_probes H (getData g um) ->
    isOccupied (load g (color_sets_at (candidate_slot hash g (getHead g um) j))) = true.


(** * Properties *)

(** ** The iterator, state by state *)

Lemma land_flagMask w : 0 <= w -> Z.land w flagMask = w mod 4.
Proof. intros H. exact (Z.land_ones w 2 ltac:(lia)). Qed.

Lemma flag_cases w : 0 <= w ->
  Z.land w flagMask = 0 \/ Z.land w flagMask = 1 \/ Z.land w flagMask = 2 \/ Z.land w flagMask = 3.
Proof.
  intros H. rewrite land_flagMask by assumption.
  pose proof (Z.mod_pos_bound w 4 ltac:(lia)). lia.
Qed.

Lemma UnitigColors_eqb_refl c : UnitigColors_eqb c c = true.
Proof. unfold UnitigColors_eqb. rewrite Z.eqb_refl, bool_decide_eq_true_2; reflexivity. Qed.

Lemma iter_eqb_same c f i1 i2 sz ck1 ck2 r1 r2 :
  iter_eqb (mkIter c f i1 sz ck1 r1) (mkIter c f i2 sz ck2 r2)
  = if f =? ptrCompressedBitmap then Nat.eqb r1 r2 else i1 =? i2.
Proof.
  unfold iter_eqb. cbn [cs flag cs_sz it_roar it_setBits].
  rewrite UnitigColors_eqb_refl, !Z.eqb_refl. reflexivity.
Qed.

Lemma colors_single w bm :
  Z.land w flagMask = localSingleColor ->
  colors {| setBits := w; bitmap := bm |} = Some [Z.shiftr w 2].
Proof.
  intros Hf. unfold colors, begin, end_, const_iterator_new. cbn [setBits bitmap].
  rewrite Hf. cbn -[Z.shiftr Z.land iter_eqb].
  change (Z.to_nat 1) with 1%nat. change (wrap64 (18446744073709551615 + 1)) with 0.
  cbn [iterate].
  rewrite iter_eqb_same. cbn -[Z.shiftr Z.land iter_eqb].
  rewrite iter_eqb_same. reflexivity.
Qed.

Lemma set_bits_cons w p n q rest :
  set_bits w p n = q :: rest ->
  exists q' : nat, q = Z.of_nat q' /\ (p <= q' < p + n)%nat /\
    Z.testbit w (q + 2) = true /\ rest = set_bits w (S q') (p + n - S q').
Proof.
  revert p. induction n as [|n IH]; intros p; unfold set_bits; cbn [seq map List.filter].
  - discriminate.
  - destruct (Z.testbit w (Z.of_nat p + 2)) eqn:E.
    + intros [= <- <-]. exists p. repeat split; try lia; try assumption.
      replace (p + S n - S p)%nat with n by lia. reflexivity.
    + intros H. destruct (IH (S p) H) as (q' & -> & Hr & Hb & ->).
      exists q'. repeat split; try lia; try assumption.
      replace (S p + n - S q')%nat with (p + S n - S q')%nat by lia. reflexivity.
Qed.

Lemma test_bit w i : 0 <= i ->
  negb (Z.land (Z.shiftr w (i + 2)) 1 =? 0) = Z.testbit w (i + 2).
Proof.
  intros Hi. rewrite Z.testbit_odd. change 1 with (Z.ones 1).
  rewrite Z.land_ones by lia. change (2 ^ 1) with 2.
  rewrite Zodd_mod. destruct (Z.eqb_spec (Z.shiftr w (i+2) mod 2) 0) as [E|E];
  destruct (Z.eqb_spec (Z.shiftr w (i+2) mod 2) 1) as [E'|E']; try reflexivity; try lia.
  pose proof (Z.mod_pos_bound (Z.shiftr w (i+2)) 2 ltac:(lia)). lia.
Qed.

Lemma scan_setBits_spec w ck fuel : forall p : nat,
  (p <= 62)%nat -> (62 - p <= fuel)%nat ->
  scan_setBits fuel w (Z.of_nat p) ck =
    match set_bits w p (62 - p) with
    | [] => (62, ck)
    | q :: _ => (q, q)
    end.
Proof.
  induction fuel as [|fuel IH]; intros p Hp Hf.
  - assert (p = 62%nat) as -> by lia. reflexivity.
  - cbn [scan_setBits]. unfold maxBitVectorIDs.
    destruct (Z.ltb_spec (Z.of_nat p) 62) as [Hlt|Hge].
    + rewrite test_bit by lia.
      replace (62 - p)%nat with (S (62 - S p)) by lia.
      unfold set_bits. cbn [seq map List.filter]. fold (set_bits w (S p) (62 - S p)).
      destruct (Z.testbit w (Z.of_nat p + 2)); [reflexivity|].
      replace (wrap64 (Z.of_nat p + 1)) with (Z.of_nat (S p)).
      * apply IH; lia.
      * unfold wrap64. rewrite Z.mod_small; lia.
    + assert (p = 62%nat) as -> by lia. reflexivity.
Qed.

Lemma incr_bitvec c (p : nat) ck :
  (p < 62)%nat ->
  incr (mkIter c localBitVectorColor (Z.of_nat p) 62 ck 0%nat)
  = bv_cursor c (set_bits (setBits c) (S p) (62 - S p)) ck.
Proof.
  intros Hp. unfold incr. cbn [it_setBits cs_sz flag cs ck_id it_roar].
  destruct (Z.eqb_spec (Z.of_nat p) 62) as [E|_]; [lia|].
  change (localBitVectorColor =? ptrCompressedBitmap) with false.
  change (localBitVectorColor =? localBitVectorColor) with true. cbv iota.
  replace (wrap64 (Z.of_nat p + 1)) with (Z.of_nat (S p))
    by (unfold wrap64; rewrite Z.mod_small; lia).
  rewrite scan_setBits_spec by lia.
  destruct (set_bits (setBits c) (S p) (62 - S p)); reflexivity.
Qed.

Lemma iterate_bitvec c ck0 : forall l (p : nat) ck fuel,
  (p <= 62)%nat -> set_bits (setBits c) p (62 - p) = l ->
  (length l <= fuel)%nat ->
  iterate fuel (bv_cursor c l ck) (mkIter c localBitVectorColor 62 62 ck0 0%nat) = Some l.
Proof.
  induction l as [|q rest IH]; intros p ck fuel Hp Hl Hfuel.
  - cbn [bv_cursor]. destruct fuel; cbn [iterate]; rewrite iter_eqb_same; reflexivity.
  - destruct (set_bits_cons _ _ _ _ _ Hl) as (q' & -> & Hq & Hb & Hrest).
    cbn [bv_cursor]. destruct fuel as [|fuel]; [cbn in Hfuel; lia|].
    cbn [iterate]. rewrite iter_eqb_same.
    change (localBitVectorColor =? ptrCompressedBitmap) with false. cbv iota.
    destruct (Z.eqb_spec (Z.of_nat q') 62) as [E|_]; [lia|].
    rewrite incr_bitvec by lia. cbn [ck_id].
    replace (p + (62 - p) - S q')%nat with (62 - S q')%nat in Hrest by lia.
    rewrite <- Hrest.
    rewrite (IH (S q') (Z.of_nat q') fuel); [reflexivity | lia | congruence | cbn in Hfuel; lia].
Qed.

Lemma set_bits_length w p n : (length (set_bits w p n) <= n)%nat.
Proof.
  unfold set_bits.
  etransitivity; [apply List.filter_length_le|]. rewrite length_map, length_seq. lia.
Qed.

Lemma colors_bitvec w bm :
  Z.land w flagMask = localBitVectorColor ->
  colors {| setBits := w; bitmap := bm |} = Some (set_bits w 0 62).
Proof.
  intros Hf. unfold colors, begin, end_, const_iterator_new. cbn [setBits bitmap].
  rewrite Hf.
  change (localBitVectorColor =? ptrCompressedBitmap) with false.
  change (localBitVectorColor =? localSingleColor) with false. cbv iota.
  cbn [cs_sz]. unfold incr. cbn [it_setBits cs_sz flag cs ck_id it_roar setBits].
  change (18446744073709551615 =? maxBitVectorIDs) with false.
  change (localBitVectorColor =? ptrCompressedBitmap) with false.
  change (localBitVectorColor =? localBitVectorColor) with true. cbv iota.
  change (wrap64 (18446744073709551615 + 1)) with (Z.of_nat 0).
  rewrite scan_setBits_spec by lia.
  change (62 - 0)%nat with 62%nat. change (Z.to_nat maxBitVectorIDs) with 62%nat.
  change maxBitVectorIDs with 62.
  pose proof (iterate_bitvec {| setBits := w; bitmap := bm |} 0 (set_bits w 0 62) 0 0 62
               ltac:(lia) eq_refl (set_bits_length _ _ _)) as H.
  destruct (set_bits w 0 62); exact H.
Qed.

Lemma incr_bitmap c (j : nat) ck :
  (j < length (bitmap c))%nat -> Z.of_nat (length (bitmap c)) < 2 ^ 64 ->
  incr (mkIter c ptrCompressedBitmap (Z.of_nat j) (Z.of_nat (length (bitmap c))) ck j)
  = mkIter c ptrCompressedBitmap (Z.of_nat (S j)) (Z.of_nat (length (bitmap c)))
      (if Nat.eqb (S j) (length (bitmap c)) then ck else nth (S j) (bitmap c) 0) (S j).
Proof.
  intros Hj Hlen. unfold incr. cbn [it_setBits cs_sz flag cs ck_id it_roar].
  destruct (Z.eqb_spec (Z.of_nat j) (Z.of_nat (length (bitmap c)))) as [E|_]; [lia|].
  change (ptrCompressedBitmap =? ptrCompressedBitmap) with true. cbv iota.
  replace (wrap64 (Z.of_nat j + 1)) with (Z.of_nat (S j))
    by (unfold wrap64; rewrite Z.mod_small; lia).
  destruct (Z.eqb_spec (Z.of_nat (S j)) 0) as [E|_]; [lia|]. cbn [negb].
  unfold Roaring.next, Roaring.iter_eqb, Roaring.end_, Roaring.deref, getConstPtrBitmap.
  destruct (Nat.eqb (S j) (length (bitmap c))); reflexivity.
Qed.

Lemma iterate_bitmap c ck0 : Z.of_nat (length (bitmap c)) < 2 ^ 64 ->
  forall l (j : nat) ck fuel,
  (j <= length (bitmap c))%nat -> drop j (bitmap c) = l ->
  ((j < length (bitmap c))%nat -> ck = nth j (bitmap c) 0) ->
  (length l <= fuel)%nat ->
  iterate fuel
    (mkIter c ptrCompressedBitmap (Z.of_nat j) (Z.of_nat (length (bitmap c))) ck j)
    (mkIter c ptrCompressedBitmap (Z.of_nat (length (bitmap c)))
       (Z.of_nat (length (bitmap c))) ck0 (length (bitmap c)))
  = Some l.
Proof.
  intros Hlen. induction l as [|x rest IH]; intros j ck fuel Hj Hl Hck Hfuel.
  - assert (j = length (bitmap c)) as ->.
    { apply (f_equal length) in Hl. rewrite length_drop in Hl. cbn in Hl. lia. }
    destruct fuel; cbn [iterate]; rewrite iter_eqb_same;
      change (ptrCompressedBitmap =? ptrCompressedBitmap) with true; cbv iota;
      rewrite Nat.eqb_refl; reflexivity.
  - assert (Hlt : (j < length (bitmap c))%nat).
    { apply (f_equal length) in Hl. rewrite length_drop in Hl. cbn in Hl. lia. }
    destruct fuel as [|fuel]; [cbn in Hfuel; lia|].
    cbn [iterate]. rewrite iter_eqb_same.
    change (ptrCompressedBitmap =? ptrCompressedBitmap) with true. cbv iota.
    destruct (Nat.eqb_spec j (length (bitmap c))) as [E|_]; [lia|].
    rewrite incr_bitmap by assumption. cbn [ck_id].
    assert (Hx : nth j (bitmap c) 0 = x /\ drop (S j) (bitmap c) = rest).
    { assert (Hlk : bitmap c !! j = Some x).
      { pose proof (lookup_drop (bitmap c) j 0) as H. rewrite Hl in H.
        rewrite Nat.add_0_r in H. symmetry. exact H. }
      split.
      - apply nth_lookup_Some. exact Hlk.
      - pose proof (drop_S _ _ _ Hlk) as H. rewrite Hl in H. congruence. }
    destruct Hx as [Hx Hrest].
    rewrite (IH (S j) _ fuel); [rewrite Hck, Hx by lia; reflexivity | lia | assumption | | cbn in Hfuel; lia].
    intros HS. destruct (Nat.eqb_spec (S j) (length (bitmap c))); [lia|reflexivity].
Qed.

Lemma sorted_range_length (l : list Z) : forall lo hi,
  StronglySorted Z.lt l -> Forall (fun x => lo <= x < hi) l ->
  Z.of_nat (length l) <= Z.max 0 (hi - lo).
Proof.
  induction l as [|a l IH]; intros lo hi Hs Hr; [cbn; lia|].
  apply StronglySorted_inv in Hs as [Hs Ha].
  apply Forall_cons in Hr as [Hlo Hr].
  assert (Hr' : Forall (fun x => a + 1 <= x < hi) l).
  { rewrite List.Forall_forall in *. intros x Hx. specialize (Ha x Hx). specialize (Hr x Hx). lia. }
  specialize (IH (a + 1) hi Hs Hr'). cbn [length]. lia.
Qed.

Lemma Roaring_wf_length r : Roaring.wf r -> Z.of_nat (length r) <= 2 ^ 32.
Proof.
  intros [Hs Hr]. pose proof (sorted_range_length r 0 (2 ^ 32) Hs Hr). lia.
Qed.

Lemma colors_bitmap w bm :
  Z.land w flagMask = ptrCompressedBitmap -> Z.of_nat (length bm) < 2 ^ 64 - 1 ->
  colors {| setBits := w; bitmap := bm |} = Some bm.
Proof.
  intros Hf Hlen.
  unfold colors, begin, end_, const_iterator_new, UnitigColors_size. cbn [setBits bitmap].
  rewrite Hf.
  change (ptrCompressedBitmap =? ptrCompressedBitmap) with true. cbv iota.
  cbn [cs_sz]. unfold getConstPtrBitmap, Roaring.cardinality, Roaring.begin, Roaring.end_.
  cbn [bitmap]. rewrite Nat2Z.id.
  unfold incr. cbn [it_setBits cs_sz flag cs ck_id it_roar setBits].
  destruct (Z.eqb_spec 18446744073709551615 (Z.of_nat (length bm))) as [E|_]; [lia|].
  change (ptrCompressedBitmap =? ptrCompressedBitmap) with true. cbv iota.
  change (wrap64 (18446744073709551615 + 1)) with 0.
  change (negb (0 =? 0)) with false. cbv iota.
  unfold getConstPtrBitmap, Roaring.iter_eqb, Roaring.end_, Roaring.deref. cbn [bitmap].
  apply (iterate_bitmap {| setBits := w; bitmap := bm |} 0 ltac:(cbn [bitmap]; lia)
           bm 0%nat _ (length bm)); cbn [bitmap]; try lia; try reflexivity.
  intros H0. destruct (Nat.eqb_spec 0 (length bm)); [lia|reflexivity].
Qed.

Lemma sorted_same_members (l1 : list Z) : forall l2,
  StronglySorted Z.lt l1 -> StronglySorted Z.lt l2 ->
  (forall x, In x l1 <-> In x l2) -> l1 = l2.
Proof.
  induction l1 as [|a l1 IH]; intros l2 H1 H2 Hm.
  - destruct l2 as [|b l2]; [reflexivity|]. exfalso. apply (Hm b). left; reflexivity.
  - destruct l2 as [|b l2]; [exfalso; apply (Hm a); left; reflexivity|].
    apply StronglySorted_inv in H1 as [H1 Ha]. apply StronglySorted_inv in H2 as [H2 Hb].
    rewrite List.Forall_forall in Ha, Hb.
    assert (a = b) as <-.
    { destruct (proj1 (Hm a) (or_introl eq_refl)) as [E|Hin]; [congruence|].
      destruct (proj2 (Hm b) (or_introl eq_refl)) as [E|Hin']; [congruence|].
      specialize (Ha _ Hin'). specialize (Hb _ Hin). lia. }
    f_equal. apply IH; try assumption.
    intros x. split; intros Hx.
    + destruct (proj1 (Hm x) (or_intror Hx)) as [E|Hin]; [|assumption].
      specialize (Ha _ Hx). lia.
    + destruct (proj2 (Hm x) (or_intror Hx)) as [E|Hin]; [|assumption].
      specialize (Hb _ Hx). lia.
Qed.

Lemma set_bits_sorted w p n : StronglySorted Z.lt (set_bits w p n).
Proof.
  revert p. induction n as [|n IH]; intros p; unfold set_bits; cbn [seq map List.filter].
  - constructor.
  - fold (set_bits w (S p) n). destruct (Z.testbit w (Z.of_nat p + 2)); [|apply IH].
    constructor; [apply IH|]. apply List.Forall_forall. intros x Hx.
    unfold set_bits in Hx. apply filter_In in Hx as [Hx _].
    apply in_map_iff in Hx as (y & <- & Hy). apply in_seq in Hy. lia.
Qed.

Lemma set_bits_In w x :
  In x (set_bits w 0 62) <-> 0 <= x < 62 /\ Z.testbit w (x + 2) = true.
Proof.
  unfold set_bits. rewrite filter_In, in_map_iff. split.
  - intros [(y & <- & Hy) Hb]. apply in_seq in Hy. split; [lia|assumption].
  - intros [Hx Hb]. split; [|assumption]. exists (Z.to_nat x). split; [lia|].
    apply in_seq. lia.
Qed.

Lemma colors_occupied c :
  wf_UnitigColors c -> isOccupied c = true ->
  exists l, colors c = Some l /\ StronglySorted Z.lt l /\
            (forall x, In x l <-> contains_id c x).
Proof.
  destruct c as [w bm]. intros [Hw Hbm] Hocc. cbn [setBits bitmap] in *.
  unfold isOccupied in Hocc. cbn [setBits] in Hocc. unfold contains_id. cbn [setBits bitmap].
  destruct (flag_cases w ltac:(lia)) as [Hf | [Hf | [Hf | Hf]]].
  - exists bm. pose proof (Roaring_wf_length bm (Hbm Hf)) as Hlen.
    rewrite colors_bitmap by (auto; lia). rewrite Hf.
    split; [reflexivity|]. split; [apply Hbm; exact Hf|]. reflexivity.
  - exists (set_bits w 0 62). rewrite colors_bitvec by assumption. rewrite Hf.
    split; [reflexivity|]. split; [apply set_bits_sorted|]. apply set_bits_In.
  - exists [Z.shiftr w 2]. rewrite colors_single by assumption. rewrite Hf.
    split; [reflexivity|]. split; [repeat constructor|].
    intros x. cbn. split; [intros [E|[]]; congruence | intros ->; left; reflexivity].
  - rewrite Hf in Hocc. discriminate.
Qed.

(** ** Adding ids one by one *)

Lemma Roaring_add_In x r y : In y (Roaring.add x r) <-> y = x \/ In y r.
Proof.
  induction r as [|a r IH]; cbn [Roaring.add In].
  - intuition.
  - destruct (Z.ltb_spec x a); [cbn [In]; intuition|].
    destruct (Z.eqb_spec x a) as [->|Hne]; cbn [In]; [intuition|].
    rewrite IH. intuition.
Qed.

Lemma Roaring_add_wf x r : 0 <= x < 2 ^ 32 -> Roaring.wf r -> Roaring.wf (Roaring.add x r).
Proof.
  intros Hx [Hs Hr]. split.
  - induction r as [|a r IH]; cbn [Roaring.add]; [repeat constructor|].
    apply StronglySorted_inv in Hs as [Hs Ha].
    apply Forall_cons in Hr as [Hra Hr].
    destruct (Z.ltb_spec x a).
    + constructor; [constructor; assumption|].
      constructor; [assumption|].
      rewrite List.Forall_forall in *. intros z Hz. specialize (Ha z Hz). lia.
    + destruct (Z.eqb_spec x a) as [->|Hne]; [constructor; assumption|].
      constructor; [apply IH; assumption|].
      rewrite List.Forall_forall in *. intros z Hz.
      apply Roaring_add_In in Hz as [->|Hz]; [lia|apply Ha; assumption].
  - rewrite List.Forall_forall in *. intros z Hz.
    apply Roaring_add_In in Hz as [->|Hz]; [assumption|apply Hr; assumption].
Qed.

Lemma Roaring_of_list_wf l :
  Forall (fun x => 0 <= x < 2 ^ 32) l -> Roaring.wf (fold_right Roaring.add [] l).
Proof.
  induction 1 as [|x l Hx Hl IH]; cbn [fold_right].
  - split; constructor.
  - apply Roaring_add_wf; assumption.
Qed.

Lemma Roaring_of_list_In l y : In y (fold_right Roaring.add [] l) <-> In y l.
Proof.
  induction l as [|x l IH]; cbn [fold_right In]; [reflexivity|].
  rewrite Roaring_add_In, IH. intuition.
Qed.

Lemma set_bit_bound w x :
  0 <= w < 2 ^ 64 -> 0 <= x < 62 -> 0 <= Z.lor w (Z.shiftl 1 (x + 2)) < 2 ^ 64.
Proof.
  intros Hw Hx.
  assert (Hb : 0 <= Z.shiftl 1 (x + 2) < 2 ^ 64).
  { rewrite Z.shiftl_1_l. split; [apply Z.pow_nonneg; lia|].
    apply Z.pow_lt_mono_r; lia. }
  split; [apply Z.lor_nonneg; lia|].
  destruct (Z.eq_dec (Z.lor w (Z.shiftl 1 (x + 2))) 0) as [E|E]; [rewrite E; lia|].
  apply Z.log2_lt_pow2; [pose proof (proj2 (Z.lor_nonneg w (Z.shiftl 1 (x + 2))) ltac:(lia)); lia|].
  rewrite Z.log2_lor by lia.
  apply Z.max_lub_lt.
  - destruct (Z.eq_dec w 0) as [->|Hw0]; [cbn; lia|]. apply Z.log2_lt_pow2; lia.
  - apply Z.log2_lt_pow2; [|lia]. rewrite Z.shiftl_1_l. apply Z.pow_pos_nonneg; lia.
Qed.

Lemma set_bit_testbit w x n :
  0 <= x -> 0 <= n ->
  Z.testbit (Z.lor w (Z.shiftl 1 (x + 2))) n = Z.testbit w n || (n =? x + 2).
Proof.
  intros Hx Hn. rewrite Z.lor_spec, Z.shiftl_1_l, Z.pow2_bits_eqb by lia.
  rewrite (Z.eqb_sym (x + 2) n). reflexivity.
Qed.

Lemma set_bit_flag w x :
  0 <= w -> 0 <= x -> Z.land (Z.lor w (Z.shiftl 1 (x + 2))) flagMask = Z.land w flagMask.
Proof.
  intros Hw Hx. apply Z.bits_inj'. intros n Hn.
  rewrite !Z.land_spec, set_bit_testbit by lia.
  destruct (Z.eqb_spec n (x + 2)) as [->|Hne]; [|rewrite orb_false_r; reflexivity].
  unfold flagMask. change 3 with (Z.ones 2). rewrite Z.ones_spec_high by lia.
  rewrite !andb_false_r. reflexivity.
Qed.

Lemma state_bitmap w bm :
  0 <= w < 2 ^ 64 -> Z.land w flagMask = ptrCompressedBitmap -> Roaring.wf bm ->
  wf_UnitigColors {| setBits := w; bitmap := bm |} /\
  isOccupied {| setBits := w; bitmap := bm |} = true /\
  (forall y, contains_id {| setBits := w; bitmap := bm |} y <-> In y bm).
Proof.
  intros Hw Hf Hbm. unfold wf_UnitigColors, isOccupied, contains_id.
  cbn [setBits bitmap]. rewrite Hf.
  split; [split; [assumption | intros _; assumption]|].
  split; reflexivity.
Qed.

Lemma state_bitvec w bm :
  0 <= w < 2 ^ 64 -> Z.land w flagMask = localBitVectorColor ->
  wf_UnitigColors {| setBits := w; bitmap := bm |} /\
  isOccupied {| setBits := w; bitmap := bm |} = true /\
  (forall y, contains_id {| setBits := w; bitmap := bm |} y <->
             0 <= y < 62 /\ Z.testbit w (y + 2) = true).
Proof.
  intros Hw Hf. unfold wf_UnitigColors, isOccupied, contains_id.
  cbn [setBits bitmap]. rewrite Hf.
  split; [split; [assumption | discriminate]|].
  split; reflexivity.
Qed.

Lemma state_single w bm :
  0 <= w < 2 ^ 64 -> Z.land w flagMask = localSingleColor ->
  wf_UnitigColors {| setBits := w; bitmap := bm |} /\
  isOccupied {| setBits := w; bitmap := bm |} = true /\
  (forall y, contains_id {| setBits := w; bitmap := bm |} y <-> y = Z.shiftr w 2).
Proof.
  intros Hw Hf. unfold wf_UnitigColors, isOccupied, contains_id.
  cbn [setBits bitmap]. rewrite Hf.
  split; [split; [assumption | discriminate]|].
  split; reflexivity.
Qed.

Lemma ids_bitvec w bm y :
  Z.land w flagMask = localBitVectorColor ->
  In y (ids {| setBits := w; bitmap := bm |}) <->
  0 <= y < 62 /\ Z.testbit w (y + 2) = true.
Proof.
  intros Hf. unfold ids. cbn [setBits]. rewrite Hf.
  change (localBitVectorColor =? ptrCompressedBitmap) with false.
  change (localBitVectorColor =? localBitVectorColor) with true. cbv iota.
  apply set_bits_In.
Qed.

Ltac flag_tests :=
  unfold ptrCompressedBitmap, localBitVectorColor, localSingleColor, unoccupied,
    maxBitVectorIDs;
  cbn [Z.eqb Pos.eqb].

Lemma add_id_eq_bitmap w bm x :
  Z.land w flagMask = ptrCompressedBitmap ->
  add_id {| setBits := w; bitmap := bm |} x
  = {| setBits := w; bitmap := Roaring.add (x mod 2 ^ 32) bm |}.
Proof.
  intros Hf. unfold add_id, setOccupied, isUnoccupied. cbn [setBits bitmap].
  rewrite Hf. flag_tests. cbn [setBits bitmap]. rewrite Hf. flag_tests. reflexivity.
Qed.

Lemma add_id_eq_bitvec w bm x :
  Z.land w flagMask = localBitVectorColor ->
  add_id {| setBits := w; bitmap := bm |} x
  = if x <? 62 then {| setBits := Z.lor w (Z.shiftl 1 (x + 2)); bitmap := bm |}
    else {| setBits := ptrCompressedBitmap;
            bitmap := Roaring.add (x mod 2 ^ 32)
                        (fold_right Roaring.add [] (ids {| setBits := w; bitmap := bm |})) |}.
Proof.
  intros Hf. unfold add_id, setOccupied, isUnoccupied. cbn [setBits bitmap].
  rewrite Hf. flag_tests. cbn [setBits bitmap]. rewrite Hf. flag_tests. reflexivity.
Qed.

Lemma add_id_eq_single w bm x :
  Z.land w flagMask = localSingleColor ->
  add_id {| setBits := w; bitmap := bm |} x
  = if x =? Z.shiftr w 2 then {| setBits := w; bitmap := bm |}
    else {| setBits := ptrCompressedBitmap;
            bitmap := Roaring.add (x mod 2 ^ 32)
                        (Roaring.add (Z.shiftr w 2 mod 2 ^ 32) []) |}.
Proof.
  intros Hf. unfold add_id, setOccupied, isUnoccupied. cbn [setBits bitmap].
  rewrite Hf. flag_tests. cbn [setBits bitmap]. rewrite Hf. flag_tests. reflexivity.
Qed.

Lemma add_id_on_unoccupied w bm x :
  0 <= x < 2 ^ 32 -> Z.land w flagMask = unoccupied ->
  add_id {| setBits := w; bitmap := bm |} x
  = add_id {| setBits := localBitVectorColor; bitmap := bm |} x.
Proof.
  intros Hx Hf. unfold add_id, setOccupied, isUnoccupied. cbn [setBits bitmap].
  rewrite Hf. reflexivity.
Qed.

Lemma add_id_on_bitvec w bm x :
  0 <= w < 2 ^ 64 -> 0 <= x < 2 ^ 32 ->
  Z.land w flagMask = localBitVectorColor ->
  wf_UnitigColors (add_id {| setBits := w; bitmap := bm |} x) /\
  isOccupied (add_id {| setBits := w; bitmap := bm |} x) = true /\
  (forall y, contains_id (add_id {| setBits := w; bitmap := bm |} x) y <->
             y = x \/ (0 <= y < 62 /\ Z.testbit w (y + 2) = true)).
Proof.
  intros Hw Hx Hf. rewrite add_id_eq_bitvec by assumption.
  rewrite (Z.mod_small x) by lia.
  destruct (Z.ltb_spec x 62) as [Hlt | Hge].
  - destruct (state_bitvec (Z.lor w (Z.shiftl 1 (x + 2))) bm) as (H1 & H2 & H3).
    + apply set_bit_bound; lia.
    + rewrite set_bit_flag by lia. assumption.
    + split; [exact H1|]. split; [exact H2|]. intros y. rewrite H3. split.
      * intros [Hy Hb]. rewrite set_bit_testbit in Hb by lia.
        apply orb_true_iff in Hb as [Hb | Hb]; [right; auto|left].
        apply Z.eqb_eq in Hb. lia.
      * intros [-> | [Hy Hb]]; (split; [lia|]); rewrite set_bit_testbit by lia.
        -- rewrite Z.eqb_refl. apply orb_true_r.
        -- rewrite Hb. reflexivity.
  - destruct (state_bitmap ptrCompressedBitmap
                (Roaring.add x (fold_right Roaring.add []
                                  (ids {| setBits := w; bitmap := bm |}))))
      as (H1 & H2 & H3).
    + unfold ptrCompressedBitmap. lia.
    + reflexivity.
    + apply Roaring_add_wf; [lia|]. apply Roaring_of_list_wf.
      apply List.Forall_forall. intros y Hy. apply ids_bitvec in Hy; [lia|assumption].
    + split; [exact H1|]. split; [exact H2|]. intros y.
      rewrite H3, Roaring_add_In, Roaring_of_list_In, ids_bitvec by assumption.
      reflexivity.
Qed.

Lemma add_id_spec c x :
  wf_UnitigColors c -> ids_small c -> 0 <= x < 2 ^ 32 ->
  wf_UnitigColors (add_id c x) /\ isOccupied (add_id c x) = true /\
  (forall y, contains_id (add_id c x) y <-> y = x \/ contains_id c y).
Proof.
  intros [Hw Hbm] Hsmall Hx. destruct c as [w bm]. cbn [setBits bitmap] in *.
  destruct (flag_cases w ltac:(lia)) as [Hf | [Hf | [Hf | Hf]]].
  - rewrite add_id_eq_bitmap by assumption. rewrite (Z.mod_small x) by lia.
    destruct (state_bitmap w (Roaring.add x bm) Hw Hf
                (Roaring_add_wf x bm Hx (Hbm Hf))) as (H1 & H2 & H3).
    destruct (state_bitmap w bm Hw Hf (Hbm Hf)) as (_ & _ & H4).
    split; [exact H1|]. split; [exact H2|]. intros y.
    rewrite H3, H4. apply Roaring_add_In.
  - destruct (add_id_on_bitvec w bm x Hw Hx Hf) as (H1 & H2 & H3).
    destruct (state_bitvec w bm Hw Hf) as (_ & _ & H4).
    split; [exact H1|]. split; [exact H2|]. intros y. rewrite H3, H4. reflexivity.
  - destruct (state_single w bm Hw Hf) as (_ & _ & H4).
    assert (Hs : 0 <= Z.shiftr w 2 < 2 ^ 32) by (apply Hsmall, H4; reflexivity).
    rewrite add_id_eq_single by assumption.
    rewrite (Z.mod_small x), (Z.mod_small (Z.shiftr w 2)) by lia.
    destruct (Z.eqb_spec x (Z.shiftr w 2)) as [E | Hne].
    + destruct (state_single w bm Hw Hf) as (H1 & H2 & H3).
      split; [exact H1|]. split; [exact H2|]. intros y. rewrite H3, E. intuition.
    + destruct (state_bitmap ptrCompressedBitmap
                  (Roaring.add x (Roaring.add (Z.shiftr w 2) [])))
        as (H1 & H2 & H3).
      * unfold ptrCompressedBitmap. lia.
      * reflexivity.
      * apply Roaring_add_wf; [lia|]. apply Roaring_add_wf; [lia|]. split; constructor.
      * split; [exact H1|]. split; [exact H2|]. intros y.
        rewrite H3, H4, !Roaring_add_In. cbn [In]. intuition.
  - rewrite add_id_on_unoccupied by assumption.
    destruct (add_id_on_bitvec localBitVectorColor bm x
                ltac:(unfold localBitVectorColor; lia) Hx eq_refl) as (H1 & H2 & H3).
    split; [exact H1|]. split; [exact H2|]. intros y. rewrite H3.
    unfold contains_id. cbn [setBits bitmap]. rewrite Hf.
    change (unoccupied =? ptrCompressedBitmap) with false.
    change (unoccupied =? localBitVectorColor) with false.
    change (unoccupied =? localSingleColor) with false. cbv iota.
    split; [|intros [? | []]; auto]. intros [-> | [Hy Hb]]; [auto|].
    unfold localBitVectorColor in Hb.
    rewrite Z.bits_above_log2 in Hb; [discriminate | lia | cbn; lia].
Qed.

(** The order in which two ids are added does not change what the iterator
    yields. *)
Lemma add_id_order c a b :
  wf_UnitigColors c -> ids_small c -> 0 <= a < 2 ^ 32 -> 0 <= b < 2 ^ 32 ->
  colors (add_id (add_id c a) b) = colors (add_id (add_id c b) a).
Proof.
  intros Hwf Hsmall Ha Hb.
  destruct (add_id_spec c a Hwf Hsmall Ha) as (Hwa & Hoa & Hma).
  destruct (add_id_spec c b Hwf Hsmall Hb) as (Hwb & Hob & Hmb).
  assert (Hsa : ids_small (add_id c a)).
  { intros y Hy. apply Hma in Hy as [-> | Hy]; [assumption | apply Hsmall, Hy]. }
  assert (Hsb : ids_small (add_id c b)).
  { intros y Hy. apply Hmb in Hy as [-> | Hy]; [assumption | apply Hsmall, Hy]. }
  destruct (add_id_spec _ b Hwa Hsa Hb) as (Hwab & Hoab & Hmab).
  destruct (add_id_spec _ a Hwb Hsb Ha) as (Hwba & Hoba & Hmba).
  destruct (colors_occupied _ Hwab Hoab) as (l1 & -> & Hs1 & Hm1).
  destruct (colors_occupied _ Hwba Hoba) as (l2 & -> & Hs2 & Hm2).
  f_equal. apply sorted_same_members; try assumption.
  intros y. rewrite Hm1, Hm2, Hmab, Hmba, Hma, Hmb. intuition.
Qed.

(** ** ColorKmer_ID *)

(** C9: for a ColorKmerId other than the all-ones value, [getColorID(K)]
    returns [ck_id / K] and [getKmerPosition(K)] returns [ck_id % K], with
    nothing logged; for the all-ones value both log one error line and return
    the value unchanged. *)
Theorem ColorKmer_ID_accessors (ck_id K : Z) :
  0 <= ck_id < 2 ^ 64 -> 0 < K < 2 ^ 64 ->
  (ck_id <> all_ones ->
     ColorKmer_ID.getColorID ck_id K = (ck_id / K, []) /\
     ColorKmer_ID.getKmerPosition ck_id K = (ck_id mod K, [])) /\
  (ck_id = all_ones ->
     ColorKmer_ID.getColorID ck_id K = (all_ones, [ColorKmer_ID.err_getColorID]) /\
     ColorKmer_ID.getKmerPosition ck_id K
       = (all_ones, [ColorKmer_ID.err_getKmerPosition])).
Proof.
  intros Hck HK. unfold ColorKmer_ID.getColorID, ColorKmer_ID.getKmerPosition.
  split.
  - intros Hne. unfold all_ones in Hne.
    destruct (Z.eqb_spec ck_id 0xffffffffffffffff) as [E | _]; [contradiction|].
    split; reflexivity.
  - intros ->. split; reflexivity.
Qed.

Lemma ColorKmer_ID_accessors_witness :
  (ColorKmer_ID.getColorID 13 7 = (1, []) /\
   ColorKmer_ID.getKmerPosition 13 7 = (6, [])) /\
  (ColorKmer_ID.getColorID all_ones 7 = (all_ones, [ColorKmer_ID.err_getColorID]) /\
   ColorKmer_ID.getKmerPosition all_ones 7
     = (all_ones, [ColorKmer_ID.err_getKmerPosition])).
Proof.
  split.
  - apply (ColorKmer_ID_accessors 13 7); [lia | lia | discriminate].
  - apply (ColorKmer_ID_accessors all_ones 7); [unfold all_ones; lia | lia | reflexivity].
Defined.

(** ** Iterating an unoccupied UnitigColors *)

Lemma incr_unoccupied c (p : nat) ck :
  (p < 62)%nat ->
  incr (mkIter c unoccupied (Z.of_nat p) 62 ck 0%nat)
  = mkIter c unoccupied (Z.of_nat (S p)) 62 ck 0%nat.
Proof.
  intros Hp. unfold incr. cbn [it_setBits cs_sz flag cs ck_id it_roar].
  destruct (Z.eqb_spec (Z.of_nat p) 62) as [E|_]; [lia|].
  change (unoccupied =? ptrCompressedBitmap) with false.
  change (unoccupied =? localBitVectorColor) with false.
  change (unoccupied =? localSingleColor) with false. cbv iota.
  replace (wrap64 (Z.of_nat p + 1)) with (Z.of_nat (S p))
    by (unfold wrap64; rewrite Z.mod_small; lia).
  reflexivity.
Qed.

Lemma iterate_unoccupied c ck ck0 : forall (n p fuel : nat),
  (p + n = 62)%nat -> (n <= fuel)%nat ->
  iterate fuel (mkIter c unoccupied (Z.of_nat p) 62 ck 0%nat)
    (mkIter c unoccupied 62 62 ck0 0%nat)
  = Some (repeat ck n).
Proof.
  induction n as [|n IH]; intros p fuel Hp Hfuel.
  - assert (p = 62%nat) as -> by lia.
    destruct fuel; cbn [iterate]; rewrite iter_eqb_same; reflexivity.
  - destruct fuel as [|fuel]; [lia|].
    cbn [iterate]. rewrite iter_eqb_same.
    change (unoccupied =? ptrCompressedBitmap) with false. cbv iota.
    destruct (Z.eqb_spec (Z.of_nat p) 62) as [E|_]; [lia|].
    rewrite incr_unoccupied by lia.
    rewrite (IH (S p) fuel) by lia. reflexivity.
Qed.

Lemma begin_end_unoccupied w bm :
  Z.land w flagMask = unoccupied ->
  begin {| setBits := w; bitmap := bm |}
    = mkIter {| setBits := w; bitmap := bm |} unoccupied 0 62 0 0%nat /\
  end_ {| setBits := w; bitmap := bm |}
    = mkIter {| setBits := w; bitmap := bm |} unoccupied 62 62 0 0%nat.
Proof.
  intros Hf. unfold begin, end_, const_iterator_new. cbn [setBits bitmap].
  rewrite Hf.
  change (unoccupied =? ptrCompressedBitmap) with false.
  change (unoccupied =? localSingleColor) with false. cbv iota.
  unfold incr. cbn [it_setBits cs_sz flag cs ck_id it_roar].
  change (18446744073709551615 =? maxBitVectorIDs) with false.
  change (unoccupied =? ptrCompressedBitmap) with false.
  change (unoccupied =? localBitVectorColor) with false.
  change (unoccupied =? localSingleColor) with false. cbv iota.
  split; reflexivity.
Qed.

Lemma colors_unoccupied w bm :
  Z.land w flagMask = unoccupied ->
  colors {| setBits := w; bitmap := bm |} = Some (repeat 0 62).
Proof.
  intros Hf. unfold colors.
  destruct (begin_end_unoccupied w bm Hf) as [-> ->]. cbn [cs_sz].
  change (Z.to_nat 62) with 62%nat.
  apply (iterate_unoccupied _ 0 0 62 0 62); lia.
Qed.

(** The loop from [begin()] to [end()] ends in every state, so [to_list]
    never falls back on its default. *)
Lemma colors_total c :
  0 <= setBits c -> Z.of_nat (length (bitmap c)) < 2 ^ 64 - 1 ->
  is_Some (colors c).
Proof.
  destruct c as [w bm]. cbn [setBits bitmap]. intros Hw Hlen.
  destruct (flag_cases w Hw) as [Hf | [Hf | [Hf | Hf]]].
  - rewrite colors_bitmap by assumption. eauto.
  - rewrite colors_bitvec by assumption. eauto.
  - rewrite colors_single by assumption. eauto.
  - rewrite colors_unoccupied by assumption. eauto.
Qed.

(** C5: a UnitigColors in the unoccupied state is not iterated as empty:
    [begin()] stands at 0 and [end()] at 62, they compare different, and the
    loop from one to the other makes 62 rounds, each with the ColorKmer_ID
    0. *)
Theorem unoccupied_begin_differs_from_end (c : UnitigColors) :
  isUnoccupied c = true ->
  it_setBits (begin c) = 0 /\
  it_setBits (end_ c) = 62 /\
  iter_eqb (begin c) (end_ c) = false /\
  colors c = Some (repeat 0 62).
Proof.
  destruct c as [w bm]. unfold isUnoccupied. cbn [setBits].
  intros Hf. apply Z.eqb_eq in Hf.
  rewrite colors_unoccupied by assumption.
  destruct (begin_end_unoccupied w bm Hf) as [-> ->]. cbn [it_setBits].
  repeat split. rewrite iter_eqb_same. reflexivity.
Qed.

Lemma unoccupied_begin_differs_from_end_witness :
  iter_eqb (begin UnitigColors_new) (end_ UnitigColors_new) = false /\
  colors UnitigColors_new = Some (repeat 0 62).
Proof.
  destruct (unoccupied_begin_differs_from_end UnitigColors_new eq_refl)
    as (_ & _ & H1 & H2).
  split; assumption.
Defined.

(** ** Iterating an occupied UnitigColors *)

(** C8: for every well-formed occupied UnitigColors, in whichever of the
    three states Single, BitVec62 and Bitmap, the loop from [begin()] to
    [end()] ends and meets the stored ColorKmerIds, each once, in strictly
    increasing order; so two occupied UnitigColors that store the same ids
    are iterated alike, whatever their states and the order the ids came
    in. *)
Theorem iteration_strictly_ascending (c : UnitigColors) :
  wf_UnitigColors c -> isOccupied c = true ->
  exists l,
    colors c = Some l /\
    StronglySorted Z.lt l /\
    (forall x, In x l <-> contains_id c x) /\
    (forall c', wf_UnitigColors c' -> isOccupied c' = true ->
       (forall x, contains_id c' x <-> contains_id c x) ->
       colors c' = Some l).
Proof.
  intros Hwf Hocc.
  destruct (colors_occupied c Hwf Hocc) as (l & Hl & Hs & Hm).
  exists l. repeat split; try assumption; try apply Hm.
  intros c' Hwf' Hocc' Hsame.
  destruct (colors_occupied c' Hwf' Hocc') as (l' & Hl' & Hs' & Hm').
  rewrite Hl'. f_equal. apply sorted_same_members; try assumption.
  intros x. rewrite Hm', Hm. apply Hsame.
Qed.

(** ** getColorSet and setColor *)

(** Reading after a write through an address. *)
Lemma load_store_ne g p q c : q <> p -> load (store g p c) q = load g q.
Proof.
  intros Hne. destruct p as [i|km| |], q as [j|km'| |]; unfold load, store;
    try reflexivity;
    try (destruct (color_sets g) eqn:E; rewrite ?E; reflexivity).
  - destruct (color_sets g) as [a|] eqn:E; rewrite ?E; [|reflexivity].
    cbn [with_color_sets color_sets].
    rewrite list_lookup_insert_ne by congruence. reflexivity.
  - cbn [with_km_overflow km_overflow].
    rewrite lookup_insert_ne by congruence. reflexivity.
Qed.

Lemma load_store_eq g p c :
  match p with
  | color_sets_at i => exists a, color_sets g = Some a /\ (i < length a)%nat
  | km_overflow_at _ => True
  | _ => False
  end ->
  load (store g p c) p = c.
Proof.
  destruct p as [i|km| |]; cbn [store load]; try contradiction.
  - intros (a & -> & Hi). cbn [with_color_sets color_sets].
    rewrite list_lookup_insert_eq by assumption. reflexivity.
  - intros _. cbn [with_km_overflow km_overflow]. rewrite lookup_insert_eq. reflexivity.
Qed.

Section Storage_properties.

Variable hash : Kmer -> Z -> Z.
Variable add : UnitigColors -> UnitigMap.t -> Z -> UnitigColors.
Variable reverse : UnitigColors -> Z -> UnitigColors.

Lemma getColorSet_empty g um :
  UnitigMap.isEmpty um = true -> getColorSet hash g um = None.
Proof. intros H. unfold getColorSet. rewrite H. reflexivity. Qed.

Lemma getColorSet_unallocated g um :
  color_sets g = None -> getColorSet hash g um = None.
Proof.
  intros H. unfold getColorSet. rewrite H.
  rewrite bool_decide_eq_false_2 by (intros C; apply C; reflexivity).
  rewrite andb_false_r. reflexivity.
Qed.

Lemma getColorSet_Some_guard g um p :
  getColorSet hash g um = Some p ->
  UnitigMap.isEmpty um = false /\ color_sets g <> None.
Proof.
  intros H. split.
  - destruct (UnitigMap.isEmpty um) eqn:E; [|reflexivity].
    rewrite getColorSet_empty in H by assumption. discriminate.
  - intros C. rewrite getColorSet_unallocated in H by assumption. discriminate.
Qed.

(** C6, amended: for a mapping that is not empty and an allocated array,
    [getColorSet] returns the address of the overflow entry of the head
    k-mer when the byte is 0 (null when the table has no such entry), and
    the address of the slot [hash(head, seeds[a-1]) % nb_color_sets] of the
    array when the byte is [a <> 0]; with no array it returns null. *)
Theorem getColorSet_allocated g um :
  UnitigMap.isEmpty um = false ->
  (forall a, color_sets g = Some a ->
     (getData g um = 0 ->
        (forall c, km_overflow g !! getHead g um = Some c ->
           exists p, getColorSet hash g um = Some p /\
                     p = km_overflow_at (getHead g um) /\ load g p = c) /\
        (km_overflow g !! getHead g um = None -> getColorSet hash g um = None)) /\
     (getData g um <> 0 ->
        exists i,
          i = Z.to_nat (hash (getHead g um) (seed_at g (getData g um - 1))
                        mod nb_color_sets g) /\
          getColorSet hash g um = Some (color_sets_at i) /\
          load g (color_sets_at i) = default UnitigColors_new (a !! i))) /\
  (color_sets g = None -> getColorSet hash g um = None).
Proof.
  intros Hne. split; [|apply getColorSet_unallocated].
  intros a Ha. unfold getColorSet. rewrite Hne, Ha.
  rewrite bool_decide_eq_true_2 by discriminate. cbn [negb andb].
  split.
  - intros H0. rewrite H0. cbn [Z.eqb]. split.
    + intros c Hc. rewrite Hc. eexists. split; [reflexivity|].
      split; [reflexivity|]. cbn [load]. rewrite Hc. reflexivity.
    + intros Hnone. rewrite Hnone. reflexivity.
  - intros Hnz.
    destruct (Z.eqb_spec (getData g um) 0) as [E | _]; [contradiction|].
    eexists. split; [reflexivity|].
    split; [reflexivity|]. cbn [load]. rewrite Ha. reflexivity.
Qed.

Lemma getColorSet_slot_lt g um i a :
  getColorSet hash g um = Some (color_sets_at i) ->
  color_sets g = Some a -> Z.of_nat (length a) = nb_color_sets g ->
  0 < nb_color_sets g ->
  (i < length a)%nat.
Proof.
  intros Hg Ha Hlen Hpos. revert Hg. unfold getColorSet.
  destruct (negb _ && _); [|discriminate].
  destruct (getData g um =? 0).
  - destruct (km_overflow g !! getHead g um); discriminate.
  - intros [= <-].
    pose proof (Z.mod_pos_bound
                  (hash (getHead g um) (seed_at g (getData g um - 1)))
                  (nb_color_sets g) Hpos). lia.
Qed.

(** C10: [setColor] returns false and leaves the graph and its storage as
    they were when the mapping is empty, when the array is not allocated,
    or when [getColorSet] finds no UnitigColors; otherwise it returns true
    and the located UnitigColors, and no other, has received the colour
    through [add].  So it returns true exactly when a UnitigColors is
    located; and then, the array holding [nb_color_sets > 0] entries, the
    UnitigColors read at the located address after the call is the result
    of [add] on the one read there before, and every other address reads
    as before. *)
Theorem setColor_result g um color_id :
  (UnitigMap.isEmpty um = true \/ color_sets g = None \/
   getColorSet hash g um = None ->
     setColor hash add g um color_id = (false, g)) /\
  (forall p, getColorSet hash g um = Some p ->
     setColor hash add g um color_id
       = (true, store g p (add (load g p) um color_id))) /\
  (fst (setColor hash add g um color_id) = true <->
     exists p, getColorSet hash g um = Some p) /\
  (forall p a, getColorSet hash g um = Some p ->
     color_sets g = Some a -> Z.of_nat (length a) = nb_color_sets g ->
     0 < nb_color_sets g ->
     load (snd (setColor hash add g um color_id)) p = add (load g p) um color_id) /\
  (forall p q, getColorSet hash g um = Some p -> q <> p ->
     load (snd (setColor hash add g um color_id)) q = load g q).
Proof.
  assert (Hnone : getColorSet hash g um = None ->
                  setColor hash add g um color_id = (false, g)).
  { intros H. unfold setColor. rewrite H.
    destruct (negb _ && _); reflexivity. }
  assert (Hsome : forall p, getColorSet hash g um = Some p ->
            setColor hash add g um color_id
              = (true, store g p (add (load g p) um color_id))).
  { intros p H. destruct (getColorSet_Some_guard _ _ _ H) as [He Ha].
    unfold setColor. rewrite H, He.
    rewrite bool_decide_eq_true_2 by assumption. reflexivity. }
  split; [|split; [|split; [|split]]].
  - intros [H | [H | H]]; apply Hnone; auto using getColorSet_empty, getColorSet_unallocated.
  - intros p H. auto.
  - split.
    + intros Ht. destruct (getColorSet hash g um) as [p|] eqn:E; [eauto|].
      rewrite Hnone in Ht by reflexivity. discriminate.
    + intros [p Hp]. rewrite (Hsome p Hp). reflexivity.
  - intros p a Hp Ha Hlen Hpos. rewrite (Hsome p Hp). cbn [snd].
    apply load_store_eq. destruct p as [i|km| |].
    + exists a. split; [exact Ha|]. exact (getColorSet_slot_lt g um i a Hp Ha Hlen Hpos).
    + exact I.
    + revert Hp. unfold getColorSet. destruct (negb _ && _); [|discriminate].
      destruct (getData g um =? 0); [|discriminate].
      destruct (km_overflow g !! getHead g um); discriminate.
    + revert Hp. unfold getColorSet. destruct (negb _ && _); [|discriminate].
      destruct (getData g um =? 0); [|discriminate].
      destruct (km_overflow g !! getHead g um); discriminate.
  - intros p q Hp Hne. rewrite (Hsome p Hp). cbn [snd].
    apply load_store_ne. exact Hne.
Qed.

End Storage_properties.

Lemma getColorSet_allocated_witness :
  getColorSet Examples.hash_seed (Examples.join_graph 5) (Examples.join_dest 5 true)
    = Some (color_sets_at 0).
Proof.
  destruct (getColorSet_allocated Examples.hash_seed (Examples.join_graph 5)
              (Examples.join_dest 5 true) eq_refl) as [H _].
  destruct (H _ eq_refl) as [_ H2].
  destruct H2 as (i & Hi & Hg & _); [vm_compute; discriminate|].
  rewrite Hg, Hi. reflexivity.
Defined.

(** The claim of C6 as worded fails where the array is not allocated: the
    byte is 1 and the result is null, not the address of a slot. *)
Lemma getColorSet_as_claimed_fails :
  ~ getColorSet_as_claimed Examples.hash_seed Examples.unallocated_graph
      Examples.first_unitig.
Proof. intros H. specialize (H eq_refl). vm_compute in H. discriminate. Qed.

Lemma setColor_result_witness :
  setColor Examples.hash_seed (UnitigColors_add 5) Examples.unallocated_graph
    Examples.first_unitig 0 = (false, Examples.unallocated_graph) /\
  fst (setColor Examples.hash_seed (UnitigColors_add 5) (Examples.join_graph 5)
         (Examples.join_dest 5 true) 1) = true /\
  load (snd (setColor Examples.hash_seed (UnitigColors_add 5) (Examples.join_graph 5)
               (Examples.join_dest 5 true) 1)) (color_sets_at 0)
    = UnitigColors_add 5 (load (Examples.join_graph 5) (color_sets_at 0))
        (Examples.join_dest 5 true) 1 /\
  load (snd (setColor Examples.hash_seed (UnitigColors_add 5) (Examples.join_graph 5)
               (Examples.join_dest 5 true) 1)) (color_sets_at 1)
    = load (Examples.join_graph 5) (color_sets_at 1).
Proof.
  split; [|split; [|split]].
  - apply (setColor_result Examples.hash_seed (UnitigColors_add 5)
             Examples.unallocated_graph Examples.first_unitig 0).
    right; left; reflexivity.
  - apply (setColor_result Examples.hash_seed (UnitigColors_add 5)
             (Examples.join_graph 5) (Examples.join_dest 5 true) 1).
    exists (color_sets_at 0). reflexivity.
  - destruct (setColor_result Examples.hash_seed (UnitigColors_add 5)
                (Examples.join_graph 5) (Examples.join_dest 5 true) 1)
      as (_ & _ & _ & H & _).
    apply (H (color_sets_at 0) _ eq_refl eq_refl); reflexivity.
  - destruct (setColor_result Examples.hash_seed (UnitigColors_add 5)
                (Examples.join_graph 5) (Examples.join_dest 5 true) 1)
      as (_ & _ & _ & _ & H).
    apply (H (color_sets_at 0) (color_sets_at 1) eq_refl). discriminate.
Defined.

(** ** joinColors *)

Section JoinColors_properties.

Variable hash : Kmer -> Z -> Z.
Variable add : UnitigColors -> UnitigMap.t -> Z -> UnitigColors.
Variable reverse : UnitigColors -> Z -> UnitigColors.

Lemma getColorSet_in_storage g um p :
  getColorSet hash g um = Some p ->
  (exists i, p = color_sets_at i) \/ (exists km, p = km_overflow_at km).
Proof.
  unfold getColorSet. destruct (negb _ && _); [|discriminate].
  destruct (getData g um =? 0).
  - destruct (km_overflow g !! getHead g um); [|discriminate].
    intros [= <-]. right. eauto.
  - intros [= <-]. left. eauto.
Qed.

(** C3: when [um_dest.strand] is false, [color_set_dest] is redirected to
    the local [csd_rev] before the merge, and the final assignment
    [*color_set_dest = new_cs] writes that local: [joinColors] returns true
    and the storage still holds what it held before the call. *)
Theorem joinColors_reversed_dest_not_stored g um_dest um_src g' :
  UnitigMap.strand um_dest = false ->
  joinColors hash add reverse g um_dest um_src = (true, g') ->
  g' = g.
Proof.
  intros Hs. unfold joinColors. rewrite Hs.
  destruct (negb _ && _ && _); [|discriminate].
  destruct (getColorSet hash g um_dest) as [pd|]; [|discriminate].
  destruct (getColorSet hash g um_src) as [ps|] eqn:Es; [|discriminate].
  cbn [negb]. cbv iota beta.
  destruct (getColorSet_in_storage _ _ _ Es) as [[i ->] | [km ->]];
    destruct (UnitigMap.strand um_src); cbn [negb]; cbv iota beta;
    repeat match goal with
           | |- context [match ?x with (_, _) => _ end] => destruct x
           | |- context [let '(_, _) := ?x in _] => destruct x
           end;
    cbn; intros [= <-]; reflexivity.
Qed.

End JoinColors_properties.

Lemma joinColors_reversed_dest_not_stored_witness :
  snd (joinColors Examples.hash_seed (UnitigColors_add 5) (UnitigColors_reverse 5)
         (Examples.join_graph 5) (Examples.join_dest 5 false)
         (Examples.join_src 5 true))
    = Examples.join_graph 5.
Proof.
  apply (joinColors_reversed_dest_not_stored Examples.hash_seed (UnitigColors_add 5)
           (UnitigColors_reverse 5) (Examples.join_graph 5)
           (Examples.join_dest 5 false) (Examples.join_src 5 true)).
  - reflexivity.
  - vm_compute. reflexivity.
Defined.

(** A run of the destination that ends because the colour changes is added
    under the colour that follows it: a destination with colours 0 and 1 on
    its 4 k-mers (k = 1, so that sizes and k-mer counts agree) keeps colour 1
    only. *)
Example joinColors_colour_change :
  to_list (load (Examples.join_graph2 1) (color_sets_at 0)) = [0; 1; 2; 3; 4; 5; 6; 7] /\
  to_list (load (snd (joinColors Examples.hash_seed (UnitigColors_add 1)
                        (UnitigColors_reverse 1) (Examples.join_graph2 1)
                        (Examples.join_dest 1 true) (Examples.join_src 1 true)))
             (color_sets_at 0))
    = [7; 8; 9; 10; 11; 12; 13].
Proof. split; vm_compute; reflexivity. Qed.

(** C2: with k = 5, a destination of 4 k-mers (8 bases) holding colour 0 on
    positions 0..3 and a forward source of 3 k-mers (7 bases) holding colour
    1 on positions 0..2, [joinColors] returns true and leaves in the
    destination the ids 0, 1, 2, 3, 19, 20, 21: colour 1 is at positions 8,
    9, 10 of a unitig of 11 k-mers, because the mapping given to [add] has
    [size = 8 + 7] and the shift is [um_dest.size = 8].  The claim expects
    0, 1, 2, 3, 11, 12, 13 (7 k-mers, shift 4). *)
Theorem joinColors_scenario_k5 :
  to_list (load (Examples.join_graph 5) (color_sets_at 0)) = [0; 1; 2; 3] /\
  to_list (load (Examples.join_graph 5) (color_sets_at 1)) = [3; 4; 5] /\
  getColorSet Examples.hash_seed (Examples.join_graph 5) (Examples.join_dest 5 true)
    = Some (color_sets_at 0) /\
  getColorSet Examples.hash_seed (Examples.join_graph 5) (Examples.join_src 5 true)
    = Some (color_sets_at 1) /\
  fst (joinColors Examples.hash_seed (UnitigColors_add 5) (UnitigColors_reverse 5)
         (Examples.join_graph 5) (Examples.join_dest 5 true)
         (Examples.join_src 5 true)) = true /\
  to_list (load (snd (joinColors Examples.hash_seed (UnitigColors_add 5)
                        (UnitigColors_reverse 5) (Examples.join_graph 5)
                        (Examples.join_dest 5 true) (Examples.join_src 5 true)))
             (color_sets_at 0))
    = [0; 1; 2; 3; 19; 20; 21] /\
  map (fun id => (id / 11, id mod 11)) [0; 1; 2; 3; 19; 20; 21]
    = [(0, 0); (0, 1); (0, 2); (0, 3); (1, 8); (1, 9); (1, 10)].
Proof. repeat split; vm_compute; reflexivity. Qed.

(** ** extractColors *)

(** C4: with k = 2, a unitig of 4 k-mers holding the ids 0, 1, 2, 3, 6, 7
    (colour 0 on positions 0..3, colour 1 on positions 2 and 3) and a
    mapping with [dist = 1] and [len = 2], [extractColors] returns the ids
    0, 1, 2: the mapping given to [add] has [size = um.len = 2], that is
    [2 - k + 1 = 1] k-mer, so colour 1 at position 1 becomes the id 2.  The
    claim expects 0, 1, 3 (2 k-mers).  With k = 5 the k-mer count
    [2 - 5 + 1] wraps around. *)
Theorem extractColors_scenario :
  to_list (load (Examples.extract_graph 2) (color_sets_at 0)) = [0; 1; 2; 3; 6; 7] /\
  getColorSet Examples.hash_seed (Examples.extract_graph 2) (Examples.extract_um 2)
    = Some (color_sets_at 0) /\
  to_list (extractColors Examples.hash_seed (UnitigColors_add 2)
             (Examples.extract_graph 2) (Examples.extract_um 2)) = [0; 1; 2] /\
  to_list (extractColors Examples.hash_seed (UnitigColors_add 5)
             (Examples.extract_graph 5) (Examples.extract_um 5))
    = [0; 1; 4294967295].
Proof. repeat split; vm_compute; reflexivity. Qed.

(** ** mapColors *)

Section MapColors_properties.

Variable hash : Kmer -> Z -> Z.
Variable add : UnitigColors -> UnitigMap.t -> Z -> UnitigColors.
Variable find : ColoredCDBG -> Kmer -> UnitigMap.t.
Variable lcp : ColoredCDBG -> UnitigMap.t -> string -> Z -> Z -> bool -> Z.
Variable KmerIterator : string -> list (Kmer * Z).

Lemma worker_read_color x file_id : forall its skip g calls,
  Forall (fun c => call_color_id c = file_id) calls ->
  Forall (fun c => call_color_id c = file_id)
    (snd (worker_read hash add find lcp x file_id skip its g calls)).
Proof.
  induction its as [|it_km its IH]; intros skip g calls Hc; [exact Hc|].
  cbn [worker_read]. destruct skip as [|skip]; [|apply IH; exact Hc].
  destruct (negb (UnitigMap.isEmpty (find g (fst it_km)))); [|apply IH; exact Hc].
  destruct (UnitigMap.strand (find g (fst it_km))
            || negb (UnitigMap.dist (find g (fst it_km)) =? 0));
    apply IH; apply Forall_app; (split; [exact Hc|]); repeat constructor.
Qed.

Lemma worker_function_color file_id : forall reads g calls,
  Forall (fun c => call_color_id c = file_id) calls ->
  Forall (fun c => call_color_id c = file_id)
    (snd (worker_function hash add find lcp KmerIterator file_id reads g calls)).
Proof.
  unfold worker_function. induction reads as [|x reads IH]; intros g calls Hc; [exact Hc|].
  cbn [fold_left fst snd].
  destruct (worker_read hash add find lcp x file_id 0 (KmerIterator x) g calls)
    as [g' calls'] eqn:E.
  apply IH. pose proof (worker_read_color x file_id (KmerIterator x) 0 g calls Hc) as H.
  rewrite E in H. exact H.
Qed.

(** Whatever the reads of a chunk and their files, every call of [setColor]
    made for the chunk has the one value that [file_id] holds when the
    workers run. *)
Lemma run_workers_color file_id batch_size leftover : forall threads i rit g calls,
  Forall (fun c => call_color_id c = file_id) calls ->
  Forall (fun c => call_color_id c = file_id)
    (snd (run_workers hash add find lcp KmerIterator threads i batch_size leftover
            rit file_id g calls)).
Proof.
  induction threads as [|threads IH]; intros i rit g calls Hc; [exact Hc|].
  cbn [run_workers].
  pose proof (worker_function_color file_id
                (take (Z.to_nat (batch_size + (if i <? leftover then 1 else 0))) rit)
                g calls Hc) as H.
  destruct (worker_function hash add find lcp KmerIterator file_id
              (take (Z.to_nat (batch_size + (if i <? leftover then 1 else 0))) rit)
              g calls) as [g' calls'].
  apply IH. exact H.
Qed.

End MapColors_properties.

(** C1: two files of one sequence each, read in one chunk
    ([read_chunksize = 2], one thread).  [file_id] is one variable shared by
    the reader and the workers, and the reads of a chunk are stored without
    their file index: both sequences are coloured with the index of the file
    read last, so the sequence of file 0 gets colour 1. *)
Theorem mapColors_chunk_over_two_files :
  exists g',
    mapColors Examples.hash_seed (UnitigColors_add 5) Examples.find_head
      Examples.lcp_none Examples.one_kmer 2 1 Examples.two_files
      Examples.two_kmers_graph
    = Some (g', [ mkCall "ACGTA" (UnitigMap.new 0 0 1 5 false false true) 1;
                  mkCall "CCGTA" (UnitigMap.new 1 0 1 5 false false true) 1 ]) /\
    to_list (load g' (color_sets_at 0)) = [1] /\
    to_list (load g' (color_sets_at 1)) = [1].
Proof. eexists. repeat split; vm_compute; reflexivity. Qed.

(** ** initColorSets *)

Lemma lookup_same_map {A B} (f : A -> B) (l l' : list A) i :
  map f l = map f l' -> f <$> (l !! i) = f <$> (l' !! i).
Proof.
  intros H. rewrite <- !list_lookup_fmap. change (fmap f l) with (map f l).
  change (fmap f l') with (map f l'). rewrite H. reflexivity.
Qed.

Lemma unitig_at_shape g g' um :
  shape g = shape g' ->
  (fun u => (head_kmer u, seq_size u)) <$> unitig_at g um
  = (fun u => (head_kmer u, seq_size u)) <$> unitig_at g' um.
Proof.
  unfold shape. intros [= _ _ _ H1 H2 H3]. unfold unitig_at.
  destruct (UnitigMap.isShort um); [|destruct (UnitigMap.isAbundant um)];
    apply lookup_same_map; assumption.
Qed.

Lemma getHead_shape g g' um : shape g = shape g' -> getHead g um = getHead g' um.
Proof.
  intros H. unfold getHead. destruct (negb (UnitigMap.isEmpty um)); [|reflexivity].
  pose proof (unitig_at_shape g g' um H) as E.
  destruct (unitig_at g um), (unitig_at g' um); cbn in E; congruence.
Qed.

Lemma imap_same_map {A B C} (F : nat -> B -> C) (f : A -> B) (l l' : list A) :
  map f l = map f l' -> imap (fun i u => F i (f u)) l = imap (fun i u => F i (f u)) l'.
Proof.
  intros H.
  change (imap (λ i u, F i (f u)) l) with (imap (λ i, F i ∘ f) l).
  change (imap (λ i u, F i (f u)) l') with (imap (λ i, F i ∘ f) l').
  rewrite <- !imap_fmap. change (fmap f l) with (map f l).
  change (fmap f l') with (map f l'). rewrite H. reflexivity.
Qed.

Lemma unitigs_shape g g' : shape g = shape g' -> unitigs g = unitigs g'.
Proof.
  unfold shape. intros [= Hk _ _ H1 H2 H3]. unfold unitigs, getK. rewrite Hk.
  f_equal; [|f_equal].
  - apply (imap_same_map
             (fun i p => UnitigMap.new (Z.of_nat i) 0 (snd p - k_ g' + 1) (snd p) false false true)
             (fun u => (head_kmer u, seq_size u))). assumption.
  - apply (imap_same_map
             (fun i p => UnitigMap.new (Z.of_nat i) 0 1 (k_ g') true false true)
             (fun u => (head_kmer u, seq_size u))). assumption.
  - apply (imap_same_map
             (fun i p => UnitigMap.new (Z.of_nat i) 0 1 (k_ g') false true true)
             (fun u => (head_kmer u, seq_size u))). assumption.
Qed.

Lemma map_alter_setData (l : list Unitig) i h :
  map (fun u => (head_kmer u, seq_size u)) (alter (fun u => Unitig_setData u h) i l)
  = map (fun u => (head_kmer u, seq_size u)) l.
Proof.
  revert i. induction l as [|u l IH]; intros [|i]; cbn; try reflexivity.
  f_equal. apply IH.
Qed.

Lemma shape_setData g um h : shape (setData g um h) = shape g.
Proof.
  unfold setData, shape.
  destruct (UnitigMap.isEmpty um); [reflexivity|].
  destruct (UnitigMap.isShort um); [|destruct (UnitigMap.isAbundant um)];
    cbn; rewrite map_alter_setData; reflexivity.
Qed.

Lemma getData_setData g um um' h :
  UnitigMap.isEmpty um = false -> UnitigMap.isEmpty um' = false ->
  getData (setData g um h) um' =
    if bool_decide (um_kind um = um_kind um' /\ um_index um = um_index um')
    then match unitig_at g um' with Some _ => h | None => 0 end
    else getData g um'.
Proof.
  intros He He'. unfold getData, setData, unitig_at, um_kind, um_index.
  rewrite He, He'.
  destruct (UnitigMap.isShort um), (UnitigMap.isAbundant um),
    (UnitigMap.isShort um'), (UnitigMap.isAbundant um'); cbn [v_unitigs v_kmers h_kmers_ccov];
  try (rewrite bool_decide_eq_false_2 by (intros [? ?]; discriminate); reflexivity);
  (destruct (decide (Z.to_nat (UnitigMap.pos_unitig um) = Z.to_nat (UnitigMap.pos_unitig um'))) as [E|E];
   [ rewrite bool_decide_eq_true_2 by (split; [reflexivity|assumption]);
     rewrite E, list_lookup_alter_eq;
     match goal with |- context [?l !! ?i] => destruct (l !! i) end; reflexivity
   | rewrite bool_decide_eq_false_2 by (intros [? ?]; contradiction);
     rewrite list_lookup_alter_ne by assumption; reflexivity ]).
Qed.

Lemma unitigs_lookup g i um :
  unitigs g !! i = Some um ->
  UnitigMap.isEmpty um = false /\ is_Some (unitig_at g um) /\
  ((i < length (v_unitigs g))%nat /\ um_kind um = 0%nat /\ um_index um = i \/
   (length (v_unitigs g) <= i)%nat /\ um_kind um = 1%nat /\
     um_index um = (i - length (v_unitigs g))%nat \/
   (length (v_unitigs g) + length (v_kmers g) <= i)%nat /\ um_kind um = 2%nat /\
     um_index um = (i - length (v_unitigs g) - length (v_kmers g))%nat).
Proof.
  unfold unitigs. intros H.
  apply lookup_app_Some in H as [H | [H1 H]].
  - apply list_lookup_imap_Some in H as (u & Hu & ->).
    unfold unitig_at, um_kind, um_index. cbn.
    rewrite Nat2Z.id. split; [reflexivity|]. split; [eauto|]. left.
    apply lookup_lt_Some in Hu. auto.
  - rewrite length_imap in H1, H.
    apply lookup_app_Some in H as [H | [H2 H]].
    + apply list_lookup_imap_Some in H as (u & Hu & ->).
      unfold unitig_at, um_kind, um_index. cbn.
      rewrite Nat2Z.id. split; [reflexivity|]. split; [eauto|]. right; left. auto.
    + rewrite length_imap in H2, H.
      apply list_lookup_imap_Some in H as (u & Hu & ->).
      unfold unitig_at, um_kind, um_index. cbn.
      rewrite Nat2Z.id. split; [reflexivity|]. split; [eauto|]. right; right.
      split; [lia|]. split; [reflexivity|lia].
Qed.

Lemma unitigs_entry_inj g i j u v :
  unitigs g !! i = Some u -> unitigs g !! j = Some v ->
  um_kind u = um_kind v -> um_index u = um_index v -> i = j.
Proof.
  intros Hi Hj Hk Hx.
  destruct (unitigs_lookup g i u Hi) as (_ & _ & Ci).
  destruct (unitigs_lookup g j v Hj) as (_ & _ & Cj).
  destruct Ci as [Ci | [Ci | Ci]], Cj as [Cj | [Cj | Cj]]; lia.
Qed.

Lemma length_unitigs g : Z.of_nat (length (unitigs g)) = CompactedDBG_size g.
Proof.
  unfold unitigs, CompactedDBG_size. rewrite !length_app, !length_imap. lia.
Qed.

Section InitColorSets_properties.

Variable hash : Kmer -> Z -> Z.

Lemma initColorSets_probe_spec g head fuel : forall i h,
  let r := initColorSets_probe hash g head fuel i h in
  fst r = i + Z.of_nat fuel \/
  (i <= fst r < i + Z.of_nat fuel /\
   snd r = hash head (seed_at g (fst r)) mod nb_color_sets g /\
   isUnoccupied (color_sets_get g (snd r)) = true).
Proof.
  induction fuel as [|fuel IH]; intros i h; cbn [initColorSets_probe].
  - left. cbn. lia.
  - destruct (isUnoccupied (color_sets_get g (hash head (seed_at g i) mod nb_color_sets g)))
      eqn:E; cbn zeta.
    + right. cbn [fst snd]. split; [lia|]. split; [reflexivity|assumption].
    + specialize (IH (i + 1) (hash head (seed_at g i) mod nb_color_sets g)).
      cbn zeta in IH. destruct IH as [IH | (IH1 & IH2 & IH3)].
      * left. lia.
      * right. split; [lia|]. split; assumption.
Qed.

Lemma slot_of_eq g g' um :
  shape g = shape g' -> getData g um = getData g' um ->
  slot_of hash g um = slot_of hash g' um.
Proof.
  intros Hs Hd. unfold slot_of, seed_at.
  rewrite (getHead_shape g g' um Hs), Hd.
  unfold shape in Hs. injection Hs as _ Hseeds Hnb _ _ _.
  rewrite Hseeds, Hnb. reflexivity.
Qed.

Lemma isOccupied_setOccupied c : isOccupied (setOccupied c) = true.
Proof.
  unfold setOccupied. destruct (isUnoccupied c) eqn:E; [reflexivity|].
  unfold isOccupied. unfold isUnoccupied in E. rewrite E. reflexivity.
Qed.

Lemma isOccupied_isUnoccupied c : isOccupied c = negb (isUnoccupied c).
Proof. reflexivity. Qed.

Lemma load_array_insert g a s c s' :
  color_sets g = Some a ->
  load (store g (color_sets_at s) c) (color_sets_at s')
  = if decide (s = s') then (if decide (s < length a)%nat then c else UnitigColors_new)
    else load g (color_sets_at s').
Proof.
  intros Ha. cbn [store load]. rewrite Ha. cbn [with_color_sets color_sets].
  destruct (decide (s = s')) as [<-|Hne].
  - destruct (decide (s < length a)%nat) as [Hlt|Hge].
    + rewrite list_lookup_insert_eq by assumption. reflexivity.
    + rewrite list_insert_ge by lia. rewrite lookup_ge_None_2 by lia. reflexivity.
  - rewrite list_lookup_insert_ne by assumption. reflexivity.
Qed.


Lemma KmerHashTable_insert_is_Some (m : gmap Kmer UnitigColors) km c km' :
  is_Some (KmerHashTable_insert m km c !! km') <-> km' = km \/ is_Some (m !! km').
Proof.
  unfold KmerHashTable_insert. destruct (m !! km) eqn:E.
  - split; [auto|]. intros [-> | H]; [rewrite E; eauto | assumption].
  - destruct (decide (km = km')) as [<- | Hne].
    + rewrite lookup_insert_eq. split; [auto|eauto].
    + rewrite lookup_insert_ne by assumption.
      split; [auto|]. intros [-> | H]; [contradiction|assumption].
Qed.

Lemma initColorSets_unitig_facts H g1 g done um a :
  0 <= H <= 255 ->
  nb_color_sets g1 = Z.of_nat (length (unitigs g1)) ->
  shape g = shape g1 ->
  color_sets g = Some a -> length a = length (unitigs g1) ->
  unitigs g1 !! done = Some um ->
  let g' := initColorSets_unitig hash H g um in
  shape g' = shape g /\
  (forall i u, i <> done -> unitigs g1 !! i = Some u -> getData g' u = getData g u) /\
  ((getData g' um = 0 /\ color_sets g' = color_sets g /\
    km_overflow g' = KmerHashTable_insert (km_overflow g) (getHead g um) UnitigColors_new) \/
   (1 <= getData g' um <= H /\ km_overflow g' = km_overflow g /\
    (slot_of hash g' um < length a)%nat /\
    isUnoccupied (load g (color_sets_at (slot_of hash g' um))) = true /\
    color_sets g' =
      Some (<[slot_of hash g' um :=
                setOccupied (load g (color_sets_at (slot_of hash g' um)))]> a))).
Proof.
  intros HH Hnb Hs Ha Hlen Hum.
  destruct (unitigs_lookup g1 done um Hum) as (He & Hvalid & _).
  assert (Hvalid' : is_Some (unitig_at g um)).
  { pose proof (unitig_at_shape g g1 um Hs) as E.
    destruct Hvalid as [u1 Hu1]. rewrite Hu1 in E.
    destruct (unitig_at g um); [eauto | discriminate]. }
  assert (Hother : forall hid i u, i <> done -> unitigs g1 !! i = Some u ->
            getData (setData g um hid) u = getData g u).
  { intros hid i u Hne Hu.
    destruct (unitigs_lookup g1 i u Hu) as (Heu & _ & _).
    rewrite getData_setData by assumption.
    rewrite bool_decide_eq_false_2; [reflexivity|].
    intros [Hk Hx]. apply Hne. symmetry.
    exact (unitigs_entry_inj g1 done i um u Hum Hu Hk Hx). }
  assert (Hself : forall hid, getData (setData g um hid) um = hid).
  { intros hid. rewrite getData_setData by assumption.
    rewrite bool_decide_eq_true_2 by (split; reflexivity).
    destruct Hvalid' as [u0 ->]. reflexivity. }
  assert (Hpos : 0 < nb_color_sets g).
  { unfold shape in Hs. injection Hs as _ _ Hn _ _ _. rewrite Hn, Hnb.
    apply lookup_lt_Some in Hum. lia. }
  assert (Hnbg : nb_color_sets g = Z.of_nat (length a)).
  { unfold shape in Hs. injection Hs as _ _ Hn _ _ _. rewrite Hn, Hnb, Hlen. reflexivity. }
  intros g'. subst g'. unfold initColorSets_unitig.
  pose proof (initColorSets_probe_spec g (getHead g um) (Z.to_nat H) 0 0) as Hp.
  cbn zeta in Hp. rewrite Z2Nat.id in Hp by lia.
  destruct (initColorSets_probe hash g (getHead g um) (Z.to_nat H) 0 0) as [i h_v].
  cbn [fst snd] in Hp. destruct Hp as [Hp | (Hi & Hh & Hun)].
  - subst i. rewrite Z.eqb_refl. change (0 mod 2 ^ 8) with 0.
    split; [apply shape_setData|]. split; [intros i u Hne Hu; apply (Hother 0 i u Hne Hu)|].
    left. split; [apply (Hself 0)|]. split; [|f_equal]; unfold setData; rewrite He;
      destruct (UnitigMap.isShort um), (UnitigMap.isAbundant um); reflexivity.
  - destruct (Z.eqb_spec i H) as [E|_]; [lia|].
    assert (Hhid : (i + 1) mod 2 ^ 8 = i + 1) by (apply Z.mod_small; lia).
    rewrite Hhid.
    set (g2 := setData g um (i + 1)).
    assert (Hs2 : shape g2 = shape g) by apply shape_setData.
    assert (Hc2 : color_sets g2 = color_sets g).
    { unfold g2, setData. rewrite He.
      destruct (UnitigMap.isShort um), (UnitigMap.isAbundant um); reflexivity. }
    assert (Ho2 : km_overflow g2 = km_overflow g).
    { unfold g2, setData. rewrite He.
      destruct (UnitigMap.isShort um), (UnitigMap.isAbundant um); reflexivity. }
    set (g' := store g2 (color_sets_at (Z.to_nat h_v))
                 (setOccupied (color_sets_get g2 h_v))).
    assert (Hs' : shape g' = shape g).
    { rewrite <- Hs2. unfold g'. cbn [store]. destruct (color_sets g2); reflexivity. }
    assert (Hd' : forall u, getData g' u = getData g2 u).
    { intros u. unfold g'. cbn [store]. destruct (color_sets g2); reflexivity. }
    assert (Hslot : slot_of hash g' um = Z.to_nat h_v).
    { unfold slot_of, seed_at. rewrite (getHead_shape g' g um Hs'), Hd'.
      unfold g2. rewrite Hself.
      unfold shape in Hs'. injection Hs' as _ Hse Hn _ _ _. rewrite Hse, Hn.
      replace (i + 1 - 1) with i by lia. rewrite Hh. reflexivity. }
    assert (Hrange : 0 <= h_v < nb_color_sets g).
    { rewrite Hh. apply Z.mod_pos_bound. assumption. }
    assert (Hload : color_sets_get g2 h_v = load g (color_sets_at (Z.to_nat h_v))).
    { unfold color_sets_get. cbn [load]. rewrite Hc2. reflexivity. }
    split; [exact Hs'|].
    split; [intros j u Hne Hu; rewrite Hd'; apply (Hother (i + 1) j u Hne Hu)|].
    right. rewrite Hd'. unfold g2 at 1 2. rewrite Hself.
    split; [lia|]. rewrite Hslot.
    split; [unfold g'; cbn [store]; rewrite Hc2, Ha; exact Ho2|].
    split; [lia|].
    split; [exact Hun|].
    unfold g'. cbn [store]. rewrite Hc2, Ha. cbn [with_color_sets color_sets].
    rewrite Hload. reflexivity.
Qed.

Lemma init_inv_step H g1 g done um :
  0 <= H <= 255 ->
  nb_color_sets g1 = Z.of_nat (length (unitigs g1)) ->
  init_inv hash H g1 (unitigs g1) g done ->
  unitigs g1 !! done = Some um ->
  init_inv hash H g1 (unitigs g1) (initColorSets_unitig hash H g um) (S done).
Proof.
  intros HH Hnb (Hs & (a & Ha & Hlen) & I3 & I4 & I5) Hum.
  destruct (initColorSets_unitig_facts H g1 g done um a HH Hnb Hs Ha Hlen Hum)
    as (Hs' & Hother & Hcase).
  set (g' := initColorSets_unitig hash H g um) in *.
  assert (Hslot : forall i u, i <> done -> unitigs g1 !! i = Some u ->
            slot_of hash g' u = slot_of hash g u).
  { intros i u Hne Hu. apply slot_of_eq; [assumption|]. apply (Hother i u Hne Hu). }
  assert (Hhead : forall u, getHead g' u = getHead g u).
  { intros u. apply getHead_shape. assumption. }
  assert (Hdone : forall i u, (i < S done)%nat -> unitigs g1 !! i = Some u ->
            i = done /\ u = um \/ (i < done)%nat /\ i <> done).
  { intros i u Hi Hu. destruct (decide (i = done)) as [-> | Hne].
    - left. split; [reflexivity | congruence].
    - right. lia. }
  unfold init_inv. split; [congruence|].
  destruct Hcase as [(Hd0 & Hcs & Hov) | (Hd1 & Hov & Hlt & Hun & Hcs)].
  - (* overflow *)
    split; [exists a; split; [congruence | assumption]|].
    assert (Hload : forall s, load g' (color_sets_at s) = load g (color_sets_at s)).
    { intros s0. cbn [load]. rewrite Hcs. reflexivity. }
    split; [|split].
    + intros i u Hi Hu Hnz.
      destruct (Hdone i u Hi Hu) as [[-> ->] | [Hlt Hne]]; [contradiction|].
      rewrite (Hother i u Hne Hu) in *. rewrite (Hslot i u Hne Hu), Hload.
      apply (I3 i u Hlt Hu Hnz).
    + intros i j u v Hi Hj Hu Hv Hnu Hnv Heq.
      destruct (Hdone i u Hi Hu) as [[-> ->] | [Hlti Hnei]]; [contradiction|].
      destruct (Hdone j v Hj Hv) as [[-> ->] | [Hltj Hnej]]; [contradiction|].
      rewrite (Hother i u Hnei Hu) in Hnu. rewrite (Hother j v Hnej Hv) in Hnv.
      rewrite (Hslot i u Hnei Hu), (Hslot j v Hnej Hv) in Heq.
      apply (I4 i j u v); assumption.
    + intros km. rewrite Hov, KmerHashTable_insert_is_Some, I5. split.
      * intros [-> | (i & u & Hi & Hu & Hd & Hh)].
        -- exists done, um. repeat split; [lia | assumption | assumption | apply Hhead].
        -- exists i, u. assert (i <> done) by lia.
           repeat split; [lia | assumption | | rewrite Hhead; assumption].
           rewrite (Hother i u) by assumption. assumption.
      * intros (i & u & Hi & Hu & Hd & Hh).
        destruct (Hdone i u Hi Hu) as [[-> ->] | [Hlt Hne]].
        -- left. rewrite <- Hh. apply Hhead.
        -- right. exists i, u. repeat split; try assumption.
           ++ rewrite <- (Hother i u) by assumption. assumption.
           ++ rewrite <- Hhead. assumption.
  - (* a slot of the array *)
    set (s := slot_of hash g' um) in *.
    split; [exists (<[s := setOccupied (load g (color_sets_at s))]> a);
            split; [assumption | rewrite length_insert; assumption]|].
    assert (Hload : forall s', load g' (color_sets_at s') =
              if decide (s = s') then setOccupied (load g (color_sets_at s))
              else load g (color_sets_at s')).
    { intros s'. destruct (decide (s = s')) as [<- | Hne].
      - remember (setOccupied (load g (color_sets_at s))) as c0 eqn:Ec0.
        cbn [load]. rewrite Hcs.
        rewrite list_lookup_insert_eq by assumption. reflexivity.
      - cbn [load]. rewrite Hcs, Ha.
        rewrite list_lookup_insert_ne by assumption. reflexivity. }
    assert (Hocc : forall i u, (i < done)%nat -> unitigs g1 !! i = Some u ->
              getData g u <> 0 -> slot_of hash g u <> s).
    { intros i u Hi Hu Hnz Heq. destruct (I3 i u Hi Hu Hnz) as [_ Ho].
      rewrite Heq, isOccupied_isUnoccupied, Hun in Ho. discriminate. }
    split; [|split].
    + intros i u Hi Hu Hnz.
      destruct (Hdone i u Hi Hu) as [[-> ->] | [Hlti Hne]].
      * split; [assumption|]. fold s. rewrite Hload.
        destruct (decide (s = s)); [|contradiction]. apply isOccupied_setOccupied.
      * rewrite (Hother i u Hne Hu) in *. rewrite (Hslot i u Hne Hu), Hload.
        destruct (I3 i u Hlti Hu Hnz) as [Hr Ho]. split; [assumption|].
        destruct (decide (s = slot_of hash g u)); [apply isOccupied_setOccupied|assumption].
    + intros i j u v Hi Hj Hu Hv Hnu Hnv Heq.
      destruct (Hdone i u Hi Hu) as [[-> ->] | [Hlti Hnei]];
        destruct (Hdone j v Hj Hv) as [[-> ->] | [Hltj Hnej]].
      * reflexivity.
      * exfalso. rewrite (Hother j v Hnej Hv) in Hnv.
        rewrite (Hslot j v Hnej Hv) in Heq. fold s in Heq.
        apply (Hocc j v Hltj Hv Hnv). congruence.
      * exfalso. rewrite (Hother i u Hnei Hu) in Hnu.
        rewrite (Hslot i u Hnei Hu) in Heq. fold s in Heq.
        apply (Hocc i u Hlti Hu Hnu). congruence.
      * rewrite (Hother i u Hnei Hu) in Hnu. rewrite (Hother j v Hnej Hv) in Hnv.
        rewrite (Hslot i u Hnei Hu), (Hslot j v Hnej Hv) in Heq.
        apply (I4 i j u v); assumption.
    + intros km. rewrite Hov, I5. split.
      * intros (i & u & Hi & Hu & Hd & Hh). exists i, u. assert (i <> done) by lia.
        repeat split; [lia | assumption | | rewrite Hhead; assumption].
        rewrite (Hother i u) by assumption. assumption.
      * intros (i & u & Hi & Hu & Hd & Hh).
        destruct (Hdone i u Hi Hu) as [[-> ->] | [Hlti Hne]]; [lia|].
        exists i, u. repeat split; try assumption.
        -- rewrite <- (Hother i u) by assumption. assumption.
        -- rewrite <- Hhead. assumption.
Qed.

Lemma init_inv_fold H g1 : 
  0 <= H <= 255 ->
  nb_color_sets g1 = Z.of_nat (length (unitigs g1)) ->
  forall todo done g,
  drop done (unitigs g1) = todo ->
  init_inv hash H g1 (unitigs g1) g done ->
  init_inv hash H g1 (unitigs g1) (fold_left (initColorSets_unitig hash H) todo g)
    (done + length todo).
Proof.
  intros HH Hnb. induction todo as [|um todo IH]; intros done g Hdrop Hinv.
  - cbn. rewrite Nat.add_0_r. assumption.
  - cbn [fold_left length].
    assert (Hum : unitigs g1 !! done = Some um).
    { pose proof (lookup_drop (unitigs g1) done 0) as E. rewrite Hdrop in E.
      rewrite Nat.add_0_r in E. symmetry. exact E. }
    replace (done + S (length todo))%nat with (S done + length todo)%nat by lia.
    apply IH.
    + pose proof (drop_S _ _ _ Hum) as E. rewrite Hdrop in E. congruence.
    + apply init_inv_step; assumption.
Qed.

End InitColorSets_properties.

Lemma init_inv_start hash H g0 :
  km_overflow g0 = ∅ ->
  let g1 :=
    {| k_ := k_ g0; v_unitigs := v_unitigs g0; v_kmers := v_kmers g0;
       h_kmers_ccov := h_kmers_ccov g0;
       color_sets := Some (replicate (Z.to_nat (CompactedDBG_size g0)) UnitigColors_new);
       nb_color_sets := CompactedDBG_size g0; seeds := seeds g0;
       km_overflow := km_overflow g0 |} in
  nb_color_sets g1 = Z.of_nat (length (unitigs g1)) /\
  init_inv hash H g1 (unitigs g1) g1 0.
Proof.
  intros Hov g1.
  assert (Hn : nb_color_sets g1 = Z.of_nat (length (unitigs g1))).
  { rewrite length_unitigs. reflexivity. }
  split; [exact Hn|]. unfold init_inv. split; [reflexivity|].
  split.
  { eexists. split; [reflexivity|]. rewrite length_replicate.
    change (CompactedDBG_size g0) with (nb_color_sets g1). rewrite Hn. apply Nat2Z.id. }
  split; [intros; lia|]. split; [intros; lia|].
  intros km. cbn [km_overflow g1]. rewrite Hov, lookup_empty. split.
  - intros [x Hx]. discriminate.
  - intros (i & _ & Hi & _). lia.
Qed.

(** C7: after [initColorSets] (at most 255 hash functions, overflow table
    empty before the call), with U the number of unitigs: a unitig whose
    byte [a] is not 0 has [1 <= a <= max_nb_hash], [getColorSet] resolves it
    to the slot [hash(head, seeds[a-1]) % U] of the array, and that slot is
    occupied; two unitigs with non-zero bytes that resolve to the same slot
    are the same unitig; and the keys of the overflow table are exactly the
    head k-mers of the unitigs whose byte is 0. *)
Theorem initColorSets_invariants hash max_nb_hash g0 :
  0 <= max_nb_hash <= 255 ->
  km_overflow g0 = ∅ ->
  nb_color_sets (initColorSets hash max_nb_hash g0) = CompactedDBG_size g0 /\
  unitigs (initColorSets hash max_nb_hash g0) = unitigs g0 /\
  (forall u, In u (unitigs (initColorSets hash max_nb_hash g0)) ->
     getData (initColorSets hash max_nb_hash g0) u <> 0 ->
     1 <= getData (initColorSets hash max_nb_hash g0) u <= max_nb_hash /\
     getColorSet hash (initColorSets hash max_nb_hash g0) u
       = Some (color_sets_at (slot_of hash (initColorSets hash max_nb_hash g0) u)) /\
     exists a c,
       color_sets (initColorSets hash max_nb_hash g0) = Some a /\
       a !! slot_of hash (initColorSets hash max_nb_hash g0) u = Some c /\
       isOccupied c = true) /\
  (forall i j u v,
     unitigs (initColorSets hash max_nb_hash g0) !! i = Some u ->
     unitigs (initColorSets hash max_nb_hash g0) !! j = Some v ->
     getData (initColorSets hash max_nb_hash g0) u <> 0 ->
     getData (initColorSets hash max_nb_hash g0) v <> 0 ->
     slot_of hash (initColorSets hash max_nb_hash g0) u
       = slot_of hash (initColorSets hash max_nb_hash g0) v ->
     i = j) /\
  (forall km,
     is_Some (km_overflow (initColorSets hash max_nb_hash g0) !! km) <->
     exists u, In u (unitigs (initColorSets hash max_nb_hash g0)) /\
               getData (initColorSets hash max_nb_hash g0) u = 0 /\
               getHead (initColorSets hash max_nb_hash g0) u = km).
Proof.
  intros HH Hov.
  destruct (init_inv_start hash max_nb_hash g0 Hov) as [Hn Hinv0].
  cbv zeta in Hn, Hinv0.
  unfold initColorSets.
  set (g1 := {| k_ := k_ g0; v_unitigs := v_unitigs g0; v_kmers := v_kmers g0;
                h_kmers_ccov := h_kmers_ccov g0;
                color_sets := Some (replicate (Z.to_nat (CompactedDBG_size g0))
                                      UnitigColors_new);
                nb_color_sets := CompactedDBG_size g0; seeds := seeds g0;
                km_overflow := km_overflow g0 |}) in *.
  pose proof (init_inv_fold hash max_nb_hash g1 HH Hn (unitigs g1) 0%nat g1
                (drop_0 _) Hinv0) as Hinv.
  cbn [Nat.add] in Hinv.
  set (g := fold_left (initColorSets_unitig hash max_nb_hash) (unitigs g1) g1) in *.
  destruct Hinv as (Hs & (a & Ha & Hlen) & I3 & I4 & I5).
  assert (Hums : unitigs g = unitigs g1) by (apply unitigs_shape; exact Hs).
  assert (Hnb : nb_color_sets g = CompactedDBG_size g0).
  { unfold shape in Hs. injection Hs as _ _ Hnb _ _ _. exact Hnb. }
  assert (Hlookup : forall i u, unitigs g1 !! i = Some u ->
            (i < length (unitigs g1))%nat).
  { intros i u Hu. apply lookup_lt_Some in Hu. exact Hu. }
  split; [exact Hnb|]. split; [rewrite Hums; reflexivity|].
  rewrite Hums. split; [|split].
  - intros u Hin Hnz. apply list_elem_of_In, list_elem_of_lookup in Hin as [i Hi].
    destruct (I3 i u (Hlookup i u Hi) Hi Hnz) as [Hr Ho].
    split; [exact Hr|].
    destruct (unitigs_lookup g1 i u Hi) as (He & _ & _).
    split.
    + unfold getColorSet, slot_of. rewrite He, Ha.
      rewrite bool_decide_eq_true_2 by discriminate. cbn [negb andb].
      destruct (Z.eqb_spec (getData g u) 0) as [E|_]; [contradiction|]. reflexivity.
    + cbn [load] in Ho. rewrite Ha in Ho. exists a.
      destruct (a !! slot_of hash g u) as [c|] eqn:Ec; [|discriminate Ho].
      exists c. auto.
  - intros i j u v Hu Hv. apply (I4 i j u v); eauto.
  - intros km. rewrite I5. split.
    + intros (i & u & _ & Hu & Hd & Hh). exists u.
      split; [|auto]. apply list_elem_of_In, list_elem_of_lookup. eauto.
    + intros (u & Hin & Hd & Hh).
      apply list_elem_of_In, list_elem_of_lookup in Hin as [i Hi].
      exists i, u. eauto.
Qed.

Lemma initColorSets_invariants_witness :
  nb_color_sets (initColorSets Examples.hash_seed 2 Examples.three_unitigs) = 3 /\
  km_overflow (initColorSets Examples.hash_seed 2 Examples.three_unitigs) !! "ACGTA"
    = None /\
  is_Some (km_overflow (initColorSets Examples.hash_seed 2 Examples.three_unitigs)
             !! "CCGTA").
Proof.
  destruct (initColorSets_invariants Examples.hash_seed 2 Examples.three_unitigs
              ltac:(lia) eq_refl) as (Hn & _ & _ & _ & Hov).
  split; [exact Hn|]. split.
  - vm_compute. reflexivity.
  - apply Hov. exists (UnitigMap.new 0 0 1 5 true false true).
    vm_compute. auto.
Defined.

Lemma iteration_strictly_ascending_witness :
  exists l, colors bitmap_example = Some l /\ StronglySorted Z.lt l.
Proof.
  destruct (iteration_strictly_ascending bitmap_example) as (l & Hl & Hs & _).
  - split; [vm_compute; split; [discriminate | reflexivity]|].
    intros _. split; [repeat constructor; lia|].
    repeat constructor; vm_compute; congruence.
  - reflexivity.
  - exists l. split; assumption.
Defined.

(** * Further properties *)

(** ** Iterator and ColorKmer_ID *)

(** X1: Decoding inverts the encoding: for a colour c >= 0, a position p
    with 0 <= p < K and an id c*K + p below the all-ones value,
    getColorID(K) of the id c*K + p returns c and getKmerPosition(K) returns
    p, and neither logs an error. *)
Theorem ColorKmer_ID_round_trip (color_id km_pos K : Z) :
  0 <= color_id -> 0 <= km_pos < K -> color_id * K + km_pos < all_ones ->
  ColorKmer_ID.getColorID (color_id * K + km_pos) K = (color_id, []) /\
  ColorKmer_ID.getKmerPosition (color_id * K + km_pos) K = (km_pos, []).
Proof.
  intros Hc Hp Hlt. unfold ColorKmer_ID.getColorID, ColorKmer_ID.getKmerPosition.
  unfold all_ones in Hlt.
  destruct (Z.eqb_spec (color_id * K + km_pos) 0xffffffffffffffff) as [E|_]; [lia|].
  split; f_equal.
  - rewrite Z.div_add_l by lia. rewrite Z.div_small by lia. lia.
  - rewrite Z.add_comm, Z.mod_add by lia. apply Z.mod_small. lia.
Qed.

Lemma ColorKmer_ID_round_trip_witness :
  ColorKmer_ID.getColorID (1 * 4 + 2) 4 = (1, []) /\
  ColorKmer_ID.getKmerPosition (1 * 4 + 2) 4 = (2, []).
Proof. apply (ColorKmer_ID_round_trip 1 2 4); [lia | lia | unfold all_ones; lia]. Defined.

(** X2: Encoding inverts the decoding: for an id below the all-ones value
    and K > 0, getColorID(K) * K + getKmerPosition(K) is the id again, the
    position lies in [0, K) and the colour in [0, id]. *)
Theorem ColorKmer_ID_decode_encode (ck_id K : Z) :
  0 <= ck_id < all_ones -> 0 < K ->
  fst (ColorKmer_ID.getColorID ck_id K) * K + fst (ColorKmer_ID.getKmerPosition ck_id K)
    = ck_id /\
  0 <= fst (ColorKmer_ID.getKmerPosition ck_id K) < K /\
  0 <= fst (ColorKmer_ID.getColorID ck_id K) <= ck_id.
Proof.
  intros Hck HK. unfold ColorKmer_ID.getColorID, ColorKmer_ID.getKmerPosition.
  unfold all_ones in Hck.
  destruct (Z.eqb_spec ck_id 0xffffffffffffffff) as [E|_]; [lia|]. cbn [fst].
  pose proof (Z.div_mod ck_id K ltac:(lia)).
  pose proof (Z.mod_pos_bound ck_id K HK).
  assert (0 <= ck_id / K) by (apply Z.div_pos; lia).
  split; [lia|]. split; [lia|]. split; [lia|]. nia.
Qed.

Lemma ColorKmer_ID_decode_encode_witness :
  fst (ColorKmer_ID.getColorID 13 7) * 7 + fst (ColorKmer_ID.getKmerPosition 13 7) = 13.
Proof. apply (ColorKmer_ID_decode_encode 13 7); [unfold all_ones; lia | lia]. Defined.

Lemma UnitigColors_eqb_eq a b : UnitigColors_eqb a b = true <-> a = b.
Proof.
  unfold UnitigColors_eqb. rewrite andb_true_iff, Z.eqb_eq, bool_decide_eq_true.
  destruct a, b; cbn. split; [intros [-> ->]; reflexivity | intros [= -> ->]; auto].
Qed.

Lemma iter_eqb_true a b :
  iter_eqb a b = true <->
  cs a = cs b /\ flag a = flag b /\ cs_sz a = cs_sz b /\
  (if flag a =? ptrCompressedBitmap then it_roar a = it_roar b
   else it_setBits a = it_setBits b).
Proof.
  unfold iter_eqb. rewrite !andb_true_iff, UnitigColors_eqb_eq, !Z.eqb_eq.
  destruct (flag a =? ptrCompressedBitmap).
  - unfold Roaring.iter_eqb. rewrite Nat.eqb_eq. tauto.
  - rewrite Z.eqb_eq. tauto.
Qed.

Lemma iter_eqb_at_true pa a pb b :
  iter_eqb_at pa a pb b = true <->
  pa = pb /\ flag a = flag b /\ cs_sz a = cs_sz b /\
  (if flag a =? ptrCompressedBitmap then it_roar a = it_roar b
   else it_setBits a = it_setBits b).
Proof.
  unfold iter_eqb_at. rewrite !andb_true_iff, bool_decide_eq_true, !Z.eqb_eq.
  destruct (flag a =? ptrCompressedBitmap).
  - unfold Roaring.iter_eqb. rewrite Nat.eqb_eq. tauto.
  - rewrite Z.eqb_eq. tauto.
Qed.

(** X3: operator== of the iterator, which compares the addresses of the two
    containers, is an equivalence: reflexive, symmetric and transitive;
    operator!= is its negation, with the operands in either order; iterators
    over containers at two different addresses never compare equal, whatever
    the containers hold; and on two iterators over one container it is the
    comparison of the contents. *)
Theorem iter_eqb_at_equivalence :
  (forall p a, iter_eqb_at p a p a = true) /\
  (forall p a q b, iter_eqb_at p a q b = iter_eqb_at q b p a) /\
  (forall p a q b r c,
     iter_eqb_at p a q b = true -> iter_eqb_at q b r c = true ->
     iter_eqb_at p a r c = true) /\
  (forall p a q b, iter_neb_at p a q b = negb (iter_eqb_at q b p a)) /\
  (forall p a q b, p <> q -> iter_eqb_at p a q b = false) /\
  (forall p a b, cs a = cs b -> iter_eqb_at p a p b = iter_eqb a b).
Proof.
  assert (Hsym : forall p a q b, iter_eqb_at p a q b = true -> iter_eqb_at q b p a = true).
  { intros p a q b H. apply iter_eqb_at_true in H as (H1 & H2 & H3 & H4).
    apply iter_eqb_at_true. rewrite <- H2. repeat split; try congruence.
    destruct (flag a =? ptrCompressedBitmap); congruence. }
  assert (Hsym' : forall p a q b, iter_eqb_at p a q b = iter_eqb_at q b p a).
  { intros p a q b.
    destruct (iter_eqb_at p a q b) eqn:E1, (iter_eqb_at q b p a) eqn:E2;
      try reflexivity.
    - apply Hsym in E1. congruence.
    - apply Hsym in E2. congruence. }
  split; [|split; [|split; [|split; [|split]]]].
  - intros p a. apply iter_eqb_at_true. repeat split.
    destruct (flag a =? ptrCompressedBitmap); reflexivity.
  - exact Hsym'.
  - intros p a q b r c H1 H2.
    apply iter_eqb_at_true in H1 as (A1 & A2 & A3 & A4).
    apply iter_eqb_at_true in H2 as (B1 & B2 & B3 & B4).
    apply iter_eqb_at_true. rewrite <- A2 in B4. repeat split; try congruence.
    destruct (flag a =? ptrCompressedBitmap); congruence.
  - intros p a q b. unfold iter_neb_at. f_equal. apply Hsym'.
  - intros p a q b Hne. unfold iter_eqb_at.
    rewrite bool_decide_eq_false_2 by assumption. reflexivity.
  - intros p a b Hcs. unfold iter_eqb_at, iter_eqb.
    rewrite bool_decide_eq_true_2 by reflexivity.
    rewrite Hcs, UnitigColors_eqb_refl. reflexivity.
Qed.

Lemma iter_eqb_at_equivalence_witness :
  iter_eqb_at (color_sets_at 0) (begin bitmap_example)
    (color_sets_at 1) (begin bitmap_example) = false /\
  iter_eqb_at (color_sets_at 0) (begin bitmap_example)
    (color_sets_at 0) (end_ bitmap_example)
  = iter_eqb (begin bitmap_example) (end_ bitmap_example).
Proof.
  destruct iter_eqb_at_equivalence as (_ & _ & _ & _ & H5 & H6).
  split; [apply H5; discriminate | apply H6; reflexivity].
Defined.

(** X4: Incrementing the iterator made by end() changes nothing, in every
    state of the UnitigColors (the unoccupied one included): the result is
    the same iterator and compares equal to end(). *)
Theorem incr_end_is_end (c : UnitigColors) :
  incr (end_ c) = end_ c /\ iter_eqb (incr (end_ c)) (end_ c) = true.
Proof.
  assert (H : incr (end_ c) = end_ c).
  { unfold incr, end_, const_iterator_new. cbn [it_setBits cs_sz].
    rewrite Z.eqb_refl. reflexivity. }
  split; [exact H|]. rewrite H. apply iter_eqb_true. repeat split.
  destruct (flag (end_ c) =? ptrCompressedBitmap); reflexivity.
Qed.

(** X5: For a well-formed occupied UnitigColors, begin() compares equal to
    end() exactly when no id is stored in it. *)
Theorem begin_is_end_iff_empty (c : UnitigColors) :
  wf_UnitigColors c -> isOccupied c = true ->
  (iter_eqb (begin c) (end_ c) = true <-> forall x, ~ contains_id c x).
Proof.
  intros Hwf Hocc. destruct (colors_occupied c Hwf Hocc) as (l & Hl & _ & Hm).
  unfold colors in Hl. split.
  - intros E x Hx. apply Hm in Hx.
    destruct (Z.to_nat (cs_sz (end_ c))); cbn [iterate] in Hl; rewrite E in Hl;
      injection Hl as <-; exact Hx.
  - intros Hnone. destruct (iter_eqb (begin c) (end_ c)) eqn:E; [reflexivity|].
    exfalso. destruct (Z.to_nat (cs_sz (end_ c))); cbn [iterate] in Hl; rewrite E in Hl;
      [discriminate|].
    destruct (iterate n (incr (begin c)) (end_ c)); [|discriminate].
    injection Hl as <-. apply (Hnone (ck_id (begin c))), Hm. left. reflexivity.
Qed.

Lemma begin_is_end_iff_empty_witness :
  iter_eqb (begin bitmap_example) (end_ bitmap_example) = true <->
  forall x, ~ contains_id bitmap_example x.
Proof.
  apply (begin_is_end_iff_empty bitmap_example).
  - split; [vm_compute; split; [discriminate | reflexivity]|].
    intros _. split; [repeat constructor; lia|].
    repeat constructor; vm_compute; congruence.
  - reflexivity.
Defined.

(** ** Storage *)

Lemma colors_empty_bitvec bm :
  colors {| setBits := localBitVectorColor; bitmap := bm |} = Some [].
Proof. rewrite colors_bitvec by reflexivity. reflexivity. Qed.

(** X7: setOccupied turns an unoccupied UnitigColors into an occupied one
    that stores no id and is iterated as empty; it leaves an occupied
    UnitigColors as it is, so it is idempotent; setUnoccupied always gives
    an unoccupied UnitigColors, and setOccupied after setUnoccupied gives an
    empty one whatever was stored before. *)
Theorem setOccupied_claims_slot (c : UnitigColors) :
  (isUnoccupied c = true ->
     isOccupied (setOccupied c) = true /\
     colors (setOccupied c) = Some [] /\
     (forall x, ~ contains_id (setOccupied c) x)) /\
  (isOccupied c = true -> setOccupied c = c) /\
  setOccupied (setOccupied c) = setOccupied c /\
  isUnoccupied (setUnoccupied c) = true /\
  colors (setOccupied (setUnoccupied c)) = Some [].
Proof.
  split; [|split; [|split; [|split]]].
  - intros Hu. unfold setOccupied. rewrite Hu.
    split; [reflexivity|]. split; [apply colors_empty_bitvec|].
    intros x. unfold contains_id. cbn [setBits].
    change (Z.land localBitVectorColor flagMask =? ptrCompressedBitmap) with false.
    change (Z.land localBitVectorColor flagMask =? localBitVectorColor) with true.
    cbv iota. intros [Hx Hb]. unfold localBitVectorColor, maxBitVectorIDs in *.
    rewrite Z.bits_above_log2 in Hb; [discriminate | lia | cbn; lia].
  - unfold isOccupied, setOccupied, isUnoccupied. intros H.
    destruct (Z.land (setBits c) flagMask =? unoccupied); [discriminate|reflexivity].
  - unfold setOccupied at 1. destruct (isUnoccupied (setOccupied c)) eqn:E; [|reflexivity].
    pose proof (isOccupied_setOccupied c) as H. unfold isOccupied in H.
    unfold isUnoccupied in E. rewrite E in H. discriminate.
  - reflexivity.
  - apply colors_empty_bitvec.
Qed.

Lemma setOccupied_claims_slot_witness :
  colors (setOccupied UnitigColors_new) = Some [] /\
  setOccupied bitmap_example = bitmap_example.
Proof.
  destruct (setOccupied_claims_slot UnitigColors_new) as [H _].
  destruct (setOccupied_claims_slot bitmap_example) as (_ & H2 & _).
  split; [apply H; reflexivity | apply H2; reflexivity].
Defined.

Section Storage_extras.

Variable hash : Kmer -> Z -> Z.
Variable add : UnitigColors -> UnitigMap.t -> Z -> UnitigColors.
Variable reverse : UnitigColors -> Z -> UnitigColors.


(** X9: When the array holds nb_color_sets > 0 entries, an array slot
    returned by getColorSet lies inside the array, whatever the hash value,
    the seed and the byte of the unitig. *)
Theorem getColorSet_slot_in_bounds g um i a :
  getColorSet hash g um = Some (color_sets_at i) ->
  color_sets g = Some a -> Z.of_nat (length a) = nb_color_sets g ->
  0 < nb_color_sets g ->
  (i < length a)%nat /\ is_Some (a !! i).
Proof.
  intros Hg Ha Hlen Hpos.
  assert (Hi : (i < length a)%nat).
  { revert Hg. unfold getColorSet. destruct (negb _ && _); [|discriminate].
    destruct (getData g um =? 0).
    - destruct (km_overflow g !! getHead g um); discriminate.
    - intros [= <-].
      pose proof (Z.mod_pos_bound
                    (hash (getHead g um) (seed_at g (getData g um - 1)))
                    (nb_color_sets g) Hpos). lia. }
  split; [exact Hi|]. apply lookup_lt_is_Some_2. exact Hi.
Qed.

Lemma getColorSet_overflow_present g um km :
  getColorSet hash g um = Some (km_overflow_at km) -> is_Some (km_overflow g !! km).
Proof.
  unfold getColorSet. destruct (negb _ && _); [|discriminate].
  destruct (getData g um =? 0).
  - destruct (km_overflow g !! getHead g um) eqn:E; [|discriminate].
    intros [= <-]. rewrite E. eauto.
  - discriminate.
Qed.

(** What a write through an address that [getColorSet] returned leaves
    alone. *)
Lemma store_frame g um p c :
  getColorSet hash g um = Some p ->
  k_ (store g p c) = k_ g /\
  v_unitigs (store g p c) = v_unitigs g /\
  v_kmers (store g p c) = v_kmers g /\
  h_kmers_ccov (store g p c) = h_kmers_ccov g /\
  seeds (store g p c) = seeds g /\
  nb_color_sets (store g p c) = nb_color_sets g /\
  length <$> color_sets (store g p c) = length <$> color_sets g /\
  dom (km_overflow (store g p c)) = dom (km_overflow g) /\
  (forall u, getColorSet hash (store g p c) u = getColorSet hash g u).
Proof.
  intros Hp.
  assert (Hkeys : forall km, is_Some (km_overflow (store g p c) !! km)
                             <-> is_Some (km_overflow g !! km)).
  { intros km. destruct p as [i|km0| |]; cbn [store];
      try (destruct (color_sets g) eqn:E; rewrite ?E; reflexivity).
    cbn [with_km_overflow km_overflow].
    pose proof (getColorSet_overflow_present g um km0 Hp) as Hin.
    destruct (decide (km0 = km)) as [<-|Hne].
    - rewrite lookup_insert_eq. split; eauto.
    - rewrite lookup_insert_ne by assumption. reflexivity. }
  assert (Hfields :
    k_ (store g p c) = k_ g /\ v_unitigs (store g p c) = v_unitigs g /\
    v_kmers (store g p c) = v_kmers g /\ h_kmers_ccov (store g p c) = h_kmers_ccov g /\
    seeds (store g p c) = seeds g /\ nb_color_sets (store g p c) = nb_color_sets g /\
    length <$> color_sets (store g p c) = length <$> color_sets g).
  { destruct p as [i|km| |]; cbn [store]; try (repeat split; reflexivity).
    destruct (color_sets g) as [a|] eqn:Ea; [|rewrite Ea; repeat split; reflexivity].
    cbn. rewrite length_insert. repeat split; reflexivity. }
  destruct Hfields as (H1 & H2 & H3 & H4 & H5 & H6 & H7).
  repeat (split; [assumption|]).
  split.
  - apply set_eq. intros km. rewrite !elem_of_dom. apply Hkeys.
  - intros u. unfold getColorSet, getHead, getData, unitig_at, seed_at.
    rewrite H2, H3, H4, H5, H6.
    assert (Hal : bool_decide (color_sets (store g p c) <> None)
                  = bool_decide (color_sets g <> None)).
    { destruct (color_sets g) as [a|] eqn:Ea, (color_sets (store g p c)) as [a'|] eqn:Ea';
        try reflexivity; cbn in H7; discriminate. }
    rewrite Hal. destruct (negb (UnitigMap.isEmpty u) && _); [|reflexivity].
    match goal with |- context [km_overflow (store g p c) !! ?h] =>
      pose proof (Hkeys h) as Hk;
      destruct (km_overflow (store g p c) !! h) eqn:E1, (km_overflow g !! h) eqn:E2
    end; try reflexivity.
    + exfalso. destruct (proj1 Hk ltac:(eauto)). discriminate.
    + exfalso. destruct (proj2 Hk ltac:(eauto)). discriminate.
Qed.

End Storage_extras.


Lemma getColorSet_slot_in_bounds_witness :
  (0 < length [ {| setBits := 0x3d; bitmap := [] |};
                {| setBits := 0xe1; bitmap := [] |} ])%nat /\
  is_Some ([ {| setBits := 0x3d; bitmap := [] |};
             {| setBits := 0xe1; bitmap := [] |} ] !! 0%nat).
Proof.
  apply (getColorSet_slot_in_bounds Examples.hash_seed (Examples.join_graph 5)
           (Examples.join_dest 5 true) 0%nat).
  - vm_compute. reflexivity.
  - reflexivity.
  - reflexivity.
  - vm_compute. reflexivity.
Defined.

Section Storage_extras2.

Variable hash : Kmer -> Z -> Z.
Variable add : UnitigColors -> UnitigMap.t -> Z -> UnitigColors.
Variable reverse : UnitigColors -> Z -> UnitigColors.

(** X10: When getColorSet locates a UnitigColors for the mapping, setColor
    changes no other UnitigColors of the storage and leaves every later
    look-up as it was: getColorSet, the data bytes, the head k-mers and
    nb_color_sets are the same after the call; and if the located address is
    an overflow entry or lies inside the array, the UnitigColors there is
    the result of add on the old one. *)
Theorem setColor_touches_only_located g um color_id p :
  getColorSet hash g um = Some p ->
  (forall q, q <> p ->
     load (snd (setColor hash add g um color_id)) q = load g q) /\
  (forall u, getColorSet hash (snd (setColor hash add g um color_id)) u
             = getColorSet hash g u) /\
  (forall u, getData (snd (setColor hash add g um color_id)) u = getData g u) /\
  (forall u, getHead (snd (setColor hash add g um color_id)) u = getHead g u) /\
  nb_color_sets (snd (setColor hash add g um color_id)) = nb_color_sets g /\
  ((forall i a, p = color_sets_at i -> color_sets g = Some a -> (i < length a)%nat) ->
   load (snd (setColor hash add g um color_id)) p = add (load g p) um color_id).
Proof.
  intros Hp.
  assert (Hs : snd (setColor hash add g um color_id)
               = store g p (add (load g p) um color_id)).
  { destruct (getColorSet_Some_guard hash g um p Hp) as [He Ha].
    unfold setColor. rewrite Hp, He.
    rewrite bool_decide_eq_true_2 by assumption. reflexivity. }
  rewrite Hs.
  destruct (store_frame hash g um p (add (load g p) um color_id) Hp)
    as (H1 & H2 & H3 & H4 & H5 & H6 & H7 & H8 & H9).
  split; [intros q Hq; apply load_store_ne; assumption|].
  split; [exact H9|].
  split; [intros u; unfold getData, unitig_at; rewrite H2, H3, H4; reflexivity|].
  split; [intros u; unfold getHead, unitig_at; rewrite H2, H3, H4; reflexivity|].
  split; [exact H6|].
  intros Hin. apply load_store_eq.
  destruct (getColorSet_in_storage hash g um p Hp) as [[i ->] | [km ->]]; [|exact I].
  destruct (getColorSet_Some_guard hash g um _ Hp) as [_ Ha].
  destruct (color_sets g) as [a|] eqn:Ea; [|contradiction].
  exists a. split; [reflexivity|]. apply (Hin i a); reflexivity.
Qed.


End Storage_extras2.

Lemma setColor_touches_only_located_witness :
  load (snd (setColor Examples.hash_seed (UnitigColors_add 5) (Examples.join_graph 5)
               (Examples.join_dest 5 true) 1)) (color_sets_at 1)
  = load (Examples.join_graph 5) (color_sets_at 1).
Proof.
  destruct (setColor_touches_only_located Examples.hash_seed (UnitigColors_add 5)
              (Examples.join_graph 5) (Examples.join_dest 5 true) 1 (color_sets_at 0))
    as (H1 & _); [vm_compute; reflexivity|].
  apply H1. discriminate.
Defined.


Section Join_extras.

Variable hash : Kmer -> Z -> Z.
Variable add : UnitigColors -> UnitigMap.t -> Z -> UnitigColors.
Variable reverse : UnitigColors -> Z -> UnitigColors.

Lemma frame_store_storage f p c :
  (exists i, p = color_sets_at i) \/ (exists km, p = km_overflow_at km) ->
  this (frame_store f p c) = store (this f) p c.
Proof. intros [[i ->] | [km ->]]; reflexivity. Qed.

Lemma joinColors_result g um_dest um_src pd ps :
  getColorSet hash g um_dest = Some pd ->
  getColorSet hash g um_src = Some ps ->
  exists c,
    joinColors hash add reverse g um_dest um_src
    = (true, if UnitigMap.strand um_dest then store g pd c else g).
Proof.
  intros Hd Hs.
  destruct (getColorSet_Some_guard hash g um_dest pd Hd) as [He Ha].
  destruct (getColorSet_Some_guard hash g um_src ps Hs) as [He' _].
  pose proof (getColorSet_in_storage hash g um_dest pd Hd) as Hpd.
  unfold joinColors. rewrite Hd, Hs, He, He'.
  rewrite bool_decide_eq_true_2 by assumption. cbn [negb andb]. cbv zeta.
  destruct (UnitigMap.strand um_dest); cbn [negb]; cbv iota beta.
  - destruct Hpd as [[i ->] | [km ->]];
      (destruct (getColorSet_in_storage hash g um_src ps Hs) as [[j ->] | [km' ->]]);
      destruct (UnitigMap.strand um_src); cbn [negb]; cbv iota beta;
      repeat match goal with
             | |- context [match ?x with (_, _) => _ end] => destruct x
             end;
      cbn [this frame_store]; eexists; reflexivity.
  - destruct (getColorSet_in_storage hash g um_src ps Hs) as [[j ->] | [km' ->]];
      destruct (UnitigMap.strand um_src); cbn [negb]; cbv iota beta;
      repeat match goal with
             | |- context [match ?x with (_, _) => _ end] => destruct x
             end;
      cbn [this frame_store]; exists UnitigColors_new; reflexivity.
Qed.

(** X13: joinColors writes at most the UnitigColors of the destination: when
    getColorSet locates it, every other UnitigColors of the storage, the
    source's included when it is another one, is the same after the call,
    and so are getColorSet, the data bytes, the head k-mers and
    nb_color_sets. *)
Theorem joinColors_touches_only_dest g um_dest um_src pd :
  getColorSet hash g um_dest = Some pd ->
  (forall q, q <> pd ->
     load (snd (joinColors hash add reverse g um_dest um_src)) q = load g q) /\
  (forall u, getColorSet hash (snd (joinColors hash add reverse g um_dest um_src)) u
             = getColorSet hash g u) /\
  (forall u, getData (snd (joinColors hash add reverse g um_dest um_src)) u
             = getData g u) /\
  (forall u, getHead (snd (joinColors hash add reverse g um_dest um_src)) u
             = getHead g u) /\
  nb_color_sets (snd (joinColors hash add reverse g um_dest um_src)) = nb_color_sets g.
Proof.
  intros Hd.
  destruct (getColorSet hash g um_src) as [ps|] eqn:Es.
  - destruct (joinColors_result g um_dest um_src pd ps Hd Es) as [c ->]. cbn [snd].
    destruct (UnitigMap.strand um_dest); [|repeat split; reflexivity].
    destruct (store_frame hash g um_dest pd c Hd)
      as (H1 & H2 & H3 & H4 & H5 & H6 & H7 & H8 & H9).
    split; [intros q Hq; apply load_store_ne; assumption|].
    split; [exact H9|].
    split; [intros u; unfold getData, unitig_at; rewrite H2, H3, H4; reflexivity|].
    split; [intros u; unfold getHead, unitig_at; rewrite H2, H3, H4; reflexivity|].
    exact H6.
  - assert (E : joinColors hash add reverse g um_dest um_src = (false, g)).
    { unfold joinColors. rewrite Es. destruct (negb _ && _ && _); [|reflexivity].
      destruct (getColorSet hash g um_dest); reflexivity. }
    rewrite E. repeat split; reflexivity.
Qed.

(** X14: Joining two forward mappings whose UnitigColors are both iterated
    as empty (the array holding nb_color_sets > 0 entries) returns true and
    makes no add: the UnitigColors read at the destination's address after
    the call is a default-constructed one, so the destination is left in the
    unoccupied state and a loop over it, empty before the call, now meets
    the id 0 sixty-two times. *)
Theorem joinColors_of_empty_sets g um_dest um_src pd ps :
  getColorSet hash g um_dest = Some pd ->
  getColorSet hash g um_src = Some ps ->
  UnitigMap.strand um_dest = true -> UnitigMap.strand um_src = true ->
  to_list (load g pd) = [] -> to_list (load g ps) = [] ->
  (forall a, color_sets g = Some a -> Z.of_nat (length a) = nb_color_sets g) ->
  0 < nb_color_sets g ->
  joinColors hash add reverse g um_dest um_src = (true, store g pd UnitigColors_new) /\
  load (snd (joinColors hash add reverse g um_dest um_src)) pd = UnitigColors_new /\
  isUnoccupied (load (snd (joinColors hash add reverse g um_dest um_src)) pd) = true /\
  to_list (load (snd (joinColors hash add reverse g um_dest um_src)) pd) = repeat 0 62.
Proof.
  intros Hd Hs Sd Ss Ed Es Hlen Hpos.
  destruct (getColorSet_Some_guard hash g um_dest pd Hd) as [He Ha].
  destruct (getColorSet_Some_guard hash g um_src ps Hs) as [He' _].
  assert (E : joinColors hash add reverse g um_dest um_src
              = (true, store g pd UnitigColors_new)).
  { unfold joinColors. rewrite Hd, Hs, He, He', Sd, Ss.
    rewrite bool_decide_eq_true_2 by assumption. cbn [negb andb]. cbv zeta.
    destruct (getColorSet_in_storage hash g um_dest pd Hd) as [[i ->] | [km ->]];
      (destruct (getColorSet_in_storage hash g um_src ps Hs) as [[j ->] | [km' ->]]);
      cbn [frame_load this]; rewrite Ed, Es; reflexivity. }
  assert (L : load (store g pd UnitigColors_new) pd = UnitigColors_new).
  { apply load_store_eq.
    destruct (getColorSet_in_storage hash g um_dest pd Hd) as [[i ->] | [km ->]];
      [|exact I].
    destruct (color_sets g) as [a|] eqn:Ea; [|contradiction].
    exists a. split; [reflexivity|].
    exact (getColorSet_slot_lt hash g um_dest i a Hd Ea (Hlen a eq_refl) Hpos). }
  rewrite E. cbn [snd]. rewrite L.
  split; [reflexivity|]. split; [reflexivity|]. split; [reflexivity|].
  vm_compute. reflexivity.
Qed.


End Join_extras.

Lemma joinColors_touches_only_dest_witness :
  load (snd (joinColors Examples.hash_seed (UnitigColors_add 5) (UnitigColors_reverse 5)
               (Examples.join_graph 5) (Examples.join_dest 5 true)
               (Examples.join_src 5 true))) (color_sets_at 1)
  = load (Examples.join_graph 5) (color_sets_at 1).
Proof.
  destruct (joinColors_touches_only_dest Examples.hash_seed (UnitigColors_add 5)
              (UnitigColors_reverse 5) (Examples.join_graph 5)
              (Examples.join_dest 5 true) (Examples.join_src 5 true) (color_sets_at 0))
    as (H1 & _); [vm_compute; reflexivity|].
  apply H1. discriminate.
Defined.

Lemma joinColors_of_empty_sets_witness :
  joinColors Examples.hash_seed (UnitigColors_add 5) (UnitigColors_reverse 5)
    Examples.two_kmers_graph Examples.first_unitig
    (UnitigMap.new 1 0 1 5 false false true)
  = (true, store Examples.two_kmers_graph (color_sets_at 0) UnitigColors_new) /\
  load (snd (joinColors Examples.hash_seed (UnitigColors_add 5) (UnitigColors_reverse 5)
               Examples.two_kmers_graph Examples.first_unitig
               (UnitigMap.new 1 0 1 5 false false true))) (color_sets_at 0)
  = UnitigColors_new /\
  isUnoccupied
    (load (snd (joinColors Examples.hash_seed (UnitigColors_add 5)
                  (UnitigColors_reverse 5) Examples.two_kmers_graph
                  Examples.first_unitig (UnitigMap.new 1 0 1 5 false false true)))
       (color_sets_at 0)) = true /\
  to_list
    (load (snd (joinColors Examples.hash_seed (UnitigColors_add 5)
                  (UnitigColors_reverse 5) Examples.two_kmers_graph
                  Examples.first_unitig (UnitigMap.new 1 0 1 5 false false true)))
       (color_sets_at 0)) = repeat 0 62.
Proof.
  apply (joinColors_of_empty_sets Examples.hash_seed (UnitigColors_add 5)
           (UnitigColors_reverse 5) Examples.two_kmers_graph Examples.first_unitig
           (UnitigMap.new 1 0 1 5 false false true) (color_sets_at 0) (color_sets_at 1)).
  - vm_compute; reflexivity.
  - vm_compute; reflexivity.
  - reflexivity.
  - reflexivity.
  - vm_compute; reflexivity.
  - vm_compute; reflexivity.
  - intros a [= <-]. reflexivity.
  - reflexivity.
Defined.


(** ** UnitigMap data and initColorSets *)

Lemma setData_storage g um hid :
  color_sets (setData g um hid) = color_sets g /\
  km_overflow (setData g um hid) = km_overflow g.
Proof.
  unfold setData. destruct (UnitigMap.isEmpty um); [split; reflexivity|].
  destruct (UnitigMap.isShort um), (UnitigMap.isAbundant um); split; reflexivity.
Qed.

(** X11: setData followed by getData: setData on an empty mapping changes
    nothing; on a mapping that designates a unitig, getData then returns the
    byte that was set; the byte of every other unitig, every head k-mer, the
    array of colour sets and the overflow table are not changed. *)
Theorem setData_getData g um hid um' :
  (UnitigMap.isEmpty um = true -> setData g um hid = g) /\
  (UnitigMap.isEmpty um = false -> is_Some (unitig_at g um) ->
     getData (setData g um hid) um = hid) /\
  (UnitigMap.isEmpty um = false -> UnitigMap.isEmpty um' = false ->
     ~ (um_kind um = um_kind um' /\ um_index um = um_index um') ->
     getData (setData g um hid) um' = getData g um') /\
  getHead (setData g um hid) um' = getHead g um' /\
  color_sets (setData g um hid) = color_sets g /\
  km_overflow (setData g um hid) = km_overflow g.
Proof.
  split; [|split; [|split; [|split; [|split]]]].
  - intros He. unfold setData. rewrite He. reflexivity.
  - intros He [u Hu]. rewrite getData_setData by assumption.
    rewrite bool_decide_eq_true_2 by (split; reflexivity). rewrite Hu. reflexivity.
  - intros He He' Hne. rewrite getData_setData by assumption.
    rewrite bool_decide_eq_false_2 by assumption. reflexivity.
  - apply getHead_shape, shape_setData.
  - unfold setData. destruct (UnitigMap.isEmpty um); [reflexivity|].
    destruct (UnitigMap.isShort um), (UnitigMap.isAbundant um); reflexivity.
  - unfold setData. destruct (UnitigMap.isEmpty um); [reflexivity|].
    destruct (UnitigMap.isShort um), (UnitigMap.isAbundant um); reflexivity.
Qed.

Lemma setData_getData_witness :
  getData (setData Examples.three_unitigs Examples.first_unitig 7) Examples.first_unitig = 7
  /\ getData (setData Examples.three_unitigs Examples.first_unitig 7)
       (UnitigMap.new 0 0 1 5 true false true) = 0.
Proof.
  destruct (setData_getData Examples.three_unitigs Examples.first_unitig 7
              (UnitigMap.new 0 0 1 5 true false true)) as (_ & H1 & H2 & _).
  split.
  - apply H1; [reflexivity | vm_compute; eauto].
  - rewrite H2; [reflexivity | reflexivity | reflexivity |].
    intros [Hk _]. vm_compute in Hk. discriminate.
Defined.

Section Init_extras.

Variable hash : Kmer -> Z -> Z.

Lemma init_values_step H g um :
  init_values g -> init_values (initColorSets_unitig hash H g um).
Proof.
  intros [Ha Ho]. unfold initColorSets_unitig.
  destruct (initColorSets_probe hash g (getHead g um) (Z.to_nat H) 0 0) as [i h_v].
  set (hid := (if i =? H then 0 else i + 1) mod 2 ^ 8).
  destruct (setData_storage g um hid) as [Hc Hk].
  destruct (i =? H).
  - split.
    + cbn [with_km_overflow color_sets]. rewrite Hc. exact Ha.
    + cbn [with_km_overflow km_overflow]. rewrite Hk. intros km c.
      unfold KmerHashTable_insert.
      destruct (km_overflow g !! getHead g um) eqn:E; [apply Ho|].
      destruct (decide (getHead g um = km)) as [<-|Hne].
      * rewrite lookup_insert_eq. congruence.
      * rewrite lookup_insert_ne by assumption. apply Ho.
  - unfold color_sets_get. cbn [load store]. rewrite Hc.
    destruct (color_sets g) as [a|] eqn:Ea.
    + split.
      * cbn [with_color_sets color_sets]. intros a' [= <-].
        specialize (Ha a eq_refl). rewrite List.Forall_forall in *.
        intros c Hin. apply list_elem_of_In, list_elem_of_lookup in Hin as [j Hj].
        destruct (decide (Z.to_nat h_v = j)) as [<-|Hne].
        -- destruct (decide (Z.to_nat h_v < length a)%nat) as [Hlt|Hge].
           ++ rewrite list_lookup_insert_eq in Hj by assumption. injection Hj as <-.
              right. destruct (a !! Z.to_nat h_v) as [c0|] eqn:E0; cbn [default].
              ** assert (Hin0 : In c0 a)
                   by (apply list_elem_of_In, list_elem_of_lookup; eauto).
                 destruct (Ha c0 Hin0) as [-> | ->]; reflexivity.
              ** reflexivity.
           ++ rewrite list_insert_ge in Hj by lia. apply Ha.
              apply list_elem_of_In, list_elem_of_lookup. eauto.
        -- rewrite list_lookup_insert_ne in Hj by assumption. apply Ha.
           apply list_elem_of_In, list_elem_of_lookup. eauto.
      * cbn [with_color_sets km_overflow]. rewrite Hk. exact Ho.
    + split; [intros a' Ha'; rewrite Hc in Ha'; congruence | rewrite Hk; exact Ho].
Qed.

Lemma init_values_fold H ums : forall g,
  init_values g -> init_values (fold_left (initColorSets_unitig hash H) ums g).
Proof.
  induction ums as [|um ums IH]; intros g Hg; [exact Hg|].
  cbn [fold_left]. apply IH, init_values_step, Hg.
Qed.

End Init_extras.

Section Init_extras2.

Variable hash : Kmer -> Z -> Z.

Lemma initColorSets_inv H g0 :
  0 <= H <= 255 -> km_overflow g0 = ∅ ->
  exists g1,
    unitigs g1 = unitigs g0 /\
    (forall u, getHead g1 u = getHead g0 u) /\
    nb_color_sets g1 = CompactedDBG_size g0 /\
    init_inv hash H g1 (unitigs g1) (initColorSets hash H g0) (length (unitigs g1)) /\
    init_values (initColorSets hash H g0).
Proof.
  intros HH Hov.
  destruct (init_inv_start hash H g0 Hov) as [Hn Hinv0]. cbv zeta in Hn, Hinv0.
  unfold initColorSets.
  set (g1 := {| k_ := k_ g0; v_unitigs := v_unitigs g0; v_kmers := v_kmers g0;
                h_kmers_ccov := h_kmers_ccov g0;
                color_sets := Some (replicate (Z.to_nat (CompactedDBG_size g0))
                                      UnitigColors_new);
                nb_color_sets := CompactedDBG_size g0; seeds := seeds g0;
                km_overflow := km_overflow g0 |}) in *.
  exists g1. split; [reflexivity|]. split; [reflexivity|]. split; [reflexivity|].
  split.
  - exact (init_inv_fold hash H g1 HH Hn (unitigs g1) 0%nat g1 (drop_0 _) Hinv0).
  - apply init_values_fold. split.
    + cbn [g1 color_sets]. intros a [= <-]. apply List.Forall_forall.
      intros c Hc. apply list_elem_of_In, elem_of_replicate in Hc as [-> _]. auto.
    + cbn [g1 km_overflow]. rewrite Hov. intros km c Hc.
      rewrite lookup_empty in Hc. discriminate.
Qed.

(** X16: After initColorSets (at most 255 hash functions, overflow table
    empty before the call) every unitig of the graph, also one whose byte is
    0, has a byte in [0, max_nb_hash], getColorSet locates a UnitigColors
    for it, and setColor on it returns true for every colour. *)
Theorem initColorSets_every_unitig_resolves add H g0 u color_id :
  0 <= H <= 255 -> km_overflow g0 = ∅ -> In u (unitigs g0) ->
  0 <= getData (initColorSets hash H g0) u <= H /\
  (exists p, getColorSet hash (initColorSets hash H g0) u = Some p) /\
  fst (setColor hash add (initColorSets hash H g0) u color_id) = true.
Proof.
  intros HH Hov Hin.
  destruct (initColorSets_inv H g0 HH Hov) as (g1 & Hums & Hhead & Hnb & Hinv & _).
  set (g := initColorSets hash H g0) in *.
  destruct Hinv as (Hs & (a & Ha & Hlen) & I3 & _ & I5).
  rewrite Hums in *.
  apply list_elem_of_In, list_elem_of_lookup in Hin as [i Hi].
  assert (Hi' : (i < length (unitigs g0))%nat) by (apply lookup_lt_Some in Hi; exact Hi).
  rewrite <- Hums in Hi. destruct (unitigs_lookup g1 i u Hi) as (He & _ & _).
  rewrite Hums in Hi.
  assert (Hp : exists p, getColorSet hash g u = Some p).
  { unfold getColorSet. rewrite He, Ha.
    rewrite bool_decide_eq_true_2 by discriminate. cbn [negb andb].
    destruct (Z.eqb_spec (getData g u) 0) as [E|E]; [|eauto].
    destruct (proj2 (I5 (getHead g u))) as [c Hc]; [exists i, u; auto|].
    rewrite Hc. eauto. }
  split.
  - destruct (Z.eq_dec (getData g u) 0) as [E|E]; [lia|].
    destruct (I3 i u Hi' Hi E). lia.
  - split; [exact Hp|]. destruct Hp as [p Hp].
    unfold setColor. rewrite Hp, He, Ha.
    rewrite bool_decide_eq_true_2 by discriminate. reflexivity.
Qed.

(** X17: After initColorSets the array has nb_color_sets entries, and the
    UnitigColors that getColorSet locates for a unitig of the graph is an
    empty bit vector, iterated as empty, when the unitig's byte is not 0,
    but a default-constructed, unoccupied UnitigColors when the byte is 0:
    the overflow entries are never set occupied, so a loop over one meets
    the id 0 sixty-two times. *)
Theorem initColorSets_stored_values H g0 u :
  0 <= H <= 255 -> km_overflow g0 = ∅ -> In u (unitigs g0) ->
  exists p a,
    getColorSet hash (initColorSets hash H g0) u = Some p /\
    color_sets (initColorSets hash H g0) = Some a /\
    Z.of_nat (length a) = nb_color_sets (initColorSets hash H g0) /\
    (getData (initColorSets hash H g0) u <> 0 ->
       load (initColorSets hash H g0) p
         = {| setBits := localBitVectorColor; bitmap := [] |} /\
       colors (load (initColorSets hash H g0) p) = Some []) /\
    (getData (initColorSets hash H g0) u = 0 ->
       load (initColorSets hash H g0) p = UnitigColors_new /\
       colors (load (initColorSets hash H g0) p) = Some (repeat 0 62)).
Proof.
  intros HH Hov Hin.
  destruct (initColorSets_inv H g0 HH Hov) as (g1 & Hums & Hhead & Hnb & Hinv & Hval).
  set (g := initColorSets hash H g0) in *.
  destruct Hinv as (Hs & (a & Ha & Hlen) & I3 & _ & I5).
  destruct Hval as [Hva Hvo].
  apply list_elem_of_In, list_elem_of_lookup in Hin as [i Hi].
  rewrite <- Hums in Hi.
  assert (Hi' : (i < length (unitigs g1))%nat) by (apply lookup_lt_Some in Hi; exact Hi).
  destruct (unitigs_lookup g1 i u Hi) as (He & _ & _).
  assert (Hlen' : Z.of_nat (length a) = nb_color_sets g).
  { unfold shape in Hs. injection Hs as _ _ Hn _ _ _.
    rewrite Hn, Hnb, Hlen, Hums. apply length_unitigs. }
  destruct (Z.eq_dec (getData g u) 0) as [E|E].
  - destruct (proj2 (I5 (getHead g u))) as [c Hc]; [exists i, u; auto|].
    exists (km_overflow_at (getHead g u)), a.
    split.
    { unfold getColorSet. rewrite He, Ha, E, Hc.
      rewrite bool_decide_eq_true_2 by discriminate. reflexivity. }
    split; [exact Ha|]. split; [exact Hlen'|]. split; [contradiction|].
    intros _. cbn [load]. rewrite Hc. cbn [default].
    rewrite (Hvo _ _ Hc). split; [reflexivity|]. vm_compute. reflexivity.
  - exists (color_sets_at (slot_of hash g u)), a.
    split.
    { unfold getColorSet, slot_of. rewrite He, Ha.
      rewrite bool_decide_eq_true_2 by discriminate. cbn [negb andb].
      destruct (Z.eqb_spec (getData g u) 0); [contradiction|reflexivity]. }
    split; [exact Ha|]. split; [exact Hlen'|]. split; [|contradiction].
    intros _. destruct (I3 i u Hi' Hi E) as [_ Hocc].
    cbn [load] in *. rewrite Ha in *.
    destruct (a !! slot_of hash g u) as [c|] eqn:Ec; cbn [default] in *;
      [|discriminate Hocc].
    assert (Hc : In c a) by (apply list_elem_of_In, list_elem_of_lookup; eauto).
    specialize (Hva a eq_refl). rewrite List.Forall_forall in Hva.
    destruct (Hva c Hc) as [-> | ->]; [discriminate Hocc|].
    split; [reflexivity|]. vm_compute. reflexivity.
Qed.

(** X18: With max_nb_hash = 0 initColorSets tries no hash function: every
    unitig of the graph gets the byte 0, its head k-mer is a key of the
    overflow table, and getColorSet resolves it to that overflow entry. *)
Theorem initColorSets_no_hash_function g0 u :
  km_overflow g0 = ∅ -> In u (unitigs g0) ->
  getData (initColorSets hash 0 g0) u = 0 /\
  is_Some (km_overflow (initColorSets hash 0 g0) !! getHead g0 u) /\
  getColorSet hash (initColorSets hash 0 g0) u = Some (km_overflow_at (getHead g0 u)).
Proof.
  intros Hov Hin.
  destruct (initColorSets_inv 0 g0 ltac:(lia) Hov) as (g1 & Hums & Hhead & Hnb & Hinv & _).
  set (g := initColorSets hash 0 g0) in *.
  destruct Hinv as (Hs & (a & Ha & Hlen) & I3 & _ & I5).
  apply list_elem_of_In, list_elem_of_lookup in Hin as [i Hi].
  rewrite <- Hums in Hi.
  assert (Hi' : (i < length (unitigs g1))%nat) by (apply lookup_lt_Some in Hi; exact Hi).
  destruct (unitigs_lookup g1 i u Hi) as (He & _ & _).
  assert (E : getData g u = 0).
  { destruct (Z.eq_dec (getData g u) 0) as [E|E]; [exact E|].
    destruct (I3 i u Hi' Hi E). lia. }
  assert (Hh : getHead g u = getHead g0 u).
  { rewrite (getHead_shape g g1 u Hs). apply Hhead. }
  destruct (proj2 (I5 (getHead g u))) as [c Hc]; [exists i, u; auto|].
  split; [exact E|]. rewrite <- Hh. split; [eauto|].
  unfold getColorSet. rewrite He, Ha, E, Hc.
  rewrite bool_decide_eq_true_2 by discriminate. reflexivity.
Qed.

End Init_extras2.

Lemma initColorSets_every_unitig_resolves_witness :
  0 <= getData (initColorSets Examples.hash_seed 2 Examples.three_unitigs)
         (UnitigMap.new 0 0 1 5 true false true) <= 2 /\
  (exists p, getColorSet Examples.hash_seed
               (initColorSets Examples.hash_seed 2 Examples.three_unitigs)
               (UnitigMap.new 0 0 1 5 true false true) = Some p) /\
  fst (setColor Examples.hash_seed (UnitigColors_add 5)
         (initColorSets Examples.hash_seed 2 Examples.three_unitigs)
         (UnitigMap.new 0 0 1 5 true false true) 3) = true.
Proof.
  apply (initColorSets_every_unitig_resolves Examples.hash_seed (UnitigColors_add 5) 2
           Examples.three_unitigs (UnitigMap.new 0 0 1 5 true false true) 3).
  - lia.
  - reflexivity.
  - vm_compute. auto.
Defined.

Lemma initColorSets_stored_values_witness :
  exists p a,
    getColorSet Examples.hash_seed
      (initColorSets Examples.hash_seed 2 Examples.three_unitigs)
      (UnitigMap.new 0 0 4 8 false false true) = Some p /\
    color_sets (initColorSets Examples.hash_seed 2 Examples.three_unitigs) = Some a /\
    Z.of_nat (length a)
      = nb_color_sets (initColorSets Examples.hash_seed 2 Examples.three_unitigs) /\
    (getData (initColorSets Examples.hash_seed 2 Examples.three_unitigs)
       (UnitigMap.new 0 0 4 8 false false true) <> 0 ->
     load (initColorSets Examples.hash_seed 2 Examples.three_unitigs) p
       = {| setBits := localBitVectorColor; bitmap := [] |} /\
     colors (load (initColorSets Examples.hash_seed 2 Examples.three_unitigs) p)
       = Some []) /\
    (getData (initColorSets Examples.hash_seed 2 Examples.three_unitigs)
       (UnitigMap.new 0 0 4 8 false false true) = 0 ->
     load (initColorSets Examples.hash_seed 2 Examples.three_unitigs) p
       = UnitigColors_new /\
     colors (load (initColorSets Examples.hash_seed 2 Examples.three_unitigs) p)
       = Some (repeat 0 62)).
Proof.
  apply (initColorSets_stored_values Examples.hash_seed 2 Examples.three_unitigs
           (UnitigMap.new 0 0 4 8 false false true)).
  - lia.
  - reflexivity.
  - vm_compute. auto.
Defined.

Lemma initColorSets_no_hash_function_witness :
  getData (initColorSets Examples.hash_seed 0 Examples.three_unitigs)
    (UnitigMap.new 0 0 4 8 false false true) = 0 /\
  is_Some (km_overflow (initColorSets Examples.hash_seed 0 Examples.three_unitigs)
             !! getHead Examples.three_unitigs (UnitigMap.new 0 0 4 8 false false true)) /\
  getColorSet Examples.hash_seed (initColorSets Examples.hash_seed 0 Examples.three_unitigs)
    (UnitigMap.new 0 0 4 8 false false true)
  = Some (km_overflow_at
            (getHead Examples.three_unitigs (UnitigMap.new 0 0 4 8 false false true))).
Proof.
  apply (initColorSets_no_hash_function Examples.hash_seed Examples.three_unitigs
           (UnitigMap.new 0 0 4 8 false false true)).
  - reflexivity.
  - vm_compute. auto.
Defined.

(** ** mapColors *)

Lemma read_chunk_closed_form n : forall FQ readv file_id,
  read_chunk n FQ readv file_id
  = (drop n FQ, readv ++ map fst (take n FQ),
     default file_id (last (map snd (take n FQ))),
     bool_decide (length FQ < n)%nat).
Proof.
  induction n as [|n IH]; intros FQ readv file_id; cbn [read_chunk].
  - rewrite drop_0, take_0. cbn. rewrite app_nil_r.
    rewrite bool_decide_eq_false_2 by lia. reflexivity.
  - destruct FQ as [|[s id] FQ].
    + cbn. rewrite app_nil_r. rewrite bool_decide_eq_true_2 by (cbn; lia). reflexivity.
    + rewrite IH. cbn [drop take map fst snd length]. rewrite <- app_assoc. cbn [app].
      f_equal; [f_equal|].
      * destruct (take n FQ) as [|p l]; cbn; [reflexivity|].
        destruct (last (p.2 :: map snd l)) eqn:E; [reflexivity|].
        apply last_None in E. discriminate.
      * apply bool_decide_ext. lia.
Qed.

Section MapColors_extras.

Variable hash : Kmer -> Z -> Z.
Variable add : UnitigColors -> UnitigMap.t -> Z -> UnitigColors.
Variable find : ColoredCDBG -> Kmer -> UnitigMap.t.
Variable lcp : ColoredCDBG -> UnitigMap.t -> string -> Z -> Z -> bool -> Z.
Variable KmerIterator : string -> list (Kmer * Z).

Lemma jumps_total b l : 0 <= b -> 0 <= l -> forall threads i, 0 <= i ->
  Z.of_nat (jumps threads i b l)
  = Z.of_nat threads * b + Z.max 0 (Z.min (i + Z.of_nat threads) l - i).
Proof.
  intros Hb Hl. induction threads as [|threads IH]; intros i Hi; cbn [jumps].
  - lia.
  - rewrite Nat2Z.inj_add, IH by lia.
    destruct (Z.ltb_spec i l); rewrite Z2Nat.id by lia; lia.
Qed.

Lemma run_workers_batches file_id b l : forall threads i rit g calls,
  run_workers hash add find lcp KmerIterator threads i b l rit file_id g calls
  = fold_left
      (fun st r => worker_function hash add find lcp KmerIterator file_id r
                     (fst st) (snd st))
      (batches threads i b l rit) (g, calls).
Proof.
  induction threads as [|threads IH]; intros i rit g calls; [reflexivity|].
  cbn [run_workers batches fold_left fst snd].
  destruct (worker_function hash add find lcp KmerIterator file_id _ g calls)
    as [g' calls'].
  apply IH.
Qed.

Lemma batches_length b l : forall threads i rit,
  length (batches threads i b l rit) = threads.
Proof.
  induction threads as [|threads IH]; intros i rit; [reflexivity|].
  cbn [batches length]. rewrite IH. reflexivity.
Qed.

Lemma batches_concat b l : forall threads i rit,
  concat (batches threads i b l rit) = take (jumps threads i b l) rit.
Proof.
  induction threads as [|threads IH]; intros i rit; cbn [batches jumps concat].
  - rewrite take_0. reflexivity.
  - rewrite IH. apply take_take_drop.
Qed.

Lemma batches_lookup b l : forall threads i rit n r,
  (jumps threads i b l <= length rit)%nat ->
  batches threads i b l rit !! n = Some r ->
  length r = Z.to_nat (b + (if i + Z.of_nat n <? l then 1 else 0)).
Proof.
  induction threads as [|threads IH]; intros i rit n r Hle Hn; [discriminate|].
  cbn [batches jumps] in Hle, Hn. destruct n as [|n].
  - injection Hn as <-. rewrite length_take, Z.add_0_r. lia.
  - cbn [lookup list_lookup] in Hn.
    rewrite (IH (i + 1) (drop (Z.to_nat (b + (if i <? l then 1 else 0))) rit) n r);
      [| rewrite length_drop; lia | exact Hn].
    replace (i + Z.of_nat (S n)) with (i + 1 + Z.of_nat n) by lia. reflexivity.
Qed.

(** X20: For nb_threads > 0 the loop over the threads hands out nb_threads
    ranges of readv, one after the other, whose concatenation is readv:
    every read of the chunk is in the range of exactly one thread; the range
    of thread i holds batch_size reads, and one more when i < leftover; and
    the jumps add up to the size of readv, so that advance never passes
    readv.end() and the assertion rit == readv.end() holds. *)
Theorem batches_partition_readv nb_threads readv :
  0 < nb_threads ->
  length (batches (Z.to_nat nb_threads) 0 (Z.of_nat (length readv) / nb_threads)
            (Z.of_nat (length readv) mod nb_threads) readv) = Z.to_nat nb_threads /\
  concat (batches (Z.to_nat nb_threads) 0 (Z.of_nat (length readv) / nb_threads)
            (Z.of_nat (length readv) mod nb_threads) readv) = readv /\
  (forall i r,
     batches (Z.to_nat nb_threads) 0 (Z.of_nat (length readv) / nb_threads)
       (Z.of_nat (length readv) mod nb_threads) readv !! i = Some r ->
     Z.of_nat (length r)
     = Z.of_nat (length readv) / nb_threads
       + (if Z.of_nat i <? Z.of_nat (length readv) mod nb_threads then 1 else 0)) /\
  jumps (Z.to_nat nb_threads) 0 (Z.of_nat (length readv) / nb_threads)
    (Z.of_nat (length readv) mod nb_threads) = length readv.
Proof.
  intros HT.
  pose proof (Z.div_mod (Z.of_nat (length readv)) nb_threads ltac:(lia)) as Hdm.
  pose proof (Z.mod_pos_bound (Z.of_nat (length readv)) nb_threads HT) as Hm.
  assert (Hd : 0 <= Z.of_nat (length readv) / nb_threads) by (apply Z.div_pos; lia).
  assert (Hj : jumps (Z.to_nat nb_threads) 0 (Z.of_nat (length readv) / nb_threads)
                 (Z.of_nat (length readv) mod nb_threads) = length readv).
  { apply Nat2Z.inj. rewrite jumps_total by lia. rewrite Z2Nat.id by lia. lia. }
  split; [apply batches_length|]. split; [|split; [|exact Hj]].
  - rewrite batches_concat, Hj. apply take_ge. lia.
  - intros i r Hi.
    pose proof (batches_lookup (Z.of_nat (length readv) / nb_threads)
                  (Z.of_nat (length readv) mod nb_threads) (Z.to_nat nb_threads) 0
                  readv i r) as Hl.
    rewrite Hj in Hl. specialize (Hl (le_n _) Hi). rewrite Hl, Z.add_0_l.
    destruct (Z.of_nat i <? Z.of_nat (length readv) mod nb_threads); lia.
Qed.

Lemma mapColors_loop_terminates read_chunksize nb_threads :
  0 < read_chunksize ->
  forall fuel FQ file_id g calls,
  (length FQ < fuel)%nat ->
  is_Some (mapColors_loop hash add find lcp KmerIterator fuel read_chunksize
             nb_threads FQ file_id g calls).
Proof.
  intros Hc. induction fuel as [|fuel IH]; intros FQ file_id g calls Hlen; [lia|].
  cbn [mapColors_loop]. rewrite read_chunk_closed_form.
  destruct (run_workers _ _ _ _ _ _ _ _ _ _ _ _ _) as [g' calls'].
  destruct (bool_decide (length FQ < Z.to_nat read_chunksize)%nat) eqn:E; [eauto|].
  apply IH. apply bool_decide_eq_false in E. rewrite length_drop. lia.
Qed.

(** X21: For nb_threads > 0: with read_chunksize > 0 the while (!done) loop
    of mapColors ends, after at most one round more than there are input
    sequences; with read_chunksize = 0 it never ends, whatever the input: no
    round reads anything, so done is never set. *)
Theorem mapColors_terminates read_chunksize nb_threads FQ g :
  0 < nb_threads ->
  (0 < read_chunksize ->
   exists r, mapColors hash add find lcp KmerIterator read_chunksize nb_threads FQ g
             = Some r) /\
  (forall fuel file_id calls,
     mapColors_loop hash add find lcp KmerIterator fuel 0 nb_threads FQ file_id g calls
     = None).
Proof.
  intros _. split.
  - intros Hc. apply (mapColors_loop_terminates read_chunksize nb_threads Hc). lia.
  - intros fuel. revert g. induction fuel as [|fuel IH]; intros g0 file_id calls;
      [reflexivity|].
    cbn [mapColors_loop]. rewrite read_chunk_closed_form.
    change (Z.to_nat 0) with 0%nat.
    rewrite bool_decide_eq_false_2 by lia. rewrite drop_0.
    destruct (run_workers _ _ _ _ _ _ _ _ _ _ _ _ _) as [g' calls'].
    apply IH.
Qed.


End MapColors_extras.

Lemma batches_partition_readv_witness :
  concat (batches (Z.to_nat 2) 0
            (Z.of_nat (length ["ACGTA"; "CCGTA"; "ACGTA"]%string) / 2)
            (Z.of_nat (length ["ACGTA"; "CCGTA"; "ACGTA"]%string) mod 2)
            ["ACGTA"; "CCGTA"; "ACGTA"]%string)
  = ["ACGTA"; "CCGTA"; "ACGTA"]%string.
Proof.
  apply (batches_partition_readv 2 ["ACGTA"; "CCGTA"; "ACGTA"]%string). lia.
Defined.

Lemma mapColors_terminates_witness :
  exists r, mapColors Examples.hash_seed (UnitigColors_add 5) Examples.find_head
              Examples.lcp_none Examples.one_kmer 2 1 Examples.two_files
              Examples.two_kmers_graph = Some r.
Proof.
  destruct (mapColors_terminates Examples.hash_seed (UnitigColors_add 5)
              Examples.find_head Examples.lcp_none Examples.one_kmer 2 1
              Examples.two_files Examples.two_kmers_graph) as [H _]; [lia|].
  apply H. lia.
Defined.

Section MapColors_extras2.

Variable hash : Kmer -> Z -> Z.
Variable add : UnitigColors -> UnitigMap.t -> Z -> UnitigColors.
Variable find : ColoredCDBG -> Kmer -> UnitigMap.t.
Variable lcp : ColoredCDBG -> UnitigMap.t -> string -> Z -> Z -> bool -> Z.
Variable KmerIterator : string -> list (Kmer * Z).

(** X22: In a round of mapColors every call of setColor, whichever read it
    comes from, is made with one and the same colour: the file id of the
    last sequence read into the chunk (the value file_id had before the
    round when the chunk is empty), since the workers read the shared
    variable file_id after the chunk was read. *)
Theorem mapColors_round_colour n FQ file_id threads batch_size leftover g :
  read_chunk n FQ [] file_id
  = (drop n FQ, map fst (take n FQ),
     default file_id (last (map snd (take n FQ))),
     bool_decide (length FQ < n)%nat) /\
  Forall (fun c => call_color_id c = default file_id (last (map snd (take n FQ))))
    (snd (run_workers hash add find lcp KmerIterator threads 0 batch_size leftover
            (map fst (take n FQ))
            (default file_id (last (map snd (take n FQ)))) g [])).
Proof.
  split; [apply read_chunk_closed_form|].
  apply run_workers_color. constructor.
Qed.

Lemma same_lookup_refl g : same_lookup hash g g.
Proof. repeat split. Qed.

Lemma same_lookup_trans g1 g2 g3 :
  same_lookup hash g1 g2 -> same_lookup hash g2 g3 -> same_lookup hash g1 g3.
Proof.
  intros (A1 & A2 & A3 & A4 & A5) (B1 & B2 & B3 & B4 & B5).
  repeat split; intros; congruence.
Qed.

Lemma setColor_same_lookup g um color_id :
  same_lookup hash g (snd (setColor hash add g um color_id)).
Proof.
  destruct (getColorSet hash g um) as [p|] eqn:Hp.
  - assert (Hs : snd (setColor hash add g um color_id)
                 = store g p (add (load g p) um color_id)).
    { destruct (getColorSet_Some_guard hash g um p Hp) as [He Ha].
      unfold setColor. rewrite Hp, He.
      rewrite bool_decide_eq_true_2 by assumption. reflexivity. }
    rewrite Hs.
    destruct (store_frame hash g um p (add (load g p) um color_id) Hp)
      as (H1 & H2 & H3 & H4 & H5 & H6 & H7 & H8 & H9).
    split; [exact H9|].
    split; [intros u; unfold getData, unitig_at; rewrite H2, H3, H4; reflexivity|].
    split; [intros u; unfold getHead, unitig_at; rewrite H2, H3, H4; reflexivity|].
    split; assumption.
  - assert (Hs : snd (setColor hash add g um color_id) = g).
    { unfold setColor. rewrite Hp. destruct (negb _ && _); reflexivity. }
    rewrite Hs. apply same_lookup_refl.
Qed.

Lemma worker_read_same_lookup x file_id : forall its skip g calls,
  same_lookup hash g (fst (worker_read hash add find lcp x file_id skip its g calls)).
Proof.
  induction its as [|it_km its IH]; intros skip g calls; [apply same_lookup_refl|].
  cbn [worker_read]. destruct skip as [|skip]; [|apply IH].
  destruct (negb (UnitigMap.isEmpty (find g (fst it_km)))); [|apply IH].
  destruct (UnitigMap.strand (find g (fst it_km))
            || negb (UnitigMap.dist (find g (fst it_km)) =? 0));
    (eapply same_lookup_trans; [apply setColor_same_lookup | apply IH]).
Qed.

Lemma worker_function_same_lookup file_id : forall reads g calls,
  same_lookup hash g
    (fst (worker_function hash add find lcp KmerIterator file_id reads g calls)).
Proof.
  unfold worker_function. induction reads as [|x reads IH]; intros g calls;
    [apply same_lookup_refl|].
  cbn [fold_left fst snd].
  pose proof (worker_read_same_lookup x file_id (KmerIterator x) 0 g calls) as H.
  destruct (worker_read hash add find lcp x file_id 0 (KmerIterator x) g calls)
    as [g' calls'].
  eapply same_lookup_trans; [exact H | apply IH].
Qed.

Lemma run_workers_same_lookup file_id b l : forall threads i rit g calls,
  same_lookup hash g
    (fst (run_workers hash add find lcp KmerIterator threads i b l rit file_id g calls)).
Proof.
  induction threads as [|threads IH]; intros i rit g calls; [apply same_lookup_refl|].
  cbn [run_workers].
  pose proof (worker_function_same_lookup file_id
                (take (Z.to_nat (b + (if i <? l then 1 else 0))) rit) g calls) as H.
  destruct (worker_function hash add find lcp KmerIterator file_id
              (take (Z.to_nat (b + (if i <? l then 1 else 0))) rit) g calls)
    as [g' calls'].
  eapply same_lookup_trans; [exact H | apply IH].
Qed.

Lemma mapColors_loop_same_lookup c T : forall fuel FQ file_id g calls r,
  mapColors_loop hash add find lcp KmerIterator fuel c T FQ file_id g calls = Some r ->
  same_lookup hash g (fst r).
Proof.
  induction fuel as [|fuel IH]; intros FQ file_id g calls r; [discriminate|].
  cbn [mapColors_loop].
  destruct (read_chunk (Z.to_nat c) FQ [] file_id) as [[[FQ' readv] fid'] done].
  pose proof (run_workers_same_lookup fid' (Z.of_nat (length readv) / T)
                (Z.of_nat (length readv) mod T) (Z.to_nat T) 0 readv g calls) as H.
  destruct (run_workers _ _ _ _ _ _ _ _ _ _ _ _ _) as [g' calls'].
  destruct done.
  - intros [= <-]. exact H.
  - intros Hr. eapply same_lookup_trans; [exact H | exact (IH _ _ _ _ _ Hr)].
Qed.

(** X23: With read_chunksize > 0 and nb_threads > 0 mapColors returns, and
    it changes the stored UnitigColors only: for every mapping getColorSet,
    the data byte and the head k-mer are the same after it as before, and so
    are nb_color_sets and the length of the array. *)
Theorem mapColors_keeps_lookup read_chunksize nb_threads FQ g :
  0 < read_chunksize -> 0 < nb_threads ->
  exists g' calls,
    mapColors hash add find lcp KmerIterator read_chunksize nb_threads FQ g
      = Some (g', calls) /\
    (forall u, getColorSet hash g' u = getColorSet hash g u) /\
    (forall u, getData g' u = getData g u) /\
    (forall u, getHead g' u = getHead g u) /\
    nb_color_sets g' = nb_color_sets g /\
    length <$> color_sets g' = length <$> color_sets g.
Proof.
  intros Hc _. unfold mapColors.
  destruct (mapColors_loop_terminates hash add find lcp KmerIterator read_chunksize
              nb_threads Hc (S (length FQ)) FQ 0 g [] ltac:(lia)) as [[g' calls] Hr].
  exists g', calls. split; [exact Hr|].
  exact (mapColors_loop_same_lookup _ _ _ _ _ _ _ _ Hr).
Qed.

Lemma run_workers_nil file_id b l : forall threads i g calls,
  run_workers hash add find lcp KmerIterator threads i b l [] file_id g calls
  = (g, calls).
Proof.
  induction threads as [|threads IH]; intros i g calls; [reflexivity|].
  cbn [run_workers]. rewrite take_nil, drop_nil. cbn. apply IH.
Qed.

(** X24: With no input sequence mapColors (read_chunksize > 0, nb_threads >
    0) makes one round, calls setColor never and leaves the graph as it was. *)
Theorem mapColors_no_input read_chunksize nb_threads g :
  0 < read_chunksize -> 0 < nb_threads ->
  mapColors hash add find lcp KmerIterator read_chunksize nb_threads [] g
  = Some (g, []).
Proof.
  intros Hc _. unfold mapColors. cbn [length mapColors_loop].
  rewrite read_chunk_closed_form. rewrite ?take_nil, ?drop_nil. cbn [map app length].
  rewrite run_workers_nil.
  rewrite bool_decide_eq_true_2 by lia. reflexivity.
Qed.

End MapColors_extras2.

Lemma mapColors_keeps_lookup_witness :
  exists g' calls,
    mapColors Examples.hash_seed (UnitigColors_add 5) Examples.find_head
      Examples.lcp_none Examples.one_kmer 2 1 Examples.two_files
      Examples.two_kmers_graph = Some (g', calls) /\
    (forall u, getColorSet Examples.hash_seed g' u
               = getColorSet Examples.hash_seed Examples.two_kmers_graph u) /\
    (forall u, getData g' u = getData Examples.two_kmers_graph u) /\
    (forall u, getHead g' u = getHead Examples.two_kmers_graph u) /\
    nb_color_sets g' = nb_color_sets Examples.two_kmers_graph /\
    length <$> color_sets g' = length <$> color_sets Examples.two_kmers_graph.
Proof.
  apply (mapColors_keeps_lookup Examples.hash_seed (UnitigColors_add 5)
           Examples.find_head Examples.lcp_none Examples.one_kmer 2 1
           Examples.two_files Examples.two_kmers_graph); lia.
Defined.

Lemma mapColors_no_input_witness :
  mapColors Examples.hash_seed (UnitigColors_add 5) Examples.find_head
    Examples.lcp_none Examples.one_kmer 2 1 [] Examples.two_kmers_graph
  = Some (Examples.two_kmers_graph, []).
Proof.
  apply (mapColors_no_input Examples.hash_seed (UnitigColors_add 5) Examples.find_head
           Examples.lcp_none Examples.one_kmer 2 1 Examples.two_kmers_graph); lia.
Defined.

(** ** First fit *)

Section Init_probes.

Variable hash : Kmer -> Z -> Z.

Lemma initColorSets_probe_occupied g head fuel : forall i h j,
  i <= j < fst (initColorSets_probe hash g head fuel i h) ->
  isUnoccupied (color_sets_get g (hash head (seed_at g j) mod nb_color_sets g)) = false.
Proof.
  induction fuel as [|fuel IH]; intros i h j; cbn [initColorSets_probe].
  - cbn [fst]. lia.
  - destruct (isUnoccupied (color_sets_get g (hash head (seed_at g i) mod nb_color_sets g)))
      eqn:E; cbn zeta.
    + cbn [fst]. lia.
    + intros Hj. destruct (Z.eq_dec j i) as [->|Hne]; [exact E|].
      apply (IH (i + 1) (hash head (seed_at g i) mod nb_color_sets g) j). lia.
Qed.

Lemma candidate_slot_shape g g' head j :
  shape g = shape g' -> candidate_slot hash g head j = candidate_slot hash g' head j.
Proof.
  intros Hs. unfold candidate_slot, seed_at. unfold shape in Hs.
  injection Hs as _ Hse Hn _ _ _. rewrite Hse, Hn. reflexivity.
Qed.

Lemma probes_inv_step H g1 g done um a :
  0 <= H <= 255 ->
  nb_color_sets g1 = Z.of_nat (length (unitigs g1)) ->
  shape g = shape g1 ->
  color_sets g = Some a -> length a = length (unitigs g1) ->
  unitigs g1 !! done = Some um ->
  probes_inv hash H (unitigs g1) g done ->
  probes_inv hash H (unitigs g1) (initColorSets_unitig hash H g um) (S done).
Proof.
  intros HH Hnb Hs Ha Hlen Hum Hinv.
  destruct (initColorSets_unitig_facts hash H g1 g done um a HH Hnb Hs Ha Hlen Hum)
    as (Hs' & Hother & Hcase).
  (* what the probing of [um] found *)
  assert (Hprobe : forall j,
            0 <= j < failed_probes H (getData (initColorSets_unitig hash H g um) um) ->
            isOccupied (load g (color_sets_at (candidate_slot hash g (getHead g um) j)))
            = true).
  { destruct (unitigs_lookup g1 done um Hum) as (He & Hvalid & _).
    assert (Hvalid' : is_Some (unitig_at g um)).
    { pose proof (unitig_at_shape g g1 um Hs) as E.
      destruct Hvalid as [u1 Hu1]. rewrite Hu1 in E.
      destruct (unitig_at g um); [eauto | discriminate]. }
    assert (Hself : forall hid, getData (setData g um hid) um = hid).
    { intros hid. rewrite getData_setData by assumption.
      rewrite bool_decide_eq_true_2 by (split; reflexivity).
      destruct Hvalid' as [u0 ->]. reflexivity. }
    pose proof (initColorSets_probe_occupied g (getHead g um) (Z.to_nat H) 0 0) as Hocc.
    pose proof (initColorSets_probe_spec hash g (getHead g um) (Z.to_nat H) 0 0) as Hp.
    cbn zeta in Hp. rewrite Z2Nat.id in Hp by lia.
    unfold initColorSets_unitig.
    destruct (initColorSets_probe hash g (getHead g um) (Z.to_nat H) 0 0) as [i h_v].
    cbn [fst snd] in *.
    assert (Hdata : getData
              (if i =? H
               then with_km_overflow (setData g um ((if i =? H then 0 else i + 1) mod 2 ^ 8))
                      (KmerHashTable_insert
                         (km_overflow (setData g um ((if i =? H then 0 else i + 1) mod 2 ^ 8)))
                         (getHead g um) UnitigColors_new)
               else store (setData g um ((if i =? H then 0 else i + 1) mod 2 ^ 8))
                      (color_sets_at (Z.to_nat h_v))
                      (setOccupied
                         (color_sets_get
                            (setData g um ((if i =? H then 0 else i + 1) mod 2 ^ 8)) h_v)))
              um
            = (if i =? H then 0 else i + 1) mod 2 ^ 8).
    { destruct (i =? H).
      - unfold getData at 1. cbn [with_km_overflow v_unitigs v_kmers h_kmers_ccov unitig_at].
        apply (Hself (0 mod 2 ^ 8)).
      - transitivity (getData (setData g um ((i + 1) mod 2 ^ 8)) um); [|apply Hself].
        cbn [store]. destruct (color_sets (setData g um ((i + 1) mod 2 ^ 8))); reflexivity. }
    rewrite Hdata. intros j Hj.
    rewrite isOccupied_isUnoccupied. unfold candidate_slot.
    specialize (Hocc j). unfold color_sets_get in Hocc. rewrite Hocc; [reflexivity|].
    unfold failed_probes in Hj.
    destruct Hp as [Hp | (Hi & _ & _)].
    - subst i. rewrite Z.eqb_refl in Hj. change (0 mod 2 ^ 8) with 0 in Hj.
      cbn [Z.eqb] in Hj. lia.
    - destruct (Z.eqb_spec i H) as [E|_]; [lia|].
      rewrite (Z.mod_small (i + 1)) in Hj by lia.
      destruct (Z.eqb_spec (i + 1) 0); lia. }
  set (g' := initColorSets_unitig hash H g um) in *.
  (* occupied slots stay occupied *)
  assert (Hmono : forall s, isOccupied (load g (color_sets_at s)) = true ->
                            isOccupied (load g' (color_sets_at s)) = true).
  { intros s Hocc. destruct Hcase as [(_ & Hcs & _) | (_ & _ & Hlt & _ & Hcs)].
    - cbn [load] in *. rewrite Hcs. exact Hocc.
    - cbn [load] in *. rewrite Hcs. rewrite Ha in Hocc.
      destruct (decide (slot_of hash g' um = s)) as [<-|Hne].
      + rewrite list_lookup_insert_eq by assumption. apply isOccupied_setOccupied.
      + rewrite list_lookup_insert_ne by assumption. exact Hocc. }
  assert (Hhead : forall u, getHead g' u = getHead g u)
    by (intros u; apply getHead_shape; assumption).
  intros i u j Hi Hu Hj. rewrite Hhead.
  rewrite (candidate_slot_shape g' g _ _ Hs'). apply Hmono.
  destruct (decide (i = done)) as [->|Hne].
  - assert (u = um) as -> by congruence. apply Hprobe. exact Hj.
  - rewrite (Hother i u Hne Hu) in Hj. apply (Hinv i u j); [lia | assumption | assumption].
Qed.

End Init_probes.

Section Init_probes2.

Variable hash : Kmer -> Z -> Z.

Lemma probes_inv_fold H g1 :
  0 <= H <= 255 ->
  nb_color_sets g1 = Z.of_nat (length (unitigs g1)) ->
  forall todo done g,
  drop done (unitigs g1) = todo ->
  init_inv hash H g1 (unitigs g1) g done ->
  probes_inv hash H (unitigs g1) g done ->
  probes_inv hash H (unitigs g1) (fold_left (initColorSets_unitig hash H) todo g)
    (done + length todo).
Proof.
  intros HH Hnb. induction todo as [|um todo IH]; intros done g Hdrop Hinv Hpr.
  - cbn. rewrite Nat.add_0_r. assumption.
  - cbn [fold_left length].
    assert (Hum : unitigs g1 !! done = Some um).
    { pose proof (lookup_drop (unitigs g1) done 0) as E. rewrite Hdrop in E.
      rewrite Nat.add_0_r in E. symmetry. exact E. }
    replace (done + S (length todo))%nat with (S done + length todo)%nat by lia.
    apply IH.
    + pose proof (drop_S _ _ _ Hum) as E. rewrite Hdrop in E. congruence.
    + apply init_inv_step; assumption.
    + destruct Hinv as (Hs & (a & Ha & Hlen) & _).
      apply (probes_inv_step hash H g1 g done um a); assumption.
Qed.

(** X19: initColorSets places first fit: for a unitig whose byte is a, every
    hash function tried before the chosen one (numbers 0 .. a-2 when a is
    not 0, all max_nb_hash of them when the unitig went to the overflow
    table) gives a slot of the array that is occupied when initColorSets
    returns. *)
Theorem initColorSets_first_fit H g0 u j :
  0 <= H <= 255 -> km_overflow g0 = ∅ -> In u (unitigs g0) ->
  0 <= j < failed_probes H (getData (initColorSets hash H g0) u) ->
  isOccupied
    (load (initColorSets hash H g0)
       (color_sets_at
          (candidate_slot hash (initColorSets hash H g0) (getHead g0 u) j))) = true.
Proof.
  intros HH Hov Hin Hj.
  destruct (init_inv_start hash H g0 Hov) as [Hn Hinv0]. cbv zeta in Hn, Hinv0.
  unfold initColorSets in *.
  set (g1 := {| k_ := k_ g0; v_unitigs := v_unitigs g0; v_kmers := v_kmers g0;
                h_kmers_ccov := h_kmers_ccov g0;
                color_sets := Some (replicate (Z.to_nat (CompactedDBG_size g0))
                                      UnitigColors_new);
                nb_color_sets := CompactedDBG_size g0; seeds := seeds g0;
                km_overflow := km_overflow g0 |}) in *.
  assert (Hpr0 : probes_inv hash H (unitigs g1) g1 0) by (intros i um j0 Hi; lia).
  pose proof (init_inv_fold hash H g1 HH Hn (unitigs g1) 0%nat g1 (drop_0 _) Hinv0)
    as Hinv.
  pose proof (probes_inv_fold H g1 HH Hn (unitigs g1) 0%nat g1 (drop_0 _) Hinv0 Hpr0)
    as Hpr.
  cbn [Nat.add] in Hinv, Hpr.
  set (g := fold_left (initColorSets_unitig hash H) (unitigs g1) g1) in *.
  destruct Hinv as (Hs & _).
  change (unitigs g0) with (unitigs g1) in Hin.
  apply list_elem_of_In, list_elem_of_lookup in Hin as [i Hi].
  assert (Hi' : (i < length (unitigs g1))%nat) by (apply lookup_lt_Some in Hi; exact Hi).
  change (getHead g0 u) with (getHead g1 u). rewrite <- (getHead_shape g g1 u Hs).
  apply (Hpr i u j Hi' Hi Hj).
Qed.

End Init_probes2.

Lemma initColorSets_first_fit_witness :
  isOccupied
    (load (initColorSets Examples.hash_seed 2 Examples.three_unitigs)
       (color_sets_at
          (candidate_slot Examples.hash_seed
             (initColorSets Examples.hash_seed 2 Examples.three_unitigs)
             (getHead Examples.three_unitigs (UnitigMap.new 0 0 1 5 true false true)) 1)))
  = true.
Proof.
  apply (initColorSets_first_fit Examples.hash_seed 2 Examples.three_unitigs
           (UnitigMap.new 0 0 1 5 true false true) 1).
  - lia.
  - reflexivity.
  - vm_compute. auto.
  - vm_compute. split; [discriminate | reflexivity].
Defined.

(** ** Iterated ids, and build *)

Lemma contains_id_bound c x :
  wf_UnitigColors c -> contains_id c x -> 0 <= x < 2 ^ 62.
Proof.
  destruct c as [w bm]. intros [Hw Hbm]. unfold contains_id. cbn [setBits bitmap] in *.
  destruct (flag_cases w ltac:(lia)) as [Hf | [Hf | [Hf | Hf]]]; rewrite Hf.
  - change (0 =? ptrCompressedBitmap) with true. cbv iota. intros Hin.
    destruct (Hbm Hf) as [_ Hr]. rewrite List.Forall_forall in Hr.
    specialize (Hr x Hin). lia.
  - change (1 =? ptrCompressedBitmap) with false.
    change (1 =? localBitVectorColor) with true. cbv iota.
    unfold maxBitVectorIDs. intros [Hx _]. lia.
  - change (2 =? ptrCompressedBitmap) with false.
    change (2 =? localBitVectorColor) with false.
    change (2 =? localSingleColor) with true. cbv iota. intros ->.
    rewrite Z.shiftr_div_pow2 by lia. change (2 ^ 2) with 4.
    split; [apply Z.div_pos; lia|]. apply Z.div_lt_upper_bound; lia.
  - change (3 =? ptrCompressedBitmap) with false.
    change (3 =? localBitVectorColor) with false.
    change (3 =? localSingleColor) with false. cbv iota. intros [].
Qed.

(** X6: The loop from begin() to end() over a well-formed occupied
    UnitigColors ends, and every ColorKmer_ID it meets is below 2^62, so it
    is never the all-ones value that marks an invalid ColorKmer_ID: for
    every unitig length K with 0 < K < 2^64, getColorID(K) returns id / K
    and getKmerPosition(K) returns id % K on it, and neither logs an error. *)
Theorem iterated_ids_are_valid (c : UnitigColors) :
  wf_UnitigColors c -> isOccupied c = true ->
  exists l, colors c = Some l /\
  Forall (fun x =>
            0 <= x < 2 ^ 62 /\ x <> all_ones /\
            forall K, 0 < K < 2 ^ 64 ->
              ColorKmer_ID.getColorID x K = (x / K, []) /\
              ColorKmer_ID.getKmerPosition x K = (x mod K, [])) l.
Proof.
  intros Hwf Hocc.
  destruct (colors_occupied c Hwf Hocc) as (l & Hl & _ & Hm).
  exists l. split; [exact Hl|].
  apply List.Forall_forall. intros x Hx. apply Hm in Hx.
  pose proof (contains_id_bound c x Hwf Hx) as Hb.
  assert (Hne : x <> 0xffffffffffffffff) by lia.
  split; [exact Hb|]. split; [exact Hne|]. intros K _.
  unfold ColorKmer_ID.getColorID, ColorKmer_ID.getKmerPosition.
  destruct (Z.eqb_spec x 0xffffffffffffffff); [contradiction|]. split; reflexivity.
Qed.

Lemma iterated_ids_are_valid_witness :
  exists l, colors bitmap_example = Some l /\
  Forall (fun x =>
            0 <= x < 2 ^ 62 /\ x <> all_ones /\
            forall K, 0 < K < 2 ^ 64 ->
              ColorKmer_ID.getColorID x K = (x / K, []) /\
              ColorKmer_ID.getKmerPosition x K = (x mod K, [])) l.
Proof.
  apply (iterated_ids_are_valid bitmap_example).
  - split; [vm_compute; split; [discriminate | reflexivity]|].
    intros _. split; [repeat constructor; lia|].
    repeat constructor; vm_compute; congruence.
  - reflexivity.
Defined.

Section Build.

Variable hash : string -> Z -> Z.
Variable add : UnitigColors -> UnitigMap.t -> Z -> UnitigColors.
Variable find : ColoredCDBG -> string -> UnitigMap.t.
Variable lcp : ColoredCDBG -> UnitigMap.t -> string -> Z -> Z -> bool -> Z.
Variable KmerIterator : string -> list (string * Z).

Lemma initColorSets_resolves H g0 u :
  0 <= H <= 255 -> km_overflow g0 = ∅ -> In u (unitigs g0) ->
  exists p, getColorSet hash (initColorSets hash H g0) u = Some p.
Proof.
  intros HH Hov Hin.
  destruct (initColorSets_inv hash H g0 HH Hov) as (g1 & Hums & Hhead & Hnb & Hinv & _).
  set (g := initColorSets hash H g0) in *.
  destruct Hinv as (Hs & (a & Ha & Hlen) & I3 & _ & I5).
  apply list_elem_of_In, list_elem_of_lookup in Hin as [i Hi].
  rewrite <- Hums in Hi.
  assert (Hi' : (i < length (unitigs g1))%nat) by (apply lookup_lt_Some in Hi; exact Hi).
  destruct (unitigs_lookup g1 i u Hi) as (He & _ & _).
  unfold getColorSet. rewrite He, Ha.
  rewrite bool_decide_eq_true_2 by discriminate. cbn [negb andb].
  destruct (Z.eqb_spec (getData g u) 0) as [E|E]; [|eauto].
  destruct (proj2 (I5 (getHead g u))) as [c Hc]; [exists i, u; auto|].
  rewrite Hc. eauto.
Qed.

Lemma unitig_at_kind_index g um um' :
  um_kind um = um_kind um' -> um_index um = um_index um' ->
  unitig_at g um = unitig_at g um'.
Proof.
  unfold um_kind, um_index, unitig_at. intros Hk Hi. rewrite Hi.
  destruct (UnitigMap.isShort um), (UnitigMap.isShort um'),
    (UnitigMap.isAbundant um), (UnitigMap.isAbundant um');
    try discriminate; reflexivity.
Qed.

Lemma getColorSet_unitig_at g um um' :
  UnitigMap.isEmpty um = UnitigMap.isEmpty um' ->
  unitig_at g um = unitig_at g um' ->
  getColorSet hash g um = getColorSet hash g um'.
Proof.
  intros He Hu. unfold getColorSet, getHead, getData. rewrite He, Hu. reflexivity.
Qed.

Lemma designates_in_unitigs g um :
  designates g um ->
  exists u, In u (unitigs g) /\ UnitigMap.isEmpty u = false /\
            um_kind u = um_kind um /\ um_index u = um_index um.
Proof.
  intros [_ [x Hx]]. unfold unitig_at in Hx. unfold unitigs, um_kind, um_index.
  set (j := Z.to_nat (UnitigMap.pos_unitig um)) in *.
  destruct (UnitigMap.isShort um); [|destruct (UnitigMap.isAbundant um)].
  - exists (UnitigMap.new (Z.of_nat j) 0 1 (getK g) true false true).
    split; [|cbn; rewrite Nat2Z.id; auto].
    apply in_or_app. right. apply in_or_app. left.
    apply list_elem_of_In, list_elem_of_lookup. exists j.
    rewrite list_lookup_imap, Hx. reflexivity.
  - exists (UnitigMap.new (Z.of_nat j) 0 1 (getK g) false true true).
    split; [|cbn; rewrite Nat2Z.id; auto].
    apply in_or_app. right. apply in_or_app. right.
    apply list_elem_of_In, list_elem_of_lookup. exists j.
    rewrite list_lookup_imap, Hx. reflexivity.
  - exists (UnitigMap.new (Z.of_nat j) 0 (seq_size x - getK g + 1) (seq_size x)
              false false true).
    split; [|cbn; rewrite Nat2Z.id; auto].
    apply in_or_app. left.
    apply list_elem_of_In, list_elem_of_lookup. exists j.
    rewrite list_lookup_imap, Hx. reflexivity.
Qed.

Lemma worker_read_designates g0 x file_id :
  (forall g km, UnitigMap.isEmpty (find g km) = true \/ designates g0 (find g km)) ->
  forall its skip g calls,
  Forall (fun c => designates g0 (call_um c)) calls ->
  Forall (fun c => designates g0 (call_um c))
    (snd (worker_read hash add find lcp x file_id skip its g calls)).
Proof.
  intros Hfind. induction its as [|it_km its IH]; intros skip g calls Hc; [exact Hc|].
  cbn [worker_read]. destruct skip as [|skip]; [|apply IH; exact Hc].
  destruct (negb (UnitigMap.isEmpty (find g (fst it_km)))) eqn:E; [|apply IH; exact Hc].
  assert (Hd : designates g0 (find g (fst it_km))).
  { destruct (Hfind g (fst it_km)) as [H|H]; [|exact H].
    rewrite H in E. discriminate. }
  destruct (UnitigMap.strand (find g (fst it_km))
            || negb (UnitigMap.dist (find g (fst it_km)) =? 0));
    apply IH; apply Forall_app; (split; [exact Hc|]);
    constructor; [exact Hd | constructor | exact Hd | constructor].
Qed.

Lemma worker_function_designates g0 file_id :
  (forall g km, UnitigMap.isEmpty (find g km) = true \/ designates g0 (find g km)) ->
  forall reads g calls,
  Forall (fun c => designates g0 (call_um c)) calls ->
  Forall (fun c => designates g0 (call_um c))
    (snd (worker_function hash add find lcp KmerIterator file_id reads g calls)).
Proof.
  intros Hfind. unfold worker_function.
  induction reads as [|x reads IH]; intros g calls Hc; [exact Hc|].
  cbn [fold_left fst snd].
  pose proof (worker_read_designates g0 x file_id Hfind (KmerIterator x) 0 g calls Hc)
    as H.
  destruct (worker_read hash add find lcp x file_id 0 (KmerIterator x) g calls)
    as [g' calls'].
  apply IH. exact H.
Qed.

Lemma run_workers_designates g0 file_id b l :
  (forall g km, UnitigMap.isEmpty (find g km) = true \/ designates g0 (find g km)) ->
  forall threads i rit g calls,
  Forall (fun c => designates g0 (call_um c)) calls ->
  Forall (fun c => designates g0 (call_um c))
    (snd (run_workers hash add find lcp KmerIterator threads i b l rit file_id g calls)).
Proof.
  intros Hfind. induction threads as [|threads IH]; intros i rit g calls Hc; [exact Hc|].
  cbn [run_workers].
  pose proof (worker_function_designates g0 file_id Hfind
                (take (Z.to_nat (b + (if i <? l then 1 else 0))) rit) g calls Hc) as H.
  destruct (worker_function hash add find lcp KmerIterator file_id
              (take (Z.to_nat (b + (if i <? l then 1 else 0))) rit) g calls)
    as [g' calls'].
  apply IH. exact H.
Qed.

Lemma mapColors_loop_designates g0 c T :
  (forall g km, UnitigMap.isEmpty (find g km) = true \/ designates g0 (find g km)) ->
  forall fuel FQ file_id g calls r,
  Forall (fun c => designates g0 (call_um c)) calls ->
  mapColors_loop hash add find lcp KmerIterator fuel c T FQ file_id g calls = Some r ->
  Forall (fun c => designates g0 (call_um c)) (snd r).
Proof.
  intros Hfind. induction fuel as [|fuel IH]; intros FQ file_id g calls r Hc;
    [discriminate|].
  cbn [mapColors_loop].
  destruct (read_chunk (Z.to_nat c) FQ [] file_id) as [[[FQ' readv] fid'] done].
  pose proof (run_workers_designates g0 fid' (Z.of_nat (length readv) / T)
                (Z.of_nat (length readv) mod T) Hfind (Z.to_nat T) 0 readv g calls Hc)
    as H.
  destruct (run_workers _ _ _ _ _ _ _ _ _ _ _ _ _) as [g' calls'].
  destruct done.
  - intros [= <-]. exact H.
  - intros Hr. exact (IH _ _ _ _ _ H Hr).
Qed.

(** X25: build, from the graph that CompactedDBG::build has made (overflow
    table empty, read_chunksize > 0, nb_threads > 0, find returning only
    empty mappings and mappings that designate a unitig of the graph),
    returns true; in the graph it leaves every unitig still has the byte
    initColorSets gave it, getColorSet locates a UnitigColors for it and
    setColor on it succeeds; and every call of setColor that mapColors made
    was on a mapping that designates a unitig and for which getColorSet
    locates a UnitigColors, so that none of them returned false. *)
Theorem build_resolves_every_unitig read_chunksize nb_threads FQ g0 :
  km_overflow g0 = ∅ -> 0 < read_chunksize -> 0 < nb_threads ->
  (forall g km, UnitigMap.isEmpty (find g km) = true \/ designates g0 (find g km)) ->
  exists g' calls,
    build hash add find lcp KmerIterator read_chunksize nb_threads FQ g0
      = Some (true, g', calls) /\
    (forall u, In u (unitigs g0) ->
       (exists p, getColorSet hash g' u = Some p) /\
       getData g' u = getData (initColorSets hash default_max_nb_hash g0) u /\
       forall color_id, fst (setColor hash add g' u color_id) = true) /\
    Forall (fun c =>
              designates g0 (call_um c) /\
              (exists p, getColorSet hash g' (call_um c) = Some p) /\
              fst (setColor hash add g' (call_um c) (call_color_id c)) = true)
      calls.
Proof.
  intros Hov Hc _ Hfind. unfold build.
  assert (HH : 0 <= default_max_nb_hash <= 255) by (unfold default_max_nb_hash; lia).
  destruct (mapColors_loop_terminates hash add find lcp KmerIterator read_chunksize
              nb_threads Hc (S (length FQ)) FQ 0
              (initColorSets hash default_max_nb_hash g0) [] ltac:(lia))
    as [[g' calls] Hr].
  unfold mapColors. rewrite Hr. exists g', calls. split; [reflexivity|].
  pose proof (mapColors_loop_same_lookup hash add find lcp KmerIterator _ _ _ _ _ _ _ _ Hr)
    as (L1 & L2 & _). cbn [fst] in L1, L2.
  assert (Hset : forall um color_id p, getColorSet hash g' um = Some p ->
                 fst (setColor hash add g' um color_id) = true).
  { intros um color_id p Hp.
    destruct (getColorSet_Some_guard hash g' um p Hp) as [He Ha].
    unfold setColor. rewrite Hp, He. rewrite bool_decide_eq_true_2 by assumption.
    reflexivity. }
  assert (Hres : forall u, In u (unitigs g0) ->
                 exists p, getColorSet hash g' u = Some p).
  { intros u Hin.
    destruct (initColorSets_resolves default_max_nb_hash g0 u HH Hov Hin) as [p Hp].
    rewrite <- L1 in Hp. eauto. }
  split.
  - intros u Hin. destruct (Hres u Hin) as [p Hp].
    split; [eauto|]. split; [apply L2|]. intros color_id. exact (Hset _ _ _ Hp).
  - pose proof (mapColors_loop_designates g0 _ _ Hfind _ _ _ _ _ _ (List.Forall_nil _) Hr)
      as Hd. cbn [snd] in Hd.
    eapply Forall_impl; [exact Hd|]. cbv beta. intros c Hdc.
    destruct (designates_in_unitigs g0 (call_um c) Hdc) as (u & Hin & Hue & Hk & Hi).
    destruct (Hres u Hin) as [p Hp].
    assert (Hp' : getColorSet hash g' (call_um c) = Some p).
    { rewrite <- Hp. apply getColorSet_unitig_at.
      - destruct Hdc as [-> _]. rewrite Hue. reflexivity.
      - apply unitig_at_kind_index; congruence. }
    split; [exact Hdc|]. split; [eauto|]. exact (Hset _ _ _ Hp').
Qed.

End Build.

Lemma build_resolves_every_unitig_witness :
  exists g' calls,
    build Examples.hash_seed (UnitigColors_add 5) Examples.find_head Examples.lcp_none
      Examples.one_kmer 2 1 Examples.two_files Examples.two_unitigs
      = Some (true, g', calls) /\
    (forall u, In u (unitigs Examples.two_unitigs) ->
       (exists p, getColorSet Examples.hash_seed g' u = Some p) /\
       getData g' u
         = getData (initColorSets Examples.hash_seed default_max_nb_hash
                      Examples.two_unitigs) u /\
       forall color_id,
         fst (setColor Examples.hash_seed (UnitigColors_add 5) g' u color_id) = true) /\
    Forall (fun c =>
              designates Examples.two_unitigs (call_um c) /\
              (exists p, getColorSet Examples.hash_seed g' (call_um c) = Some p) /\
              fst (setColor Examples.hash_seed (UnitigColors_add 5) g' (call_um c)
                     (call_color_id c)) = true)
      calls.
Proof.
  apply (build_resolves_every_unitig Examples.hash_seed (UnitigColors_add 5)
           Examples.find_head Examples.lcp_none Examples.one_kmer 2 1
           Examples.two_files Examples.two_unitigs).
  - reflexivity.
  - lia.
  - lia.
  - intros g km. unfold Examples.find_head.
    destruct (bool_decide (km = "ACGTA"));
      [right; split; [reflexivity | vm_compute; eauto]|].
    destruct (bool_decide (km = "CCGTA"));
      [right; split; [reflexivity | vm_compute; eauto]|].
    left. reflexivity.
Defined.
